(** * FixionMail: the job queue and the delivery queue of the Supabase schema

    The orchestration state of FixionMail lives in two PostgreSQL tables,
    [public.story_jobs] and [public.scheduled_deliveries], and in one
    PL/pgSQL function, [public.claim_pending_job].  This development embeds
    the tables as lists of records (one record per row, in heap order), the
    statements of the migrations as functions on those lists, and proves
    the properties the specification states about them. *)

From Stdlib Require Import ZArith List String Bool Lia.
From Stdlib Require Import Sorting.Permutation Sorting.Sorted.
Import ListNotations.
Local Open Scope string_scope.
Local Open Scope list_scope.
Local Open Scope Z_scope.

(** ** SQL column types *)

(** A [uuid] is a 128-bit identifier; only equality and order are used. *)
Definition uuid := Z.
(** [timestamp with time zone]: an instant, in seconds since the epoch. *)
Definition timestamptz := Z.
Definition text := string.
(** [jsonb] payloads are never inspected by the statements below. *)
Definition jsonb := string.

(** ** Relational helpers *)

Module Sql.
Section Rows.
Context {row : Type}.

(** Insertion of a row in a list sorted by [leb]; equal rows keep their
    scan order. *)
Fixpoint insert_sorted (leb : row -> row -> bool) (r : row)
    (l : list row) : list row :=
  match l with
  | [] => [r]
  | a :: l' => if leb r a then r :: l else a :: insert_sorted leb r l'
  end.

(** [ORDER BY], for the comparison [leb] of the sort keys. *)
Fixpoint order_by (leb : row -> row -> bool) (l : list row) : list row :=
  match l with
  | [] => []
  | r :: l' => insert_sorted leb r (order_by leb l')
  end.

(** The comparison of [ORDER BY col ASC]. *)
Definition asc (col : row -> Z) (a b : row) : bool := col a <=? col b.

(** [LIMIT 1]. *)
Definition limit1 (l : list row) : option row := hd_error l.

(** [UPDATE ... SET f WHERE p]. *)
Definition update_where (p : row -> bool) (f : row -> row)
    (t : list row) : list row :=
  map (fun r => if p r then f r else r) t.

(** [DELETE ... WHERE p]. *)
Definition delete_where (p : row -> bool) (t : list row) : list row :=
  filter (fun r => negb (p r)) t.

Lemma insert_sorted_perm leb r l : Permutation (r :: l) (insert_sorted leb r l).
Proof.
  induction l as [|a l IH]; simpl; [constructor; constructor|].
  destruct (leb r a); [apply Permutation_refl|].
  eapply perm_trans; [apply perm_swap|]. now constructor.
Qed.

Lemma order_by_perm leb l : Permutation l (order_by leb l).
Proof.
  induction l as [|a l IH]; simpl; [constructor|].
  eapply perm_trans; [|apply insert_sorted_perm]. now constructor.
Qed.

Lemma order_by_In leb l r : In r (order_by leb l) <-> In r l.
Proof.
  split; apply Permutation_in;
    [apply Permutation_sym|]; apply order_by_perm.
Qed.

Section Sorted.
Variable leb : row -> row -> bool.
Hypothesis leb_total : forall a b, leb a b = true \/ leb b a = true.
Hypothesis leb_trans :
  forall a b c, leb a b = true -> leb b c = true -> leb a c = true.

Definition sorted_by : list row -> Prop :=
  StronglySorted (fun a b => leb a b = true).

Lemma insert_sorted_sorted r l :
  sorted_by l -> sorted_by (insert_sorted leb r l).
Proof.
  unfold sorted_by. induction 1 as [|a l Hs IH Hall]; simpl.
  - repeat constructor.
  - destruct (leb r a) eqn:E.
    + constructor; [constructor; assumption|].
      constructor; [assumption|].
      eapply Forall_impl; [|exact Hall]. intros b Hb; eauto.
    + constructor; [assumption|].
      assert (Hp := insert_sorted_perm leb r l).
      rewrite Forall_forall in *. intros b Hb.
      apply (Permutation_in _ (Permutation_sym Hp)) in Hb.
      destruct Hb as [<-|Hb]; [|auto].
      destruct (leb_total r a) as [C|C]; congruence.
Qed.

Lemma order_by_sorted l : sorted_by (order_by leb l).
Proof.
  induction l; simpl; [constructor|now apply insert_sorted_sorted].
Qed.

End Sorted.

Lemma asc_total col a b : asc col a b = true \/ asc col b a = true.
Proof. unfold asc. rewrite !Z.leb_le. lia. Qed.

Lemma asc_trans col a b c :
  asc col a b = true -> asc col b c = true -> asc col a c = true.
Proof. unfold asc. rewrite !Z.leb_le. lia. Qed.

(** The first row of [ORDER BY col ASC] exists as soon as there is a row,
    is one of the rows, and no row has a smaller [col]. *)
Lemma limit1_None leb l : limit1 (order_by leb l) = None -> l = [].
Proof.
  destruct l as [|a l]; [reflexivity|]. intros H.
  assert (Hp := order_by_perm leb (a :: l)).
  destruct (order_by leb (a :: l)); [|discriminate].
  now apply Permutation_sym, Permutation_nil in Hp.
Qed.

Lemma limit1_In leb l m : limit1 (order_by leb l) = Some m -> In m l.
Proof.
  intros H. apply (order_by_In leb).
  destruct (order_by leb l); inversion H; subst; now left.
Qed.

Lemma limit1_min col l m :
  limit1 (order_by (asc col) l) = Some m ->
  forall r, In r l -> col m <= col r.
Proof.
  intros H r Hr. apply (order_by_In (asc col)) in Hr.
  assert (Hs := order_by_sorted (asc col) (asc_total col) (asc_trans col) l).
  destruct (order_by (asc col) l) as [|a s]; inversion H; subst.
  destruct Hr as [<-|Hr]; [lia|].
  apply StronglySorted_inv in Hs. destruct Hs as [_ Hall].
  rewrite Forall_forall in Hall. specialize (Hall r Hr).
  unfold asc in Hall. now apply Z.leb_le.
Qed.

Lemma update_where_none p f t :
  (forall r, In r t -> p r = false) -> update_where p f t = t.
Proof.
  unfold update_where; induction t as [|a t IH]; simpl; intros H; auto.
  rewrite (H a (or_introl eq_refl)), IH; auto.
Qed.

Lemma hd_error_filter (p : row -> bool) l : hd_error (filter p l) = find p l.
Proof.
  induction l as [|a l IH]; simpl; [reflexivity|].
  destruct (p a); simpl; auto.
Qed.

Lemma update_where_Forall (Q : row -> Prop) p f t :
  Forall Q t -> (forall r, Q r -> p r = true -> Q (f r)) ->
  Forall Q (update_where p f t).
Proof.
  intros H Hf. unfold update_where. rewrite Forall_forall in *.
  intros x Hx. apply in_map_iff in Hx. destruct Hx as (r & <- & Hr).
  destruct (p r) eqn:E; auto.
Qed.

Lemma update_where_keeps p f t r :
  In r t -> p r = false -> In r (update_where p f t).
Proof.
  intros Hin Hp. unfold update_where. apply in_map_iff.
  exists r. now rewrite Hp.
Qed.

(** A row of the updated table is a row of the old one, rewritten if the
    WHERE clause held of it. *)
Lemma update_where_inv p f t r' :
  In r' (update_where p f t) ->
  exists r, In r t /\ r' = if p r then f r else r.
Proof.
  unfold update_where. intros H. apply in_map_iff in H.
  destruct H as (r & <- & Hr). eauto.
Qed.

Section Keyed.
Variable key : row -> Z.

Definition lookup (k : Z) (t : list row) : option row :=
  find (fun r => key r =? k) t.

Lemma lookup_In k t r : lookup k t = Some r -> In r t /\ key r = k.
Proof.
  unfold lookup; intros H. apply find_some in H.
  rewrite Z.eqb_eq in H. exact H.
Qed.

Lemma In_lookup k t r :
  NoDup (map key t) -> In r t -> key r = k -> lookup k t = Some r.
Proof.
  unfold lookup. induction t as [|a t IH]; simpl; intros Hnd Hin Hk; [tauto|].
  inversion Hnd as [|? ? Hnot Hnd']; subst.
  destruct Hin as [->|Hin].
  - now rewrite Z.eqb_refl.
  - destruct (key a =? key r) eqn:E; [|auto].
    apply Z.eqb_eq in E. exfalso. apply Hnot. rewrite E. now apply in_map.
Qed.

Variable f : row -> row.
Hypothesis key_f : forall r, key (f r) = key r.

Lemma update_where_keys k t :
  map key (update_where (fun r => key r =? k) f t) = map key t.
Proof.
  unfold update_where. rewrite map_map. apply map_ext.
  intros r. destruct (key r =? k); auto.
Qed.

Lemma lookup_update_same k t :
  lookup k (update_where (fun r => key r =? k) f t) = option_map f (lookup k t).
Proof.
  unfold lookup, update_where. induction t as [|a t IH]; simpl; [reflexivity|].
  destruct (key a =? k) eqn:E.
  - now rewrite key_f, E.
  - now rewrite E.
Qed.

Lemma lookup_update_other k k' t :
  k' <> k ->
  lookup k' (update_where (fun r => key r =? k) f t) = lookup k' t.
Proof.
  intros Hne. unfold lookup, update_where.
  induction t as [|a t IH]; simpl; [reflexivity|].
  destruct (key a =? k) eqn:E.
  - rewrite key_f. apply Z.eqb_eq in E.
    destruct (key a =? k') eqn:E'; [apply Z.eqb_eq in E'; congruence|auto].
  - destruct (key a =? k'); auto.
Qed.

(** With a primary key, [UPDATE ... WHERE key = k] rewrites one row and
    leaves the rows around it as they are. *)
Lemma update_where_split k t r :
  NoDup (map key t) -> In r t -> key r = k ->
  exists l1 l2, t = l1 ++ r :: l2 /\
    update_where (fun r => key r =? k) f t = l1 ++ f r :: l2.
Proof.
  intros Hnd Hin Hk. apply in_split in Hin. destruct Hin as (l1 & l2 & ->).
  exists l1, l2. split; [reflexivity|].
  unfold update_where. rewrite map_app. simpl. rewrite Hk, Z.eqb_refl.
  rewrite map_app in Hnd. simpl in Hnd.
  assert (Hother : forall x, In x (l1 ++ l2) -> (key x =? k) = false).
  { intros x Hx. apply Z.eqb_neq. intros Hxk.
    apply NoDup_remove_2 in Hnd. apply Hnd.
    rewrite <- map_app, Hk, <- Hxk. now apply in_map. }
  f_equal; [|f_equal]; apply (update_where_none _ f);
    intros x Hx; apply Hother, in_or_app; auto.
Qed.

End Keyed.
End Rows.

(** *** Column and table constraints *)

(** [REFERENCES]: a NULL refers to nothing and passes. *)
Definition references (keys : list uuid) (fk : option uuid) : bool :=
  match fk with
  | None => true
  | Some k => existsb (Z.eqb k) keys
  end.

(** The range of the type [integer]. *)
Definition int4 (n : Z) : bool := (-2147483648 <=? n) && (n <=? 2147483647).

(** [UNIQUE]: no value occurs twice. *)
Fixpoint distinct {A : Type} (eqb : A -> A -> bool) (l : list A) : bool :=
  match l with
  | [] => true
  | a :: l' => negb (existsb (eqb a) l') && distinct eqb l'
  end.

Lemma distinct_NoDup (l : list Z) : distinct Z.eqb l = true -> NoDup l.
Proof.
  induction l as [|a l IH]; simpl; intros H; [constructor|].
  apply andb_true_iff in H. destruct H as [Ha Hl].
  constructor; [|auto]. intros Hin.
  apply negb_true_iff in Ha.
  assert (existsb (Z.eqb a) l = true)
    by (apply existsb_exists; exists a; split; [assumption|apply Z.eqb_refl]).
  congruence.
Qed.

Lemma NoDup_distinct (l : list Z) : NoDup l -> distinct Z.eqb l = true.
Proof.
  induction 1 as [|a l Hnot Hnd IH]; simpl; [reflexivity|].
  rewrite IH, andb_true_r. apply negb_true_iff.
  destruct (existsb (Z.eqb a) l) eqn:E; [|reflexivity].
  apply existsb_exists in E. destruct E as (b & Hb & Hab).
  apply Z.eqb_eq in Hab. subst b. contradiction.
Qed.

Lemma NoDup_map_on {A B : Type} (f : A -> B) (l : list A) :
  (forall a b, In a l -> In b l -> f a = f b -> a = b) ->
  NoDup l -> NoDup (map f l).
Proof.
  intros Hinj Hnd. induction Hnd as [|a l Hnot Hnd IH]; simpl; constructor.
  - intros Hin. apply in_map_iff in Hin. destruct Hin as (b & Hfb & Hb).
    assert (b = a) by (apply Hinj; simpl; auto). now subst b.
  - apply IH. intros x y Hx Hy. apply Hinj; simpl; auto.
Qed.

Lemma filter_keeps_distinct {T K : Type} (keep : T -> bool) (col : T -> K)
    (rows : list T) :
  NoDup (map col rows) -> NoDup (map col (filter keep rows)).
Proof.
  induction rows as [|r rows IH]; simpl; intros H; [constructor|].
  inversion H as [|? ? Hnot Hnd]; subst.
  destruct (keep r); simpl; [|auto]. constructor; [|auto].
  intros Hin. apply Hnot. apply in_map_iff in Hin.
  destruct Hin as (b & Hb & Hin). apply filter_In in Hin.
  rewrite <- Hb. apply in_map. tauto.
Qed.

Lemma existsb_eqb_In (k : Z) (l : list Z) :
  existsb (Z.eqb k) l = true <-> In k l.
Proof.
  rewrite existsb_exists. split.
  - intros (x & Hx & E). apply Z.eqb_eq in E. now subst.
  - intros H. exists k. split; [assumption|apply Z.eqb_refl].
Qed.

End Sql.

(** ** Claiming a row under [FOR UPDATE SKIP LOCKED]

    The claim statement has the shape
    [UPDATE t SET ... WHERE key = (SELECT key FROM t WHERE ... ORDER BY age
    LIMIT 1 FOR UPDATE SKIP LOCKED) RETURNING ...].  This section gives the
    statement run alone ([claim]) and its execution by several transactions
    at once under READ COMMITTED ([step]): a transaction takes the statement
    snapshot, walks the ordered candidates, passes over a row that another
    open transaction has locked or whose committed version no longer
    satisfies the WHERE clause, locks the first row that remains, and
    writes and releases it at commit. *)

Module SkipLocked.
Import Sql.
Section Protocol.
Context {row params res : Type}.
Variable key : row -> Z.
Variable age : row -> Z.
Variable want : params -> row -> bool.
Variable set_claimed : params -> row -> row.
Variable returning : row -> res.
Variable res_key : res -> Z.
Variable taken : row -> bool.

Hypothesis key_set_claimed : forall p r, key (set_claimed p r) = key r.
Hypothesis taken_set_claimed : forall p r, taken (set_claimed p r) = true.
Hypothesis want_not_taken : forall p r, want p r = true -> taken r = false.
Hypothesis res_key_returning : forall r, res_key (returning r) = key r.

(** The statement run alone. *)
Definition claim (p : params) (t : list row) : list row * option res :=
  match option_map key (limit1 (order_by (asc age) (filter (want p) t))) with
  | None => (t, None)
  | Some k =>
      let hit := fun r => key r =? k in
      let t' := update_where hit (set_claimed p) t in
      (t', hd_error (map returning (filter hit t')))
  end.

(** Where a transaction stands. *)
Inductive phase :=
| Idle
| Scanning (todo : list row)
| Locked (k : Z)
| Returned (out : option res)
| Aborted.

Record txn := mk_txn { args : params; stage : phase }.

(** The committed rows and the transactions in flight. *)
Record db := mk_db { rows : list row; txns : list txn }.

Definition holds (k : Z) (x : txn) : bool :=
  match stage x with
  | Locked k' => k' =? k
  | _ => false
  end.

Definition row_locked (s : db) (k : Z) : bool := existsb (holds k) (txns s).

(** The WHERE clause evaluated again on the committed version of row [k]. *)
Definition recheck (s : db) (p : params) (k : Z) : bool :=
  match lookup key k (rows s) with
  | Some r => want p r
  | None => false
  end.

Fixpoint set_nth {A : Type} (i : nat) (x : A) (l : list A) : list A :=
  match l, i with
  | [], _ => []
  | _ :: l', O => x :: l'
  | a :: l', S i' => a :: set_nth i' x l'
  end.

Inductive action := Begin | Scan | Commit | Abort.

Definition move (s : db) (i : nat) (p : params) (t : list row)
    (st : phase) : db :=
  {| rows := t; txns := set_nth i {| args := p; stage := st |} (txns s) |}.

(** One step of transaction [i]; [None] when the step is not enabled. *)
Definition step (s : db) (i : nat) (a : action) : option db :=
  match nth_error (txns s) i with
  | None => None
  | Some x =>
      let p := args x in
      match a, stage x with
      | Begin, Idle =>
          Some (move s i p (rows s)
                  (Scanning (order_by (asc age) (filter (want p) (rows s)))))
      | Scan, Scanning [] => Some (move s i p (rows s) (Returned None))
      | Scan, Scanning (r :: todo) =>
          if negb (row_locked s (key r)) && recheck s p (key r)
          then Some (move s i p (rows s) (Locked (key r)))
          else Some (move s i p (rows s) (Scanning todo))
      | Commit, Locked k =>
          let hit := fun r => key r =? k in
          let t' := update_where hit (set_claimed p) (rows s) in
          Some (move s i p t'
                  (Returned (hd_error (map returning (filter hit t')))))
      | Abort, Scanning _ => Some (move s i p (rows s) Aborted)
      | Abort, Locked _ => Some (move s i p (rows s) Aborted)
      | _, _ => None
      end
  end.

(** A schedule names, step by step, the transaction that moves. *)
Fixpoint run (sched : list (nat * action)) (s : db) : option db :=
  match sched with
  | [] => Some s
  | (i, a) :: sched' =>
      match step s i a with
      | Some s' => run sched' s'
      | None => None
      end
  end.

(** All callers about to call, nothing locked. *)
Definition start (t : list row) (callers : list params) : db :=
  {| rows := t;
     txns := map (fun p => {| args := p; stage := Idle |}) callers |}.

Definition phase_at (l : list txn) (i : nat) (st : phase) : Prop :=
  exists x, nth_error l i = Some x /\ stage x = st.

(** What caller [i] received. *)
Definition received (s : db) (i : nat) (o : res) : Prop :=
  phase_at (txns s) i (Returned (Some o)).

Lemma nth_error_set_nth_eq {A} i (x : A) l :
  (i < List.length l)%nat -> nth_error (set_nth i x l) i = Some x.
Proof.
  revert i; induction l as [|a l IH]; intros [|i]; simpl; intros H;
    try lia; auto. apply IH. lia.
Qed.

Lemma nth_error_set_nth_ne {A} i j (x : A) l :
  i <> j -> nth_error (set_nth i x l) j = nth_error l j.
Proof.
  revert i j; induction l as [|a l IH]; intros [|i] [|j] H; simpl; auto;
    try congruence.
Qed.

Lemma phase_at_set_nth l i x0 x j st :
  nth_error l i = Some x0 ->
  phase_at (set_nth i x l) j st <->
  (j = i /\ stage x = st) \/ (j <> i /\ phase_at l j st).
Proof.
  intros H0.
  assert (Hlt : (i < List.length l)%nat)
    by (apply nth_error_Some; congruence).
  unfold phase_at. destruct (Nat.eq_dec j i) as [->|Hne].
  - rewrite nth_error_set_nth_eq by assumption. split.
    + intros (y & Hy & Hst). inversion Hy; subst. now left.
    + intros [[_ Hst]|[Hc _]]; [eauto|congruence].
  - rewrite nth_error_set_nth_ne by congruence. split.
    + intros (y & Hy & Hst). right. eauto.
    + intros [[Hc _]|[_ H]]; [congruence|exact H].
Qed.

Lemma row_locked_spec s k :
  row_locked s k = true <-> exists j, phase_at (txns s) j (Locked k).
Proof.
  unfold row_locked, phase_at, holds. rewrite existsb_exists. split.
  - intros (x & Hin & Hx). apply In_nth_error in Hin. destruct Hin as [j Hj].
    exists j, x. split; [assumption|].
    destruct (stage x); try discriminate.
    apply Z.eqb_eq in Hx. now subst.
  - intros (j & x & Hj & Hst). exists x. split.
    + eapply nth_error_In; eauto.
    + rewrite Hst. apply Z.eqb_refl.
Qed.

(** What every reachable state satisfies: a locked row is still unclaimed
    in the table and has one holder; a returned row is claimed in the table
    and was returned once. *)
Record inv (s : db) : Prop := {
  inv_pk : NoDup (map key (rows s));
  inv_locked : forall i k, phase_at (txns s) i (Locked k) ->
    exists r, lookup key k (rows s) = Some r /\ taken r = false;
  inv_excl : forall i j k,
    phase_at (txns s) i (Locked k) -> phase_at (txns s) j (Locked k) -> i = j;
  inv_ret : forall i o, received s i o ->
    exists r, lookup key (res_key o) (rows s) = Some r /\ taken r = true;
  inv_once : forall i j o o',
    received s i o -> received s j o' -> res_key o = res_key o' -> i = j
}.

Definition critical (st : phase) : Prop :=
  match st with
  | Locked _ | Returned (Some _) => True
  | _ => False
  end.

Lemma inv_start t callers : NoDup (map key t) -> inv (start t callers).
Proof.
  intros Hnd.
  assert (Hidle : forall j st, phase_at (txns (start t callers)) j st ->
                               st = Idle).
  { intros j st (x & Hx & Hst). simpl in Hx.
    apply nth_error_In, in_map_iff in Hx. destruct Hx as (p & <- & _).
    now subst. }
  split; [exact Hnd| | | |]; unfold received; intros;
    match goal with
    | H : phase_at _ _ _ |- _ => apply Hidle in H; discriminate
    end.
Qed.

(** A step that leaves the rows alone and moves its transaction to a phase
    that neither holds a lock nor returns a row keeps the invariant. *)
Lemma inv_quiet s i x p st :
  inv s -> nth_error (txns s) i = Some x -> ~ critical st ->
  inv (move s i p (rows s) st).
Proof.
  intros [Hpk Hl He Hr Ho] Hx Hst.
  assert (Hold : forall j st', critical st' ->
            phase_at (txns (move s i p (rows s) st)) j st' ->
            phase_at (txns s) j st').
  { intros j st' Hc H. simpl in H.
    apply (phase_at_set_nth _ _ _ _ _ _ Hx) in H.
    destruct H as [[_ H]|[_ H]]; [simpl in H; subst; tauto|exact H]. }
  unfold received in *.
  split; simpl; [exact Hpk| | | |].
  - intros j k H. apply (Hl j), Hold; simpl; auto.
  - intros j j' k H H'. apply (He j j' k); apply Hold; simpl; auto.
  - intros j o H. apply (Hr j), Hold; simpl; auto.
  - intros j j' o o' H H'. apply (Ho j j' o o'); apply Hold; simpl; auto.
Qed.

Lemma inv_lock s i x p k :
  inv s -> nth_error (txns s) i = Some x ->
  row_locked s k = false -> recheck s p k = true ->
  inv (move s i p (rows s) (Locked k)).
Proof.
  intros [Hpk Hl He Hr Ho] Hx Hfree Hre.
  assert (Hset := fun j st => phase_at_set_nth _ _ _
            {| args := p; stage := Locked k |} j st Hx).
  unfold received in *. split; simpl; [exact Hpk| | | |].
  - intros j k' H. apply Hset in H. destruct H as [[_ H]|[_ H]]; [|eauto].
    simpl in H. inversion H; subst k'.
    unfold recheck in Hre. destruct (lookup key k (rows s)) as [r|];
      [|discriminate]. exists r. split; [reflexivity|eauto].
  - assert (Hno : forall j, ~ phase_at (txns s) j (Locked k)).
    { intros j Hj. assert (row_locked s k = true)
        by (apply row_locked_spec; eauto). congruence. }
    intros j j' k' H H'. apply Hset in H. apply Hset in H'.
    destruct H as [[-> H]|[Hj H]], H' as [[-> H']|[Hj' H']]; simpl in *.
    + reflexivity.
    + inversion H; subst. now apply Hno in H'.
    + inversion H'; subst. now apply Hno in H.
    + eauto.
  - intros j o H. apply Hset in H.
    destruct H as [[_ H]|[_ H]]; [discriminate|eauto].
  - intros j j' o o' H H'. apply Hset in H. apply Hset in H'.
    destruct H as [[_ H]|[_ H]]; [discriminate|].
    destruct H' as [[_ H']|[_ H']]; [discriminate|eauto].
Qed.

Lemma inv_commit s i x k :
  inv s -> nth_error (txns s) i = Some x -> stage x = Locked k ->
  let hit := fun r => key r =? k in
  let t' := update_where hit (set_claimed (args x)) (rows s) in
  inv (move s i (args x) t'
         (Returned (hd_error (map returning (filter hit t'))))).
Proof.
  intros [Hpk Hl He Hr Ho] Hx Hst hit t'.
  assert (Hi : phase_at (txns s) i (Locked k)) by (red; eauto).
  destruct (Hl i k Hi) as (r & Hlk & Hfree).
  assert (Hkeys : map key t' = map key (rows s))
    by (apply update_where_keys; auto).
  assert (Hsame : lookup key k t' = Some (set_claimed (args x) r)).
  { unfold t', hit. rewrite lookup_update_same by auto. now rewrite Hlk. }
  assert (Hout : hd_error (map returning (filter hit t')) =
                 Some (returning (set_claimed (args x) r))).
  { unfold lookup in Hsame. fold hit in Hsame.
    rewrite <- hd_error_filter in Hsame.
    destruct (filter hit t'); inversion Hsame; reflexivity. }
  rewrite Hout.
  assert (Hset := fun j st => phase_at_set_nth _ _ _
            {| args := args x;
               stage := Returned (Some (returning (set_claimed (args x) r))) |}
            j st Hx).
  assert (Hother : forall k', k' <> k ->
            lookup key k' t' = lookup key k' (rows s)).
  { intros k' Hne. unfold t', hit. apply lookup_update_other; auto. }
  assert (Holdret : forall j o, phase_at (txns s) j (Returned (Some o)) ->
                                res_key o <> k).
  { intros j o Hj Hk. destruct (Hr j o Hj) as (r' & Hr' & Ht').
    rewrite Hk in Hr'. congruence. }
  unfold received in *. split; simpl.
  - now rewrite Hkeys.
  - intros j k' H. apply Hset in H.
    destruct H as [[_ H]|[Hj H]]; [discriminate|].
    assert (k' <> k) by (intros ->; apply Hj; eauto).
    rewrite Hother by assumption. eauto.
  - intros j j' k' H H'. apply Hset in H. apply Hset in H'.
    destruct H as [[_ H]|[_ H]]; [discriminate|].
    destruct H' as [[_ H']|[_ H']]; [discriminate|eauto].
  - intros j o H. apply Hset in H. destruct H as [[_ H]|[_ H]].
    + simpl in H. inversion H; subst o.
      rewrite res_key_returning, key_set_claimed.
      apply lookup_In in Hlk. destruct Hlk as [_ ->].
      rewrite Hsame. eauto.
    + rewrite Hother by eauto. eauto.
  - intros j j' o o' H H' Heq. apply Hset in H. apply Hset in H'.
    assert (Hk : res_key (returning (set_claimed (args x) r)) = k).
    { rewrite res_key_returning, key_set_claimed.
      apply lookup_In in Hlk. tauto. }
    destruct H as [[-> H]|[Hj H]], H' as [[-> H']|[Hj' H']]; simpl in *.
    + reflexivity.
    + inversion H; subst o. exfalso. apply (Holdret j' o' H'). congruence.
    + inversion H'; subst o'. exfalso. apply (Holdret j o H). congruence.
    + eauto.
Qed.

Lemma step_inv s i a s' : inv s -> step s i a = Some s' -> inv s'.
Proof.
  intros Hinv. unfold step.
  destruct (nth_error (txns s) i) as [x|] eqn:Hx; [|discriminate].
  destruct a, (stage x) as [|todo|k|o|] eqn:Hst; try discriminate.
  - intros H; inversion H; subst. eapply inv_quiet; eauto.
  - destruct todo as [|r todo].
    + intros H; inversion H; subst. eapply inv_quiet; eauto.
    + destruct (negb (row_locked s (key r)) && recheck s (args x) (key r))
        eqn:C; intros H; inversion H; subst.
      * apply andb_true_iff in C. destruct C as [C1 C2].
        apply negb_true_iff in C1. eapply inv_lock; eauto.
      * eapply inv_quiet; eauto.
  - intros H; inversion H; subst. now apply inv_commit.
  - intros H; inversion H; subst. eapply inv_quiet; eauto.
  - intros H; inversion H; subst. eapply inv_quiet; eauto.
Qed.

Lemma run_inv sched : forall s s', inv s -> run sched s = Some s' -> inv s'.
Proof.
  induction sched as [|[i a] sched IH]; simpl; intros s s' Hinv H.
  - inversion H; now subst.
  - destruct (step s i a) as [s1|] eqn:E; [|discriminate].
    eapply IH; [|exact H]. eapply step_inv; eauto.
Qed.

(** Under every schedule, two callers that both received a row received
    rows with different keys. *)
Lemma no_double_claim t callers sched s i j o o' :
  NoDup (map key t) ->
  run sched (start t callers) = Some s ->
  i <> j -> received s i o -> received s j o' -> res_key o <> res_key o'.
Proof.
  intros Hnd Hrun Hij Hi Hj Heq.
  assert (Hinv : inv s) by (eapply run_inv; [apply inv_start|]; eauto).
  apply Hij. eapply (inv_once s Hinv); eauto.
Qed.

Lemma move_nth s i x p t st :
  nth_error (txns s) i = Some x ->
  nth_error (txns (move s i p t st)) i = Some {| args := p; stage := st |}.
Proof.
  intros Hx. simpl. apply nth_error_set_nth_eq.
  apply nth_error_Some. congruence.
Qed.

Lemma move_unlocked s i x p t st :
  nth_error (txns s) i = Some x ->
  (forall k, row_locked s k = false) ->
  (forall k, st <> Locked k) ->
  forall k, row_locked (move s i p t st) k = false.
Proof.
  intros Hx Hfree Hst k.
  destruct (row_locked (move s i p t st) k) eqn:E; [|reflexivity].
  apply row_locked_spec in E. destruct E as [j Hj]. simpl in Hj.
  apply (phase_at_set_nth _ _ _ _ _ _ Hx) in Hj.
  destruct Hj as [[_ Hj]|[_ Hj]].
  - simpl in Hj. now apply Hst in Hj.
  - assert (row_locked s k = true) by (apply row_locked_spec; eauto).
    rewrite Hfree in *. discriminate.
Qed.

(** A transaction that runs from start to end while no other transaction
    holds a lock does what the statement run alone does. *)
Lemma serial_is_claim s i x :
  NoDup (map key (rows s)) ->
  nth_error (txns s) i = Some x -> stage x = Idle ->
  (forall k, row_locked s k = false) ->
  exists sched s',
    Forall (fun m => fst m = i) sched /\
    run sched s = Some s' /\
    rows s' = fst (claim (args x) (rows s)) /\
    phase_at (txns s') i (Returned (snd (claim (args x) (rows s)))).
Proof.
  intros Hnd Hx Hst Hfree. set (p := args x).
  set (todo := order_by (asc age) (filter (want p) (rows s))).
  set (s1 := move s i p (rows s) (Scanning todo)).
  assert (H1 : step s i Begin = Some s1)
    by (unfold step; rewrite Hx, Hst; reflexivity).
  assert (Hx1 := move_nth s i x p (rows s) (Scanning todo) Hx).
  fold s1 in Hx1.
  assert (Hfree1 : forall k, row_locked s1 k = false)
    by (apply (move_unlocked s i x); auto; discriminate).
  unfold claim. fold p todo.
  destruct todo as [|r rest] eqn:Htodo.
  - exists [(i, Begin); (i, Scan)], (move s1 i p (rows s1) (Returned None)).
    repeat split; auto.
    + simpl. rewrite H1. unfold step. rewrite Hx1. reflexivity.
    + eexists. split; [eapply move_nth; eauto|reflexivity].
  - assert (Hr : In r (rows s) /\ want p r = true).
    { apply filter_In, (order_by_In (asc age)). fold todo.
      rewrite Htodo. now left. }
    destruct Hr as [Hin Hw].
    assert (Hlk : lookup key (key r) (rows s) = Some r)
      by (apply In_lookup; auto).
    set (s2 := move s1 i p (rows s1) (Locked (key r))).
    assert (H2 : step s1 i Scan = Some s2).
    { unfold step. rewrite Hx1. cbn [args stage].
      rewrite Hfree1. unfold recheck. cbn [rows s1 move].
      rewrite Hlk, Hw. reflexivity. }
    assert (Hx2 := move_nth s1 i _ p (rows s1) (Locked (key r)) Hx1).
    fold s2 in Hx2.
    set (hit := fun r0 => key r0 =? key r).
    set (t' := update_where hit (set_claimed p) (rows s)).
    set (out := hd_error (map returning (filter hit t'))).
    exists [(i, Begin); (i, Scan); (i, Commit)],
      (move s2 i p t' (Returned out)).
    split; [repeat constructor|]. split; [|split].
    + simpl. rewrite H1, H2. unfold step. rewrite Hx2. reflexivity.
    + reflexivity.
    + eexists. split; [eapply move_nth; exact Hx2|reflexivity].
Qed.

(** The two outcomes of the statement run alone. *)
Lemma claim_cases p t :
  NoDup (map key t) ->
  ((forall r, In r t -> want p r = false) /\ claim p t = (t, None)) \/
  (exists r l1 l2,
     t = l1 ++ r :: l2 /\ want p r = true /\
     (forall k, In k t -> want p k = true -> age r <= age k) /\
     claim p t =
       (l1 ++ set_claimed p r :: l2, Some (returning (set_claimed p r)))).
Proof.
  intros Hnd. unfold claim.
  destruct (limit1 (order_by (asc age) (filter (want p) t))) as [m|] eqn:E;
    simpl.
  - right. assert (Hin := limit1_In _ _ _ E). apply filter_In in Hin.
    destruct Hin as [Hin Hw].
    destruct (update_where_split key (set_claimed p) (key m) t m Hnd Hin
                eq_refl) as (l1 & l2 & Ht & Hup).
    exists m, l1, l2. repeat split; auto.
    + intros k Hk Hwk. apply (limit1_min _ _ _ E). now apply filter_In.
    + assert (Hlk : lookup key (key m)
                      (update_where (fun r => key r =? key m)
                         (set_claimed p) t) = Some (set_claimed p m)).
      { rewrite lookup_update_same by auto.
        now rewrite (In_lookup key (key m) t m Hnd Hin eq_refl). }
      unfold lookup in Hlk. rewrite <- hd_error_filter in Hlk.
      f_equal; [exact Hup|].
      destruct (filter (fun r => key r =? key m) _); inversion Hlk;
        reflexivity.
  - left. split; [|reflexivity]. apply limit1_None in E.
    intros r Hr. destruct (want p r) eqn:Hw; [|reflexivity].
    assert (Hf : In r (filter (want p) t)) by now apply filter_In.
    rewrite E in Hf. destruct Hf.
Qed.

(** *** Who holds what, and when a caller comes back empty-handed *)

Lemma nth_error_set_nth_inv {A} i j (y z : A) l :
  (i < List.length l)%nat ->
  nth_error (set_nth i y l) j = Some z ->
  (j = i /\ z = y) \/ (j <> i /\ nth_error l j = Some z).
Proof.
  intros Hlt H. destruct (Nat.eq_dec j i) as [->|Hne].
  - rewrite nth_error_set_nth_eq in H by assumption.
    inversion H. now left.
  - rewrite nth_error_set_nth_ne in H by congruence. now right.
Qed.

Lemma move_txn_inv s i x p t st j z :
  nth_error (txns s) i = Some x ->
  nth_error (txns (move s i p t st)) j = Some z ->
  (j = i /\ z = {| args := p; stage := st |}) \/
  (j <> i /\ nth_error (txns s) j = Some z).
Proof.
  intros Hx H. simpl in H. apply nth_error_set_nth_inv in H; [exact H|].
  apply nth_error_Some. congruence.
Qed.

Lemma map_set_nth {A B} (f : A -> B) i (x y : A) l :
  nth_error l i = Some x -> f y = f x -> map f (set_nth i y l) = map f l.
Proof.
  revert i; induction l as [|a l IH]; intros [|i] Hx Hf; simpl in *;
    try discriminate.
  - inversion Hx; subst. now rewrite Hf.
  - f_equal. now apply IH.
Qed.

(** A transaction keeps the arguments it was called with. *)
Lemma step_args s i a s' :
  step s i a = Some s' -> map args (txns s') = map args (txns s).
Proof.
  unfold step. destruct (nth_error (txns s) i) as [x|] eqn:Hx; [|discriminate].
  assert (Hm : forall t st,
            map args (txns (move s i (args x) t st)) = map args (txns s))
    by (intros; simpl; now apply (map_set_nth args i x)).
  destruct a, (stage x) as [|[|r todo]|k|o|]; try discriminate;
    try (intros H; inversion H; subst; apply Hm).
  destruct (negb _ && _); intros H; inversion H; subst; apply Hm.
Qed.

Lemma run_args sched : forall s s',
  run sched s = Some s' -> map args (txns s') = map args (txns s).
Proof.
  induction sched as [|[i a] sched IH]; simpl; intros s s' H.
  - now inversion H.
  - destruct (step s i a) as [s1|] eqn:E; [|discriminate].
    rewrite (IH _ _ H). eapply step_args; eauto.
Qed.

Lemma start_args t callers : map args (txns (start t callers)) = callers.
Proof. simpl. rewrite map_map. simpl. apply map_id. Qed.

(** A lock is held after a move if the move took it or if another
    transaction held it before. *)
Lemma row_locked_move s i x p t st k :
  nth_error (txns s) i = Some x ->
  row_locked (move s i p t st) k = true <->
  st = Locked k \/ exists j, j <> i /\ phase_at (txns s) j (Locked k).
Proof.
  intros Hx. rewrite row_locked_spec. simpl. split.
  - intros (j & Hj). apply (phase_at_set_nth _ _ _ _ _ _ Hx) in Hj.
    destruct Hj as [[_ Hj]|[Hne Hj]]; [now left|right; eauto].
  - intros [->|(j & Hne & Hj)].
    + exists i. apply (phase_at_set_nth _ _ _ _ _ _ Hx). now left.
    + exists j. apply (phase_at_set_nth _ _ _ _ _ _ Hx). now right.
Qed.

(** A transaction that held no lock cannot release one by moving. *)
Lemma row_locked_kept s i x p t st k :
  nth_error (txns s) i = Some x -> (forall k', stage x <> Locked k') ->
  row_locked s k = true -> row_locked (move s i p t st) k = true.
Proof.
  intros Hx Hfree Hk. apply (row_locked_move s i x); [assumption|].
  apply row_locked_spec in Hk. destruct Hk as (j & y & Hj & Hy).
  right. exists j. split; [|red; eauto].
  intros ->. rewrite Hx in Hj. inversion Hj; subst. now apply Hfree in Hy.
Qed.

(** The rows of the table that are not yet claimed are rows of the table
    [t0] the callers started from; a locked row is such a row, wanted by
    its holder; a returned row is such a row as its receiver rewrote it. *)
Record own (t0 : list row) (s : db) : Prop := {
  own_fresh : forall r, In r (rows s) -> taken r = false -> In r t0;
  own_locked : forall i x k,
    nth_error (txns s) i = Some x -> stage x = Locked k ->
    exists r0, In r0 t0 /\ key r0 = k /\ want (args x) r0 = true /\
      lookup key k (rows s) = Some r0;
  own_ret : forall i x o,
    nth_error (txns s) i = Some x -> stage x = Returned (Some o) ->
    exists r0, In r0 t0 /\ want (args x) r0 = true /\
      o = returning (set_claimed (args x) r0) /\
      lookup key (key r0) (rows s) = Some (set_claimed (args x) r0)
}.

Lemma own_start t callers : own t (start t callers).
Proof.
  assert (Hidle : forall i x, nth_error (txns (start t callers)) i = Some x ->
                              stage x = Idle).
  { intros i x Hx. simpl in Hx. apply nth_error_In, in_map_iff in Hx.
    destruct Hx as (p & <- & _). reflexivity. }
  split.
  - intros r Hr _. exact Hr.
  - intros i x k Hx Hst. rewrite (Hidle i x Hx) in Hst. discriminate.
  - intros i x o Hx Hst. rewrite (Hidle i x Hx) in Hst. discriminate.
Qed.

Lemma own_quiet t0 s i x st :
  own t0 s -> nth_error (txns s) i = Some x -> ~ critical st ->
  own t0 (move s i (args x) (rows s) st).
Proof.
  intros [Hf Hl Hr] Hx Hst. split; simpl rows.
  - exact Hf.
  - intros j z k Hz Hk. apply (move_txn_inv s i x) in Hz; [|assumption].
    destruct Hz as [[_ ->]|[_ Hz]]; [simpl in Hk; subst; simpl in Hst; tauto|].
    eauto.
  - intros j z o Hz Ho. apply (move_txn_inv s i x) in Hz; [|assumption].
    destruct Hz as [[_ ->]|[_ Hz]]; [simpl in Ho; subst; simpl in Hst; tauto|].
    eauto.
Qed.

Lemma own_lock t0 s i x k :
  own t0 s -> nth_error (txns s) i = Some x ->
  recheck s (args x) k = true ->
  own t0 (move s i (args x) (rows s) (Locked k)).
Proof.
  intros [Hf Hl Hr] Hx Hre. split; simpl rows.
  - exact Hf.
  - intros j z k' Hz Hk. apply (move_txn_inv s i x) in Hz; [|assumption].
    destruct Hz as [[_ ->]|[_ Hz]]; [|eauto].
    simpl in Hk. inversion Hk; subst k'. simpl args.
    unfold recheck in Hre.
    destruct (lookup key k (rows s)) as [r|] eqn:E; [|discriminate].
    destruct (lookup_In key k _ r E) as [Hin Hkey].
    exists r. repeat split; auto.
    apply Hf; [assumption|]. eapply want_not_taken; eauto.
  - intros j z o Hz Ho. apply (move_txn_inv s i x) in Hz; [|assumption].
    destruct Hz as [[_ ->]|[_ Hz]]; [discriminate|eauto].
Qed.

Lemma own_commit t0 s i x k :
  inv s -> own t0 s -> nth_error (txns s) i = Some x -> stage x = Locked k ->
  let hit := fun r => key r =? k in
  let t' := update_where hit (set_claimed (args x)) (rows s) in
  own t0 (move s i (args x) t'
            (Returned (hd_error (map returning (filter hit t'))))).
Proof.
  intros Hinv [Hf Hl Hr] Hx Hst hit t'.
  destruct (Hl i x k Hx Hst) as (r0 & Hin0 & Hk0 & Hw0 & Hlk0).
  assert (Hsame : lookup key k t' = Some (set_claimed (args x) r0)).
  { unfold t', hit. rewrite lookup_update_same by auto. now rewrite Hlk0. }
  assert (Hout : hd_error (map returning (filter hit t')) =
                 Some (returning (set_claimed (args x) r0))).
  { unfold lookup in Hsame. fold hit in Hsame.
    rewrite <- hd_error_filter in Hsame.
    destruct (filter hit t'); inversion Hsame; reflexivity. }
  rewrite Hout.
  assert (Hother : forall k', k' <> k ->
            lookup key k' t' = lookup key k' (rows s)).
  { intros k' Hne. unfold t', hit. apply lookup_update_other; auto. }
  split; simpl rows.
  - intros r' Hr' Ht'. unfold t' in Hr'. apply update_where_inv in Hr'.
    destruct Hr' as (r & Hin & ->). destruct (hit r).
    + rewrite taken_set_claimed in Ht'. discriminate.
    + auto.
  - intros j z k' Hz Hk. apply (move_txn_inv s i x) in Hz; [|assumption].
    destruct Hz as [[_ ->]|[Hne Hz]]; [discriminate|].
    destruct (Hl j z k' Hz Hk) as (r1 & H1 & H2 & H3 & H4).
    exists r1. repeat split; auto. rewrite Hother; [assumption|].
    intros ->. apply Hne.
    apply (inv_excl s Hinv j i k); red; eauto.
  - intros j z o Hz Ho. apply (move_txn_inv s i x) in Hz; [|assumption].
    destruct Hz as [[_ ->]|[Hne Hz]].
    + simpl in Ho. inversion Ho; subst o. simpl args.
      exists r0. repeat split; auto. now rewrite Hk0.
    + destruct (Hr j z o Hz Ho) as (r1 & H1 & H2 & H3 & H4).
      exists r1. repeat split; auto. rewrite Hother; [assumption|].
      intros E. rewrite E, Hlk0 in H4. inversion H4 as [E'].
      apply want_not_taken in Hw0. rewrite E', taken_set_claimed in Hw0.
      discriminate.
Qed.

Lemma step_own t0 s i a s' :
  inv s -> own t0 s -> step s i a = Some s' -> own t0 s'.
Proof.
  intros Hinv Hown. unfold step.
  destruct (nth_error (txns s) i) as [x|] eqn:Hx; [|discriminate].
  destruct a, (stage x) as [|todo|k|o|] eqn:Hst; try discriminate.
  - intros H; inversion H; subst. eapply own_quiet; eauto.
  - destruct todo as [|r todo].
    + intros H; inversion H; subst. eapply own_quiet; eauto.
    + destruct (negb (row_locked s (key r)) && recheck s (args x) (key r))
        eqn:C; intros H; inversion H; subst.
      * apply andb_true_iff in C. destruct C as [_ C2].
        eapply own_lock; eauto.
      * eapply own_quiet; eauto.
  - intros H; inversion H; subst. now apply own_commit.
  - intros H; inversion H; subst. eapply own_quiet; eauto.
  - intros H; inversion H; subst. eapply own_quiet; eauto.
Qed.

Lemma run_own t0 sched : forall s s',
  inv s -> own t0 s -> run sched s = Some s' -> own t0 s'.
Proof.
  induction sched as [|[i a] sched IH]; simpl; intros s s' Hinv Hown H.
  - inversion H; now subst.
  - destruct (step s i a) as [s1|] eqn:E; [|discriminate].
    eapply IH; [| |exact H]; [eapply step_inv|eapply step_own]; eauto.
Qed.

(** Under every schedule, what a caller received is a row of the table
    the callers started from, wanted by that caller, as that caller's
    arguments rewrote it; and the table holds it in that form. *)
Lemma received_is_own t callers sched s i o :
  NoDup (map key t) ->
  run sched (start t callers) = Some s ->
  received s i o ->
  exists p r0,
    nth_error callers i = Some p /\ In r0 t /\ want p r0 = true /\
    o = returning (set_claimed p r0) /\
    lookup key (key r0) (rows s) = Some (set_claimed p r0).
Proof.
  intros Hnd Hrun (x & Hx & Hst).
  assert (Hown : own t s)
    by (eapply run_own; [apply inv_start|apply own_start|]; eauto).
  destruct (own_ret t s Hown i x o Hx Hst) as (r0 & H1 & H2 & H3 & H4).
  exists (args x), r0. repeat split; auto.
  rewrite <- (start_args t callers), <- (run_args _ _ _ Hrun).
  rewrite nth_error_map, Hx. reflexivity.
Qed.

(** While a transaction scans, every row it wants is still ahead of it or
    locked by a transaction; once it has come back with nothing, every row
    it wants is locked by a transaction. *)
Record prog (s : db) : Prop := {
  prog_scan : forall i x todo,
    nth_error (txns s) i = Some x -> stage x = Scanning todo ->
    forall r, In r (rows s) -> want (args x) r = true ->
      In (key r) (map key todo) \/ row_locked s (key r) = true;
  prog_none : forall i x,
    nth_error (txns s) i = Some x -> stage x = Returned None ->
    forall r, In r (rows s) -> want (args x) r = true ->
      row_locked s (key r) = true
}.

Lemma prog_start t callers : prog (start t callers).
Proof.
  assert (Hidle : forall i x, nth_error (txns (start t callers)) i = Some x ->
                              stage x = Idle).
  { intros i x Hx. simpl in Hx. apply nth_error_In, in_map_iff in Hx.
    destruct Hx as (p & <- & _). reflexivity. }
  split; intros i x; intros; rewrite (Hidle i x) in *; auto; discriminate.
Qed.

(** A step that leaves the rows alone, by a transaction that held no lock,
    keeps [prog] for the other transactions. *)
Lemma prog_others s i x st j z :
  prog s -> nth_error (txns s) i = Some x ->
  (forall k, stage x <> Locked k) ->
  j <> i -> nth_error (txns s) j = Some z ->
  (forall todo, stage z = Scanning todo ->
     forall r, In r (rows s) -> want (args z) r = true ->
       In (key r) (map key todo) \/
       row_locked (move s i (args x) (rows s) st) (key r) = true) /\
  (stage z = Returned None ->
     forall r, In r (rows s) -> want (args z) r = true ->
       row_locked (move s i (args x) (rows s) st) (key r) = true).
Proof.
  intros [Hs Hn] Hx Hfree Hne Hz. split.
  - intros todo Hst r Hr Hw.
    destruct (Hs j z todo Hz Hst r Hr Hw) as [H|H]; [now left|right].
    eapply row_locked_kept; eauto.
  - intros Hst r Hr Hw. eapply row_locked_kept; eauto.
Qed.

Lemma prog_unlocked_move s i x st :
  prog s -> nth_error (txns s) i = Some x ->
  (forall k, stage x <> Locked k) ->
  (forall todo, st = Scanning todo ->
     forall r, In r (rows s) -> want (args x) r = true ->
       In (key r) (map key todo) \/
       row_locked (move s i (args x) (rows s) st) (key r) = true) ->
  (st = Returned None ->
     forall r, In r (rows s) -> want (args x) r = true ->
       row_locked (move s i (args x) (rows s) st) (key r) = true) ->
  prog (move s i (args x) (rows s) st).
Proof.
  intros Hp Hx Hfree Hscan Hnone. split; simpl rows.
  - intros j z todo Hz Hst r Hr Hw.
    apply (move_txn_inv s i x) in Hz; [|assumption].
    destruct Hz as [[_ ->]|[Hne Hz]].
    + simpl in *. now apply Hscan.
    + now apply (prog_others s i x st j z Hp Hx Hfree Hne Hz).
  - intros j z Hz Hst r Hr Hw.
    apply (move_txn_inv s i x) in Hz; [|assumption].
    destruct Hz as [[_ ->]|[Hne Hz]].
    + simpl in *. now apply Hnone.
    + now apply (prog_others s i x st j z Hp Hx Hfree Hne Hz).
Qed.

Lemma prog_commit s i x k :
  inv s -> prog s -> nth_error (txns s) i = Some x -> stage x = Locked k ->
  let hit := fun r => key r =? k in
  let t' := update_where hit (set_claimed (args x)) (rows s) in
  prog (move s i (args x) t'
          (Returned (hd_error (map returning (filter hit t'))))).
Proof.
  intros Hinv [Hs Hn] Hx Hst hit t'.
  assert (Hi : phase_at (txns s) i (Locked k)) by (red; eauto).
  destruct (inv_locked s Hinv i k Hi) as (r0 & Hlk0 & _).
  assert (Hout : hd_error (map returning (filter hit t')) =
                 Some (returning (set_claimed (args x) r0))).
  { assert (Hsame : lookup key k t' = Some (set_claimed (args x) r0)).
    { unfold t', hit. rewrite lookup_update_same by auto. now rewrite Hlk0. }
    unfold lookup in Hsame. fold hit in Hsame.
    rewrite <- hd_error_filter in Hsame.
    destruct (filter hit t'); inversion Hsame; reflexivity. }
  rewrite Hout.
  (* a row still wanted after the commit was not rewritten by it *)
  assert (Hold : forall q r', In r' t' -> want q r' = true ->
            In r' (rows s) /\ key r' <> k).
  { intros q r' Hr' Hw. unfold t' in Hr'. apply update_where_inv in Hr'.
    destruct Hr' as (r & Hin & ->). unfold hit in *.
    destruct (key r =? k) eqn:E.
    - apply want_not_taken in Hw. rewrite taken_set_claimed in Hw.
      discriminate.
    - apply Z.eqb_neq in E. auto. }
  assert (Hkeep : forall k', k' <> k -> row_locked s k' = true ->
            row_locked (move s i (args x) t' (Returned (Some
              (returning (set_claimed (args x) r0))))) k' = true).
  { intros k' Hne Hk'. apply (row_locked_move s i x); [assumption|].
    apply row_locked_spec in Hk'. destruct Hk' as (j & y & Hj & Hy).
    right. exists j. split; [|red; eauto].
    intros ->. rewrite Hx in Hj. inversion Hj; subst. congruence. }
  split; simpl rows.
  - intros j z todo Hz Hzst r Hr Hw.
    apply (move_txn_inv s i x) in Hz; [|assumption].
    destruct Hz as [[_ ->]|[Hne Hz]]; [discriminate|].
    destruct (Hold _ r Hr Hw) as [Hin Hk].
    destruct (Hs j z todo Hz Hzst r Hin Hw) as [H|H]; [now left|right; auto].
  - intros j z Hz Hzst r Hr Hw.
    apply (move_txn_inv s i x) in Hz; [|assumption].
    destruct Hz as [[_ ->]|[Hne Hz]]; [discriminate|].
    destruct (Hold _ r Hr Hw) as [Hin Hk].
    apply Hkeep; [assumption|]. eauto.
Qed.

Lemma step_prog s i a s' :
  inv s -> prog s -> a <> Abort -> step s i a = Some s' -> prog s'.
Proof.
  intros Hinv Hp Ha. unfold step.
  destruct (nth_error (txns s) i) as [x|] eqn:Hx; [|discriminate].
  destruct a, (stage x) as [|todo|k|o|] eqn:Hst; try discriminate;
    try congruence.
  - (* Begin *)
    intros H; inversion H; subst.
    apply prog_unlocked_move; auto; [congruence| |discriminate].
    intros todo E r Hr Hw. inversion E; subst. left.
    apply in_map, (order_by_In (asc age)), filter_In. auto.
  - destruct todo as [|r todo].
    + (* the scan is over *)
      intros H; inversion H; subst.
      apply prog_unlocked_move; auto; [congruence|discriminate|].
      intros _ r Hr Hw.
      destruct (prog_scan s Hp i x [] Hx Hst r Hr Hw) as [[]|Hl].
      eapply row_locked_kept; eauto. congruence.
    + destruct (negb (row_locked s (key r)) && recheck s (args x) (key r))
        eqn:C; intros H; inversion H; subst.
      * (* lock *)
        apply prog_unlocked_move; auto; try congruence; discriminate.
      * (* pass over [r] *)
        apply prog_unlocked_move; auto; [congruence| |discriminate].
        intros todo' E r' Hr' Hw. inversion E; subst todo'.
        destruct (prog_scan s Hp i x _ Hx Hst r' Hr' Hw) as [[Hk|Hk]|Hl].
        -- right. apply andb_false_iff in C. destruct C as [C|C].
           ++ apply negb_false_iff in C. rewrite <- Hk.
              eapply row_locked_kept; eauto. congruence.
           ++ unfold recheck in C.
              rewrite (In_lookup key (key r) (rows s) r'
                         (inv_pk s Hinv) Hr' (eq_sym Hk)) in C.
              congruence.
        -- now left.
        -- right. eapply row_locked_kept; eauto. congruence.
  - intros H; inversion H; subst. now apply prog_commit.
Qed.

Lemma run_prog sched : forall s s',
  inv s -> prog s -> Forall (fun m => snd m <> Abort) sched ->
  run sched s = Some s' -> prog s'.
Proof.
  induction sched as [|[i a] sched IH]; simpl; intros s s' Hinv Hp Hna H.
  - inversion H; now subst.
  - destruct (step s i a) as [s1|] eqn:E; [|discriminate].
    inversion Hna as [|? ? Ha Hna']; subst. simpl in Ha.
    eapply IH; [| | |exact H]; auto;
      [eapply step_inv|eapply step_prog]; eauto.
Qed.

(** When no transaction aborts, a caller that came back with nothing left
    no row it wants other than rows that a transaction holds locked. *)
Lemma empty_handed_only_if_held t callers sched s i x r :
  NoDup (map key t) ->
  Forall (fun m => snd m <> Abort) sched ->
  run sched (start t callers) = Some s ->
  nth_error (txns s) i = Some x -> stage x = Returned None ->
  In r (rows s) -> want (args x) r = true ->
  row_locked s (key r) = true.
Proof.
  intros Hnd Hna Hrun Hx Hst Hr Hw.
  assert (Hp : prog s)
    by (eapply run_prog; [apply inv_start|apply prog_start| |]; eauto).
  eapply (prog_none s Hp); eauto.
Qed.

End Protocol.
End SkipLocked.

(** ** [public.story_jobs] *)

Module StoryJobs.
Import Sql.

(** A row of [story_jobs]: the columns of the creating migration, then
    [claimed_by], [claimed_at] (job locking) and [preshow_id] (iOS support).
    Nullable columns are options. *)
Record story_job := mk_job {
  id : uuid;
  job_id : text;
  status : text;
  story_bible : jsonb;
  user_email : text;
  user_id : option uuid;
  settings : option jsonb;
  current_step : option text;
  progress_percent : option Z;
  result : option jsonb;
  story_id : option uuid;
  error_message : option text;
  created_at : timestamptz;
  started_at : option timestamptz;
  completed_at : option timestamptz;
  generation_time_seconds : option Z;  (* [real]; never read below *)
  retry_count : Z;
  claimed_by : option text;
  claimed_at : option timestamptz;
  preshow_id : option uuid
}.

Definition table := list story_job.

(** The primary key: no two rows share an [id]. *)
Definition pk_unique (t : table) : Prop := NoDup (map id t).

(** [WHERE sj2.status = 'pending' AND sj2.retry_count < 3]. *)
Definition eligible (sj2 : story_job) : bool :=
  (status sj2 =? "pending")%string && (retry_count sj2 <? 3).

(** [SET status = 'running', claimed_by = worker_id, claimed_at = NOW(),
    started_at = NOW()].  The function is not declared [STRICT], so it
    runs on a NULL [worker_id] as well and writes the NULL into
    [claimed_by]. *)
Definition claim_set (worker_id : option text) (now : timestamptz)
    (sj : story_job) : story_job :=
  {| id := id sj;
     job_id := job_id sj;
     status := "running";
     story_bible := story_bible sj;
     user_email := user_email sj;
     user_id := user_id sj;
     settings := settings sj;
     current_step := current_step sj;
     progress_percent := progress_percent sj;
     result := result sj;
     story_id := story_id sj;
     error_message := error_message sj;
     created_at := created_at sj;
     started_at := Some now;
     completed_at := completed_at sj;
     generation_time_seconds := generation_time_seconds sj;
     retry_count := retry_count sj;
     claimed_by := worker_id;
     claimed_at := Some now;
     preshow_id := preshow_id sj |}.

(** The row type of [RETURNS TABLE (...)]. *)
Record claimed_job := mk_claimed {
  cj_id : uuid;
  cj_job_id : text;
  cj_story_bible : jsonb;
  cj_user_email : text;
  cj_settings : option jsonb;
  cj_created_at : timestamptz;
  cj_retry_count : Z
}.

(** [RETURNING sj.id, sj.job_id, sj.story_bible, sj.user_email,
    sj.settings, sj.created_at, sj.retry_count]. *)
Definition returning (sj : story_job) : claimed_job :=
  {| cj_id := id sj;
     cj_job_id := job_id sj;
     cj_story_bible := story_bible sj;
     cj_user_email := user_email sj;
     cj_settings := settings sj;
     cj_created_at := created_at sj;
     cj_retry_count := retry_count sj |}.

(** The scalar subquery
    [SELECT sj2.id ... WHERE ... ORDER BY sj2.created_at ASC LIMIT 1]. *)
Definition candidate (t : table) : option uuid :=
  option_map id (limit1 (order_by (asc created_at) (filter eligible t))).

(** [public.claim_pending_job(worker_id)], run alone against table [t] at
    time [now] (the value of [NOW()]).  The result is the table after the
    call and the returned row set, which holds at most one row.  When the
    subquery finds nothing it yields NULL, [sj.id = NULL] matches no row,
    [claimed_job] stays NULL and the function returns the empty set. *)
Definition claim_pending_job (worker_id : option text) (now : timestamptz)
    (t : table) : table * option claimed_job :=
  match candidate t with
  | None => (t, None)
  | Some cid =>
      let hit := fun sj => id sj =? cid in
      let t' := update_where hit (claim_set worker_id now) t in
      (t', hd_error (map returning (filter hit t')))
  end.

(** *** The constraints of the table *)

(** The keys present in the tables [story_jobs] refers to. *)
Record foreign := mk_foreign {
  users : list uuid;
  stories : list uuid;
  preshows : list uuid
}.

(** [check (status in ('pending', 'running', 'completed', 'failed'))]. *)
Definition status_check (sj : story_job) : bool :=
  existsb (String.eqb (status sj))
    ["pending"; "running"; "completed"; "failed"].

(** [check (progress_percent >= 0 and progress_percent <= 100)]. *)
Definition progress_check (sj : story_job) : bool :=
  match progress_percent sj with
  | None => true
  | Some n => (0 <=? n) && (n <=? 100)
  end.

Definition row_ok (fk : foreign) (sj : story_job) : bool :=
  status_check sj && progress_check sj && int4 (retry_count sj)
  && references (users fk) (user_id sj)
  && references (stories fk) (story_id sj)
  && references (preshows fk) (preshow_id sj).

(** Every row passes its checks; [id] is the primary key and [job_id] is
    [unique]. *)
Definition table_ok (fk : foreign) (t : table) : bool :=
  forallb (row_ok fk) t
  && distinct Z.eqb (map id t)
  && distinct String.eqb (map job_id t).

(** [INSERT], [UPDATE ... WHERE p] and [DELETE ... WHERE p] as the store
    runs them: a statement whose result breaks a constraint is refused
    ([None]) and leaves the table as it was.  The policies on the table
    are [USING (true) WITH CHECK (true)] and add no condition. *)
Definition insert_job (fk : foreign) (sj : story_job) (t : table)
    : option table :=
  let t' := t ++ [sj] in
  if table_ok fk t' then Some t' else None.

Definition update_jobs (fk : foreign) (p : story_job -> bool)
    (f : story_job -> story_job) (t : table) : option table :=
  let t' := update_where p f t in
  if table_ok fk t' then Some t' else None.

Definition delete_jobs (p : story_job -> bool) (t : table) : table :=
  delete_where p t.

(** *** The claim fields and the status *)

(** A running row names its claimant and the time of the claim; a row in
    any other status names no claimant. *)
Definition claim_fields_ok (sj : story_job) : Prop :=
  (status sj = "running" -> claimed_by sj <> None /\ claimed_at sj <> None) /\
  (status sj = "pending" \/ status sj = "completed" \/ status sj = "failed" ->
   claimed_by sj = None).

(** The store keeps [claim_fields_ok] through every statement it accepts. *)
Definition store_enforces_claim_fields : Prop :=
  forall fk p f t t',
    Forall claim_fields_ok t -> update_jobs fk p f t = Some t' ->
    Forall claim_fields_ok t'.

(** [SET status = s]. *)
Definition set_status (s : text) (sj : story_job) : story_job :=
  {| id := id sj;
     job_id := job_id sj;
     status := s;
     story_bible := story_bible sj;
     user_email := user_email sj;
     user_id := user_id sj;
     settings := settings sj;
     current_step := current_step sj;
     progress_percent := progress_percent sj;
     result := result sj;
     story_id := story_id sj;
     error_message := error_message sj;
     created_at := created_at sj;
     started_at := started_at sj;
     completed_at := completed_at sj;
     generation_time_seconds := generation_time_seconds sj;
     retry_count := retry_count sj;
     claimed_by := claimed_by sj;
     claimed_at := claimed_at sj;
     preshow_id := preshow_id sj |}.

(** A row as [INSERT INTO story_jobs (id, job_id, story_bible, user_email,
    created_at)] leaves it: every other column at its default. *)
Definition fresh_job (i : uuid) (name : text) (bible : jsonb) (email : text)
    (now : timestamptz) : story_job :=
  {| id := i;
     job_id := name;
     status := "pending";
     story_bible := bible;
     user_email := email;
     user_id := None;
     settings := None;
     current_step := None;
     progress_percent := Some 0;
     result := None;
     story_id := None;
     error_message := None;
     created_at := now;
     started_at := None;
     completed_at := None;
     generation_time_seconds := None;
     retry_count := 0;
     claimed_by := None;
     claimed_at := None;
     preshow_id := None |}.

(** *** Concurrent callers *)

(** A caller: the [worker_id] it passes (NULL or a text) and the [NOW()]
    of its transaction. *)
Definition caller := (option text * timestamptz)%type.

Definition want (_ : caller) : story_job -> bool := eligible.
Definition set_claimed (c : caller) : story_job -> story_job :=
  claim_set (fst c) (snd c).
Definition taken (sj : story_job) : bool :=
  negb (status sj =? "pending")%string.

Definition db := @SkipLocked.db story_job caller claimed_job.

Definition start (t : table) (callers : list caller) : db :=
  SkipLocked.start t callers.

Definition run (sched : list (nat * SkipLocked.action)) (s : db) : option db :=
  SkipLocked.run id created_at want set_claimed returning sched s.

(** Caller [i] got the row [o] back from [claim_pending_job]. *)
Definition received (s : db) (i : nat) (o : claimed_job) : Prop :=
  SkipLocked.received s i o.

(** *** Facts *)

Lemma claim_pending_job_is_claim w now t :
  claim_pending_job w now t =
  SkipLocked.claim id created_at want set_claimed returning (w, now) t.
Proof. reflexivity. Qed.

Lemma key_set_claimed c sj : id (set_claimed c sj) = id sj.
Proof. reflexivity. Qed.

Lemma taken_set_claimed c sj : taken (set_claimed c sj) = true.
Proof. reflexivity. Qed.

Lemma want_not_taken c sj : want c sj = true -> taken sj = false.
Proof.
  unfold want, eligible, taken. intros H.
  apply andb_true_iff in H. destruct H as [H _]. now rewrite H.
Qed.

Lemma id_returning sj : cj_id (returning sj) = id sj.
Proof. reflexivity. Qed.

Lemma eligible_spec sj :
  eligible sj = true <-> status sj = "pending" /\ retry_count sj < 3.
Proof.
  unfold eligible. now rewrite andb_true_iff, String.eqb_eq, Z.ltb_lt.
Qed.

Lemma candidate_Some t cid :
  candidate t = Some cid ->
  exists sj, In sj t /\ id sj = cid /\ eligible sj = true /\
    forall k, In k t -> eligible k = true -> created_at sj <= created_at k.
Proof.
  unfold candidate. intros H.
  destruct (limit1 _) as [m|] eqn:E; inversion H; subst.
  assert (Hin := limit1_In _ _ _ E). apply filter_In in Hin.
  exists m. repeat split; try tauto.
  intros k Hk Hek. apply (limit1_min _ _ _ E). now apply filter_In.
Qed.

Lemma candidate_None t :
  candidate t = None -> forall sj, In sj t -> eligible sj = false.
Proof.
  unfold candidate. intros H sj Hin.
  destruct (limit1 _) as [m|] eqn:E; [discriminate|].
  apply limit1_None in E. destruct (eligible sj) eqn:Hel; [|reflexivity].
  assert (Hf : In sj (filter eligible t)) by now apply filter_In.
  rewrite E in Hf. destruct Hf.
Qed.

(** The rows [RETURNING] reports do not show the columns the [SET] clause
    writes. *)
Lemma returned_rows_fixed (hit : story_job -> bool) w now t :
  (forall sj, hit (claim_set w now sj) = hit sj) ->
  map returning (filter hit (update_where hit (claim_set w now) t)) =
  map returning (filter hit t).
Proof.
  intros Hhit. unfold update_where.
  induction t as [|a t IH]; simpl; [reflexivity|].
  destruct (hit a) eqn:E.
  - rewrite Hhit, E. simpl. now rewrite IH.
  - rewrite E. exact IH.
Qed.

Lemma table_ok_pk fk t : table_ok fk t = true -> pk_unique t.
Proof.
  unfold table_ok. rewrite !andb_true_iff. intros [[_ H] _].
  now apply distinct_NoDup.
Qed.

Lemma pk_injective t a b :
  pk_unique t -> In a t -> In b t -> id a = id b -> a = b.
Proof.
  intros Hpk Ha Hb Hid.
  assert (H1 := In_lookup id (id b) t a Hpk Ha Hid).
  assert (H2 := In_lookup id (id b) t b Hpk Hb eq_refl).
  congruence.
Qed.

(** The two outcomes of a call. *)
Lemma claim_pending_job_cases w now t :
  pk_unique t ->
  ((forall sj, In sj t -> eligible sj = false) /\
   claim_pending_job w now t = (t, None)) \/
  (exists sj l1 l2,
     t = l1 ++ sj :: l2 /\ eligible sj = true /\
     (forall k, In k t -> eligible k = true -> created_at sj <= created_at k) /\
     claim_pending_job w now t =
       (l1 ++ claim_set w now sj :: l2, Some (returning sj))).
Proof.
  intros Hpk. unfold claim_pending_job.
  destruct (candidate t) as [cid|] eqn:Hc.
  - right. apply candidate_Some in Hc.
    destruct Hc as (sj & Hin & Hid & Hel & Hmin).
    destruct (update_where_split id (claim_set w now) cid t sj Hpk Hin Hid)
      as (l1 & l2 & Ht & Hup).
    exists sj, l1, l2. repeat split; auto.
    rewrite returned_rows_fixed by reflexivity. rewrite Hup. f_equal.
    assert (Hlk := In_lookup id cid t sj Hpk Hin Hid).
    unfold lookup in Hlk. rewrite <- hd_error_filter in Hlk.
    destruct (filter _ t); inversion Hlk; reflexivity.
  - left. split; [|reflexivity]. now apply candidate_None.
Qed.

Lemma claim_pending_job_ids w now t :
  map id (fst (claim_pending_job w now t)) = map id t.
Proof.
  unfold claim_pending_job. destruct (candidate t) as [cid|]; [|reflexivity].
  simpl. now apply update_where_keys.
Qed.

(** *** Examples *)

Definition job_a : story_job := fresh_job 1 "job-a" "{}" "a@example.com" 100.
Definition job_b : story_job := fresh_job 2 "job-b" "{}" "b@example.com" 200.
Definition job_done : story_job := set_status "completed" job_a.

Example claim_two_jobs :
  claim_pending_job (Some "w1") 500 [job_b; job_a] =
  ([job_b; claim_set (Some "w1") 500 job_a], Some (returning job_a)).
Proof. reflexivity. Qed.

(** Two workers and one pending job: whichever locks first gets the job
    and the other gets the empty set. *)
Example two_workers_one_job :
  exists s,
    run [(0%nat, SkipLocked.Begin); (1%nat, SkipLocked.Begin);
         (1%nat, SkipLocked.Scan); (0%nat, SkipLocked.Scan);
         (0%nat, SkipLocked.Scan); (1%nat, SkipLocked.Commit)]
        (start [job_a] [(Some "w1", 500); (Some "w2", 501)]) = Some s /\
    SkipLocked.phase_at (SkipLocked.txns s) 0 (SkipLocked.Returned None) /\
    received s 1 (returning job_a) /\
    SkipLocked.rows s = [claim_set (Some "w2") 501 job_a].
Proof.
  eexists. split; [reflexivity|].
  repeat split; eexists; split; reflexivity.
Qed.

(** *** The claim primitive *)

(** C2. When an eligible job exists (status pending, [retry_count < 3]),
    [claim_pending_job] picks an eligible job with the oldest [created_at],
    rewrites that one row in place with status running, [claimed_by] the
    given worker, [claimed_at] and [started_at] the time of the call, leaves
    every other row as it was, and returns that job: the one row [o] it
    returns carries the [id], [job_id], [story_bible], [user_email],
    [settings], [created_at] and [retry_count] of the job it picked.  One
    table-to-table transition. *)
Theorem claim_pending_job_claims_oldest w now t :
  pk_unique t ->
  (exists sj, In sj t /\ status sj = "pending" /\ retry_count sj < 3) ->
  exists sj l1 l2 o,
    t = l1 ++ sj :: l2 /\
    status sj = "pending" /\ retry_count sj < 3 /\
    (forall k, In k t -> status k = "pending" -> retry_count k < 3 ->
               created_at sj <= created_at k) /\
    claim_pending_job w now t =
      (l1 ++ claim_set w now sj :: l2, Some o) /\
    o = returning sj /\
    status (claim_set w now sj) = "running" /\
    claimed_by (claim_set w now sj) = w /\
    claimed_at (claim_set w now sj) = Some now /\
    started_at (claim_set w now sj) = Some now /\
    cj_id o = id sj /\
    cj_job_id o = job_id sj /\
    cj_story_bible o = story_bible sj /\
    cj_user_email o = user_email sj /\
    cj_settings o = settings sj /\
    cj_created_at o = created_at sj /\
    cj_retry_count o = retry_count sj.
Proof.
  intros Hpk (sj0 & Hin0 & Hel0). apply eligible_spec in Hel0.
  destruct (claim_pending_job_cases w now t Hpk)
    as [[Hnone _]|(sj & l1 & l2 & Ht & Hel & Hmin & Hc)].
  - rewrite (Hnone sj0 Hin0) in Hel0. discriminate.
  - exists sj, l1, l2, (returning sj).
    apply eligible_spec in Hel. destruct Hel as [Hp Hlt].
    repeat split; auto.
    intros k Hk Hkp Hklt. apply Hmin; [assumption|].
    now apply eligible_spec.
Qed.

Lemma claim_pending_job_claims_oldest_witness :
  exists sj l1 l2 o,
    [job_b; job_a] = l1 ++ sj :: l2 /\
    status sj = "pending" /\ retry_count sj < 3 /\
    (forall k, In k [job_b; job_a] -> status k = "pending" ->
               retry_count k < 3 -> created_at sj <= created_at k) /\
    claim_pending_job (Some "w1") 500 [job_b; job_a] =
      (l1 ++ claim_set (Some "w1") 500 sj :: l2, Some o) /\
    o = returning sj /\
    status (claim_set (Some "w1") 500 sj) = "running" /\
    claimed_by (claim_set (Some "w1") 500 sj) = Some "w1" /\
    claimed_at (claim_set (Some "w1") 500 sj) = Some 500 /\
    started_at (claim_set (Some "w1") 500 sj) = Some 500 /\
    cj_id o = id sj /\
    cj_job_id o = job_id sj /\
    cj_story_bible o = story_bible sj /\
    cj_user_email o = user_email sj /\
    cj_settings o = settings sj /\
    cj_created_at o = created_at sj /\
    cj_retry_count o = retry_count sj.
Proof.
  apply (claim_pending_job_claims_oldest (Some "w1") 500 [job_b; job_a]).
  - unfold pk_unique. simpl. repeat constructor; simpl; intuition lia.
  - exists job_a. split; [simpl; auto|]. split; [reflexivity|].
    change (0 < 3). lia.
Defined.

(** C6. When no row is eligible, [claim_pending_job] returns the empty set
    and the table is the one it was called on. *)
Theorem claim_pending_job_none w now t :
  (forall sj, In sj t -> ~ (status sj = "pending" /\ retry_count sj < 3)) ->
  claim_pending_job w now t = (t, None).
Proof.
  intros Hnone. unfold claim_pending_job.
  destruct (candidate t) as [cid|] eqn:Hc; [|reflexivity].
  apply candidate_Some in Hc. destruct Hc as (sj & Hin & _ & Hel & _).
  apply eligible_spec in Hel. now apply Hnone in Hel.
Qed.

Definition job_spent : story_job :=
  mk_job 3 "job-c" "pending" "{}" "c@example.com" None None None (Some 0)
    None None None 50 None None None 3 None None None.

Lemma claim_pending_job_none_witness :
  claim_pending_job (Some "w1") 500 [job_done; job_spent] =
    ([job_done; job_spent], None).
Proof.
  apply (claim_pending_job_none (Some "w1") 500 [job_done; job_spent]).
  intros sj [<-|[<-|[]]] [Hp Hlt].
  - discriminate.
  - simpl in Hlt. lia.
Defined.

(** C1. Whatever the number of callers of [claim_pending_job] and however
    their transactions interleave, two callers that each received a job
    received different jobs. *)
Theorem concurrent_claims_disjoint t callers sched s i j o o' :
  pk_unique t ->
  run sched (start t callers) = Some s ->
  i <> j -> received s i o -> received s j o' ->
  cj_id o <> cj_id o'.
Proof.
  intros Hpk Hrun.
  exact (SkipLocked.no_double_claim id created_at want set_claimed returning
           cj_id taken key_set_claimed taken_set_claimed want_not_taken
           id_returning t callers sched s i j o o' Hpk Hrun).
Qed.

Definition interleaved : list (nat * SkipLocked.action) :=
  [(0%nat, SkipLocked.Begin); (1%nat, SkipLocked.Begin);
   (0%nat, SkipLocked.Scan); (1%nat, SkipLocked.Scan);
   (1%nat, SkipLocked.Scan); (1%nat, SkipLocked.Commit);
   (0%nat, SkipLocked.Commit)].

Definition after_interleaved : db :=
  match run interleaved (start [job_a; job_b] [(Some "w1", 500); (Some "w2", 501)]) with
  | Some s => s
  | None => start [] []
  end.

Lemma concurrent_claims_disjoint_witness :
  cj_id (returning job_a) <> cj_id (returning job_b).
Proof.
  apply (concurrent_claims_disjoint [job_a; job_b]
           [(Some "w1", 500); (Some "w2", 501)] interleaved after_interleaved
           0%nat 1%nat).
  - unfold pk_unique. simpl. repeat constructor; simpl; intuition lia.
  - reflexivity.
  - lia.
  - eexists. split; reflexivity.
  - eexists. split; reflexivity.
Defined.

(** *** The store and the claim fields *)

(** C5, as stated, fails: the table has no constraint that ties
    [claimed_by] and [claimed_at] to [status], so the store accepts an
    [UPDATE] that sets a pending job running and names no claimant. *)
Lemma store_accepts_unclaimed_running : ~ store_enforces_claim_fields.
Proof.
  intros H.
  specialize (H (mk_foreign [] [] []) (fun sj => id sj =? 1)
                (set_status "running") [job_a]
                [set_status "running" job_a]).
  assert (Hbad : Forall claim_fields_ok [set_status "running" job_a]).
  { apply H; [|reflexivity].
    repeat constructor; simpl; intros; try discriminate. }
  inversion Hbad as [|? ? [Hrun _] _]; subst.
  destruct (Hrun eq_refl) as [Hc _]. now apply Hc.
Qed.

(** Nor does [claim_pending_job] keep the claim fields by itself: called
    with a NULL [worker_id] it sets the oldest pending job running and
    writes the NULL into [claimed_by]. *)
Lemma null_worker_claims_unnamed :
  fst (claim_pending_job None 500 [job_a]) = [claim_set None 500 job_a] /\
  ~ Forall claim_fields_ok (fst (claim_pending_job None 500 [job_a])).
Proof.
  split; [reflexivity|]. intros Hbad.
  inversion Hbad as [|? ? [Hrun _] _]; subst.
  destruct (Hrun eq_refl) as [Hc _]. now apply Hc.
Qed.

(** C5, amended. Called with a [worker_id] that is not NULL,
    [claim_pending_job] keeps the claim fields in step with the status: on
    a table whose rows all satisfy [claim_fields_ok], the table after the
    call satisfies it too; a job is claimed whenever one is pending with
    [retry_count < 3]; and the row of the job that is returned is running,
    with the caller's [worker_id] in [claimed_by] and the time of the call
    in [claimed_at], while every other row is a row of the table before
    the call. *)
Theorem claim_pending_job_keeps_claim_fields w now t :
  pk_unique t ->
  Forall claim_fields_ok t ->
  Forall claim_fields_ok (fst (claim_pending_job (Some w) now t)) /\
  ((exists sj, In sj t /\ status sj = "pending" /\ retry_count sj < 3) ->
   exists o, snd (claim_pending_job (Some w) now t) = Some o) /\
  (forall o, snd (claim_pending_job (Some w) now t) = Some o ->
     exists sj,
       lookup id (cj_id o) (fst (claim_pending_job (Some w) now t)) = Some sj /\
       status sj = "running" /\
       claimed_by sj = Some w /\
       claimed_at sj = Some now /\
       forall k, In k (fst (claim_pending_job (Some w) now t)) ->
         id k <> cj_id o -> In k t).
Proof.
  intros Hpk Hok.
  destruct (claim_pending_job_cases (Some w) now t Hpk)
    as [[Hnone Hc]|(sj & l1 & l2 & Ht & Hel & Hmin & Hc)]; rewrite Hc; simpl.
  - split; [exact Hok|]. split; [|discriminate].
    intros (sj & Hin & Hel). apply eligible_spec in Hel.
    rewrite (Hnone sj Hin) in Hel. discriminate.
  - assert (Hpk' : pk_unique (l1 ++ claim_set (Some w) now sj :: l2)).
    { unfold pk_unique in *. rewrite Ht in Hpk.
      rewrite map_app in *. exact Hpk. }
    split; [|split].
    + rewrite Ht in Hok. rewrite Forall_forall in *.
      intros x Hx. apply in_app_iff in Hx. destruct Hx as [Hx|[<-|Hx]].
      * apply Hok, in_app_iff. now left.
      * split; simpl; [intros _; split; discriminate|].
        intros [H|[H|H]]; discriminate.
      * apply Hok, in_app_iff. right. now right.
    + intros _. eauto.
    + intros o Ho. inversion Ho; subst o. simpl.
      exists (claim_set (Some w) now sj). split; [|repeat split].
      * apply In_lookup; [exact Hpk'| |reflexivity].
        apply in_app_iff. right. now left.
      * intros k Hk Hne. rewrite Ht.
        apply in_app_iff in Hk. apply in_app_iff.
        destruct Hk as [Hk|[<-|Hk]]; [now left| |right; now right].
        now contradiction Hne.
Qed.

Lemma claim_pending_job_keeps_claim_fields_witness :
  Forall claim_fields_ok
    (fst (claim_pending_job (Some "w1") 500 [job_b; job_a])) /\
  ((exists sj, In sj [job_b; job_a] /\ status sj = "pending" /\
               retry_count sj < 3) ->
   exists o, snd (claim_pending_job (Some "w1") 500 [job_b; job_a]) = Some o) /\
  (forall o, snd (claim_pending_job (Some "w1") 500 [job_b; job_a]) = Some o ->
     exists sj,
       lookup id (cj_id o)
         (fst (claim_pending_job (Some "w1") 500 [job_b; job_a])) = Some sj /\
       status sj = "running" /\
       claimed_by sj = Some "w1" /\
       claimed_at sj = Some 500 /\
       forall k,
         In k (fst (claim_pending_job (Some "w1") 500 [job_b; job_a])) ->
         id k <> cj_id o -> In k [job_b; job_a]).
Proof.
  apply (claim_pending_job_keeps_claim_fields "w1" 500 [job_b; job_a]).
  - unfold pk_unique. simpl. repeat constructor; simpl; intuition lia.
  - repeat constructor; simpl; intros; try discriminate.
Defined.

(** C7, amended. The job that [claim_pending_job] returns depends on the
    table alone, not on the time of the call nor on the caller: the
    selection reads [status], [retry_count] and [created_at], and no column
    holds a time before which a pending job is to be passed over.  So a
    table with a pending job whose [retry_count] is below 3 yields a job
    at whatever time the call is made. *)
Theorem claim_pending_job_ignores_time w w' now now' t :
  (exists sj, In sj t /\ status sj = "pending" /\ retry_count sj < 3) ->
  snd (claim_pending_job w now t) = snd (claim_pending_job w' now' t) /\
  exists o, snd (claim_pending_job w now t) = Some o.
Proof.
  intros (sj & Hin & Hel). apply eligible_spec in Hel.
  unfold claim_pending_job. destruct (candidate t) as [cid|] eqn:Hc.
  - simpl. rewrite !returned_rows_fixed by reflexivity.
    split; [reflexivity|].
    apply candidate_Some in Hc. destruct Hc as (m & Hm & Hid & _).
    assert (Hf : In m (filter (fun x => id x =? cid) t))
      by (apply filter_In; split; [assumption|now apply Z.eqb_eq]).
    destruct (filter _ t) as [|x l]; [destruct Hf|].
    simpl. eauto.
  - apply candidate_None with (sj := sj) in Hc; [congruence|assumption].
Qed.

Lemma claim_pending_job_ignores_time_witness :
  snd (claim_pending_job (Some "w1") 1001 [job_a]) =
    snd (claim_pending_job (Some "w2") 5000 [job_a]) /\
  exists o, snd (claim_pending_job (Some "w1") 1001 [job_a]) = Some o.
Proof.
  apply (claim_pending_job_ignores_time (Some "w1") (Some "w2") 1001 5000 [job_a]).
  exists job_a. split; [now left|]. split; [reflexivity|].
  change (0 < 3). lia.
Defined.

End StoryJobs.



(** ** The generation worker and the reaper

    The worker loop, the retry policy and the stale-claim reaper live in
    the Python backend ([backend.queue]); what they do to a row of
    [story_jobs] is taken from the specification and run against the table
    and the claim function above. *)

Module GenerationWorker.
Import Sql StoryJobs.

(** The retry limit, the literal of [claim_pending_job]'s
    [retry_count < 3]; the table has no per-job limit column. *)
Definition max_retries : Z := 3.

(** A row with its outcome columns rewritten. *)
Definition with_outcome (st : text) (rc : Z) (err : option text)
    (by_ : option text) (at_ : option timestamptz) (story : option uuid)
    (done : option timestamptz) (sj : story_job) : story_job :=
  {| id := id sj;
     job_id := job_id sj;
     status := st;
     story_bible := story_bible sj;
     user_email := user_email sj;
     user_id := user_id sj;
     settings := settings sj;
     current_step := current_step sj;
     progress_percent := progress_percent sj;
     result := result sj;
     story_id := story;
     error_message := err;
     created_at := created_at sj;
     started_at := started_at sj;
     completed_at := done;
     generation_time_seconds := generation_time_seconds sj;
     retry_count := rc;
     claimed_by := by_;
     claimed_at := at_;
     preshow_id := preshow_id sj |}.

(** [WHERE id = jid AND status = 'running']: the job a worker holds. *)
Definition running_job (jid : uuid) (sj : story_job) : bool :=
  (id sj =? jid) && (status sj =? "running")%string.

(** Modelled from the spec: the worker's success path, which is in the
    Python backend. "On success: write artifactRef, set status Completed,
    completedAt=now"; a completed job names no claimant. *)
Definition succeed_set (now : timestamptz) (story : uuid)
    (sj : story_job) : story_job :=
  with_outcome "completed" (retry_count sj) (error_message sj) None
    (claimed_at sj) (Some story) (Some now) sj.

(** Modelled from the spec: the retry policy, which is part of the Python
    backend. "On failure: increment retryCount. If retryCount < maxRetries,
    set status back to Pending (with claimedBy=null). If retryCount >=
    maxRetries, set status Failed permanently and record errorMessage." *)
Definition retry_set (err : text) (sj : story_job) : story_job :=
  let n := retry_count sj + 1 in
  if n <? max_retries
  then with_outcome "pending" n (error_message sj) None (claimed_at sj)
         (story_id sj) (completed_at sj) sj
  else with_outcome "failed" n (Some err) None (claimed_at sj)
         (story_id sj) (completed_at sj) sj.

(** Modelled from the spec: a fatal error, handled by the Python backend.
    "Fatal errors skip retry and go straight to Failed." *)
Definition fatal_set (err : text) (sj : story_job) : story_job :=
  with_outcome "failed" (retry_count sj) (Some err) None (claimed_at sj)
    (story_id sj) (completed_at sj) sj.

(** Modelled from the spec: the reaper's selection, which is in the Python
    backend. "Selects jobs with status=Running and claimedAt older than a
    configured timeout." *)
Definition stale (now : timestamptz) (timeout : Z) (sj : story_job) : bool :=
  (status sj =? "running")%string &&
  match claimed_at sj with
  | Some c => c <? now - timeout
  | None => false
  end.

(** Modelled from the spec: the reaper's update, which is part of the Python
    backend. "Treats it exactly like a retryable failure: increment
    retryCount, clear claim fields, return to Pending (or mark Failed if
    retries exhausted)." *)
Definition reap_set (err : text) (sj : story_job) : story_job :=
  let sj' := retry_set err sj in
  with_outcome (status sj') (retry_count sj') (error_message sj') None None
    (story_id sj') (completed_at sj') sj'.

(** What happens to the table, one event at a time. *)
Inductive event :=
| Enqueue (i : uuid) (name : text) (bible : jsonb) (email : text)
    (now : timestamptz)
| Claim (worker_id : option text) (now : timestamptz)
| Succeed (jid : uuid) (now : timestamptz) (story : uuid)
| FailRetryable (jid : uuid) (failed_at : timestamptz) (err : text)
| FailFatal (jid : uuid) (err : text)
| Reap (now : timestamptz) (timeout : Z) (err : text).

(** A statement the store refuses leaves the table as it was. *)
Definition or_unchanged (t : table) (r : option table) : table :=
  match r with
  | Some t' => t'
  | None => t
  end.

(** Modelled from the spec: the events of the job lifecycle, issued by the
    Python backend, each as one statement against the store. The time of a
    retryable failure leaves no trace: [story_jobs] has no column for a time
    before which the job is not to be claimed. *)
Definition exec (fk : foreign) (e : event) (t : table) : table :=
  match e with
  | Enqueue i name bible email now =>
      or_unchanged t (insert_job fk (fresh_job i name bible email now) t)
  | Claim w now => fst (claim_pending_job w now t)
  | Succeed jid now story =>
      or_unchanged t
        (update_jobs fk (running_job jid) (succeed_set now story) t)
  | FailRetryable jid _ err =>
      or_unchanged t (update_jobs fk (running_job jid) (retry_set err) t)
  | FailFatal jid err =>
      or_unchanged t (update_jobs fk (running_job jid) (fatal_set err) t)
  | Reap now timeout err =>
      or_unchanged t (update_jobs fk (stale now timeout) (reap_set err) t)
  end.

Fixpoint run_events (fk : foreign) (es : list event) (t : table) : table :=
  match es with
  | [] => t
  | e :: es' => run_events fk es' (exec fk e t)
  end.

(** Modelled from the spec: the backoff schedule of the retry policy,
    "indexed by retryCount (e.g., 30s, 2m, 10m)", which is in the Python
    backend. *)
Definition backoff_seconds : list Z := [30; 120; 600].

Definition backoff_delay (retry_count : Z) : Z :=
  nth (Z.to_nat (retry_count - 1)) backoff_seconds 600.

(** Modelled from the spec: the time before which a job that failed at
    [failed_at] is not to be claimed again. *)
Definition not_before (failed_at : timestamptz) (retry_count : Z)
    : timestamptz :=
  failed_at + backoff_delay retry_count.

(** The claim primitive passes over a job until its backoff has run out. *)
Definition claim_respects_not_before : Prop :=
  forall fk t jid failed_at err w now o,
    (exists sj, In sj t /\ running_job jid sj = true) ->
    snd (claim_pending_job w now (exec fk (FailRetryable jid failed_at err) t))
      = Some o ->
    cj_id o = jid ->
    not_before failed_at (cj_retry_count o) <= now.

(** *** The retry bound *)

Definition retry_ok (sj : story_job) : Prop :=
  retry_count sj <= max_retries /\
  (retry_count sj = max_retries -> status sj = "failed").

Definition sound (t : table) : Prop := pk_unique t /\ Forall retry_ok t.

Lemma or_unchanged_update (Q : table -> Prop) fk p f t :
  Q t -> (table_ok fk (update_where p f t) = true -> Q (update_where p f t)) ->
  Q (or_unchanged t (update_jobs fk p f t)).
Proof.
  intros Ht Hu. unfold update_jobs.
  destruct (table_ok fk (update_where p f t)) eqn:E; simpl; auto.
Qed.

Lemma running_job_status jid sj :
  running_job jid sj = true -> status sj = "running".
Proof.
  unfold running_job. rewrite andb_true_iff, String.eqb_eq. tauto.
Qed.

Lemma stale_status now timeout sj :
  stale now timeout sj = true -> status sj = "running".
Proof.
  unfold stale. rewrite andb_true_iff, String.eqb_eq. tauto.
Qed.

Lemma retry_ok_running sj :
  retry_ok sj -> status sj = "running" -> retry_count sj < max_retries.
Proof.
  intros [Hle Hmax] Hrun.
  destruct (Z.eq_dec (retry_count sj) max_retries) as [E|E]; [|lia].
  apply Hmax in E. congruence.
Qed.

Lemma retry_set_ok err sj :
  retry_ok sj -> status sj = "running" -> retry_ok (retry_set err sj).
Proof.
  intros Hok Hrun. assert (Hlt := retry_ok_running sj Hok Hrun).
  unfold retry_set, retry_ok.
  destruct (retry_count sj + 1 <? max_retries) eqn:E; simpl.
  - apply Z.ltb_lt in E. split; [lia|]. intros; lia.
  - split; [lia|reflexivity].
Qed.

Lemma reap_set_ok err sj :
  retry_ok sj -> status sj = "running" -> retry_ok (reap_set err sj).
Proof.
  intros Hok Hrun. exact (retry_set_ok err sj Hok Hrun).
Qed.

Lemma exec_sound fk e t : sound t -> sound (exec fk e t).
Proof.
  intros [Hpk Hok]. destruct e; simpl.
  - unfold insert_job.
    destruct (table_ok fk (t ++ [_])) eqn:E; simpl; [|now split].
    split; [eapply table_ok_pk; eauto|].
    apply Forall_app. split; [assumption|].
    repeat constructor; simpl; unfold max_retries; intros; lia.
  - split.
    + unfold pk_unique. now rewrite claim_pending_job_ids.
    + destruct (claim_pending_job_cases worker_id now t Hpk)
        as [[_ ->]|(sj & l1 & l2 & -> & Hel & _ & ->)]; [assumption|].
      simpl. apply Forall_app in Hok. destruct Hok as [H1 H2].
      inversion H2 as [|? ? Hsj H2']; subst.
      apply Forall_app. split; [assumption|]. constructor; [|assumption].
      apply eligible_spec in Hel. destruct Hel as [_ Hlt].
      split; simpl; unfold max_retries; [lia|intros; lia].
  - apply or_unchanged_update; [now split|]. intros E.
    split; [eapply table_ok_pk; eauto|].
    apply update_where_Forall; [assumption|]. intros sj Hsj Hp.
    apply running_job_status in Hp.
    assert (Hlt := retry_ok_running sj Hsj Hp).
    split; simpl; [lia|intros; lia].
  - apply or_unchanged_update; [now split|]. intros E.
    split; [eapply table_ok_pk; eauto|].
    apply update_where_Forall; [assumption|]. intros sj Hsj Hp.
    apply retry_set_ok; [assumption|]. eapply running_job_status; eauto.
  - apply or_unchanged_update; [now split|]. intros E.
    split; [eapply table_ok_pk; eauto|].
    apply update_where_Forall; [assumption|]. intros sj [Hle _] Hp.
    split; simpl; [assumption|reflexivity].
  - apply or_unchanged_update; [now split|]. intros E.
    split; [eapply table_ok_pk; eauto|].
    apply update_where_Forall; [assumption|]. intros sj Hsj Hp.
    apply reap_set_ok; [assumption|]. eapply stale_status; eauto.
Qed.

Lemma run_events_sound fk es : forall t, sound t -> sound (run_events fk es t).
Proof.
  induction es as [|e es IH]; simpl; intros t Ht; [assumption|].
  apply IH. now apply exec_sound.
Qed.

Lemma sound_nil : sound [].
Proof. split; [constructor|constructor]. Qed.

(** No event touches a failed row. *)
Lemma exec_keeps_failed fk e t sj :
  sound t -> In sj t -> status sj = "failed" -> In sj (exec fk e t).
Proof.
  intros [Hpk _] Hin Hst.
  assert (Hnr : forall jid, running_job jid sj = false).
  { intros jid. unfold running_job. rewrite Hst. simpl. apply andb_false_r. }
  destruct e; simpl.
  - unfold insert_job. destruct (table_ok fk _); simpl; [|assumption].
    apply in_or_app. now left.
  - destruct (claim_pending_job_cases worker_id now t Hpk)
      as [[_ ->]|(m & l1 & l2 & Ht & Hel & _ & ->)]; [assumption|].
    simpl. subst t. apply in_app_or in Hin. apply in_or_app.
    destruct Hin as [Hin|[<-|Hin]]; [now left| |right; now right].
    apply eligible_spec in Hel. destruct Hel as [Hp _]. congruence.
  - apply or_unchanged_update; [assumption|]. intros _.
    now apply update_where_keeps.
  - apply or_unchanged_update; [assumption|]. intros _.
    now apply update_where_keeps.
  - apply or_unchanged_update; [assumption|]. intros _.
    now apply update_where_keeps.
  - apply or_unchanged_update; [assumption|]. intros _.
    apply update_where_keeps; [assumption|].
    unfold stale. now rewrite Hst.
Qed.

Lemma run_events_keeps_failed fk es : forall t sj,
  sound t -> In sj t -> status sj = "failed" -> In sj (run_events fk es t).
Proof.
  induction es as [|e es IH]; simpl; intros t sj Ht Hin Hst; [assumption|].
  apply IH; [now apply exec_sound| |assumption].
  now apply exec_keeps_failed.
Qed.

(** The claim function returns eligible rows only. *)
Lemma claimed_is_eligible w now t o :
  pk_unique t -> snd (claim_pending_job w now t) = Some o ->
  exists sj, In sj t /\ eligible sj = true /\ o = returning sj.
Proof.
  intros Hpk H.
  destruct (claim_pending_job_cases w now t Hpk)
    as [[_ Hc]|(sj & l1 & l2 & Ht & Hel & _ & Hc)]; rewrite Hc in H;
    simpl in H; [discriminate|].
  inversion H; subst. exists sj. repeat split; auto.
  apply in_or_app. right. now left.
Qed.

(** The scenario of the specification: a job that fails three times with
    retryable errors ends failed with [retry_count = 3]. *)
Definition no_refs : foreign := mk_foreign [] [] [].

Definition three_failures : list event :=
  [Enqueue 1 "job-a" "{}" "a@example.com" 100;
   Claim (Some "w1") 110; FailRetryable 1 120 "timeout";
   Claim (Some "w1") 130; FailRetryable 1 140 "timeout";
   Claim (Some "w2") 150; FailRetryable 1 160 "timeout"].

Definition job_exhausted : story_job :=
  with_outcome "failed" 3 (Some "timeout") None (Some 150) None None
    (claim_set (Some "w2") 150 job_a).

Example three_failures_fail :
  run_events no_refs three_failures [] = [job_exhausted].
Proof. reflexivity. Qed.

(** C4. In every table the job lifecycle can reach, [retry_count] is at
    most the retry limit; a job whose [retry_count] has reached the limit
    is failed, no later event changes its row, and no later call of
    [claim_pending_job] returns it. *)
Theorem retry_bound fk es es' sj :
  In sj (run_events fk es []) ->
  retry_count sj <= max_retries /\
  (retry_count sj = max_retries ->
   status sj = "failed" /\
   In sj (run_events fk es' (run_events fk es [])) /\
   forall w now o,
     snd (claim_pending_job w now (run_events fk es' (run_events fk es [])))
       = Some o ->
     cj_id o <> id sj).
Proof.
  intros Hin.
  assert (Hs := run_events_sound fk es [] sound_nil).
  assert (Hok : retry_ok sj).
  { destruct Hs as [_ Hall]. rewrite Forall_forall in Hall. auto. }
  split; [apply Hok|]. intros Hmax.
  assert (Hst : status sj = "failed") by now apply Hok.
  assert (Hin' := run_events_keeps_failed fk es' _ sj Hs Hin Hst).
  assert (Hs' := run_events_sound fk es' _ Hs).
  repeat split; auto.
  intros w now o Ho Hid.
  destruct (claimed_is_eligible w now _ o (proj1 Hs') Ho)
    as (m & Hm & Hel & ->).
  assert (m = sj) by (eapply pk_injective; eauto; apply Hs').
  subst m. apply eligible_spec in Hel. destruct Hel as [Hp _]. congruence.
Qed.

Lemma retry_bound_witness :
  retry_count job_exhausted <= max_retries /\
  status job_exhausted = "failed" /\
  In job_exhausted
     (run_events no_refs [Claim (Some "w3") 900]
        (run_events no_refs three_failures [])) /\
  forall w now o,
    snd (claim_pending_job w now
           (run_events no_refs [Claim (Some "w3") 900]
              (run_events no_refs three_failures []))) = Some o ->
    cj_id o <> id job_exhausted.
Proof.
  destruct (retry_bound no_refs three_failures [Claim (Some "w3") 900]
              job_exhausted) as [Hle Hmax].
  - simpl. now left.
  - split; [exact Hle|]. apply Hmax. reflexivity.
Defined.

(** C7, as stated, fails: a job that failed at time 1000 and went back to
    pending is returned by a claim at time 1001, before any backoff delay
    has passed. *)
Lemma claim_before_backoff : ~ claim_respects_not_before.
Proof.
  intros H.
  specialize (H no_refs [claim_set (Some "w1") 900 job_a] 1 1000 "timeout"
                (Some "w2") 1001
                (returning (retry_set "timeout" (claim_set (Some "w1") 900 job_a)))).
  assert (Hle : not_before 1000 1 <= 1001).
  { apply H; [|reflexivity|reflexivity].
    eexists. split; [left; reflexivity|reflexivity]. }
  vm_compute in Hle. apply Hle. reflexivity.
Qed.

End GenerationWorker.

(** ** [public.scheduled_deliveries] *)

Module ScheduledDeliveries.
Import Sql.

(** A row of [scheduled_deliveries]. *)
Record delivery := mk_delivery {
  id : uuid;
  story_id : uuid;
  user_id : uuid;
  user_email : text;
  deliver_at : timestamptz;
  timezone : text;
  status : text;
  sent_at : option timestamptz;
  resend_email_id : option text;
  error_message : option text;
  retry_count : Z;
  created_at : timestamptz;
  updated_at : timestamptz
}.

Definition table := list delivery.

(** The primary key, and [unique_story_delivery UNIQUE (story_id)]. *)
Definition pk_unique (t : table) : Prop := NoDup (map id t).
Definition unique_story (t : table) : Prop := NoDup (map story_id t).

(** The keys present in [stories] and [users]. *)
Record foreign := mk_foreign {
  stories : list uuid;
  users : list uuid
}.

(** [check (status in ('pending', 'sending', 'sent', 'failed'))]. *)
Definition status_check (d : delivery) : bool :=
  existsb (String.eqb (status d)) ["pending"; "sending"; "sent"; "failed"].

Definition row_ok (fk : foreign) (d : delivery) : bool :=
  status_check d && int4 (retry_count d)
  && references (stories fk) (Some (story_id d))
  && references (users fk) (Some (user_id d)).

Definition table_ok (fk : foreign) (t : table) : bool :=
  forallb (row_ok fk) t
  && distinct Z.eqb (map id t)
  && distinct Z.eqb (map story_id t).

(** [update_updated_at_column()], the [BEFORE UPDATE ... FOR EACH ROW]
    trigger: [NEW.updated_at = now()]. *)
Definition update_updated_at_column (now : timestamptz)
    (new : delivery) : delivery :=
  {| id := id new;
     story_id := story_id new;
     user_id := user_id new;
     user_email := user_email new;
     deliver_at := deliver_at new;
     timezone := timezone new;
     status := status new;
     sent_at := sent_at new;
     resend_email_id := resend_email_id new;
     error_message := error_message new;
     retry_count := retry_count new;
     created_at := created_at new;
     updated_at := now |}.

(** [INSERT]: the new row passes its checks and its [id] and its
    [story_id] are not in the table yet, or the statement is refused. *)
Definition insert_delivery (fk : foreign) (d : delivery) (t : table)
    : option table :=
  if row_ok fk d
     && negb (existsb (Z.eqb (id d)) (map id t))
     && negb (existsb (Z.eqb (story_id d)) (map story_id t))
  then Some (t ++ [d])
  else None.

(** [UPDATE ... SET f WHERE p] at time [now]: the trigger fires on every
    row the statement rewrites; a result that breaks a constraint is
    refused. *)
Definition update_deliveries (fk : foreign) (now : timestamptz)
    (p : delivery -> bool) (f : delivery -> delivery) (t : table)
    : option table :=
  let t' := update_where p (fun d => update_updated_at_column now (f d)) t in
  if table_ok fk t' then Some t' else None.

(** [DELETE ... WHERE p], also what [ON DELETE CASCADE] issues. *)
Definition delete_deliveries (p : delivery -> bool) (t : table) : table :=
  delete_where p t.

Inductive statement :=
| Insert (d : delivery)
| Update (now : timestamptz) (p : delivery -> bool) (f : delivery -> delivery)
| Delete (p : delivery -> bool).

(** A statement the store refuses leaves the table as it was. *)
Definition or_unchanged (t : table) (r : option table) : table :=
  match r with
  | Some t' => t'
  | None => t
  end.

Definition exec_statement (fk : foreign) (st : statement) (t : table)
    : table :=
  match st with
  | Insert d => or_unchanged t (insert_delivery fk d t)
  | Update now p f => or_unchanged t (update_deliveries fk now p f t)
  | Delete p => delete_deliveries p t
  end.

Fixpoint run_statements (fk : foreign) (sts : list statement) (t : table)
    : table :=
  match sts with
  | [] => t
  | st :: sts' => run_statements fk sts' (exec_statement fk st t)
  end.

(** The number of delivery rows of a story. *)
Definition deliveries_of (s : uuid) (t : table) : nat :=
  List.length (filter (fun d => story_id d =? s) t).

(** *** The migration that adds [unique_story_delivery] *)

(** The comparison of [ORDER BY story_id, created_at ASC]. *)
Definition by_story_then_created (a b : delivery) : bool :=
  (story_id a <? story_id b)
  || ((story_id a =? story_id b) && (created_at a <=? created_at b)).

(** [DISTINCT ON (story_id)] over ordered rows: the first row of each run
    of rows with the same [story_id]; [prev] is the [story_id] of the row
    before. *)
Fixpoint distinct_on_story_id (prev : option uuid) (l : list delivery)
    : list delivery :=
  match l with
  | [] => []
  | d :: l' =>
      let rest := distinct_on_story_id (Some (story_id d)) l' in
      match prev with
      | Some s => if story_id d =? s then rest else d :: rest
      | None => d :: rest
      end
  end.

(** [SELECT DISTINCT ON (story_id) id FROM scheduled_deliveries
    ORDER BY story_id, created_at ASC]. *)
Definition first_created (t : table) : list uuid :=
  map id (distinct_on_story_id None (order_by by_story_then_created t)).

(** [DELETE FROM scheduled_deliveries WHERE id NOT IN (...)]. *)
Definition delete_duplicates (t : table) : table :=
  delete_where (fun d => negb (existsb (Z.eqb (id d)) (first_created t))) t.

(** [ALTER TABLE ... ADD CONSTRAINT unique_story_delivery UNIQUE
    (story_id)], applied to a table that does not carry the constraint
    yet: refused when two rows share a [story_id]. *)
Definition add_unique_story_delivery (t : table) : option table :=
  if distinct Z.eqb (map story_id t) then Some t else None.

(** The migration, statement after statement. *)
Definition fix_duplicate_deliveries (t : table) : option table :=
  add_unique_story_delivery (delete_duplicates t).

(** *** Facts about the constraints *)

Lemma table_ok_unique fk t :
  table_ok fk t = true -> pk_unique t /\ unique_story t.
Proof.
  unfold table_ok. rewrite !andb_true_iff. intros [[_ H1] H2].
  split; now apply distinct_NoDup.
Qed.

Lemma story_injective t a b :
  unique_story t -> In a t -> In b t -> story_id a = story_id b -> a = b.
Proof.
  intros Hu Ha Hb Hs.
  assert (H1 := In_lookup story_id (story_id b) t a Hu Ha Hs).
  assert (H2 := In_lookup story_id (story_id b) t b Hu Hb eq_refl).
  congruence.
Qed.

Lemma id_injective t a b :
  pk_unique t -> In a t -> In b t -> id a = id b -> a = b.
Proof.
  intros Hu Ha Hb Hs.
  assert (H1 := In_lookup id (id b) t a Hu Ha Hs).
  assert (H2 := In_lookup id (id b) t b Hu Hb eq_refl).
  congruence.
Qed.

Lemma deliveries_of_le_1 s t : unique_story t -> (deliveries_of s t <= 1)%nat.
Proof.
  unfold unique_story, deliveries_of.
  induction t as [|a t IH]; simpl; intros H; [lia|].
  inversion H as [|? ? Hnot Hnd]; subst.
  destruct (story_id a =? s) eqn:E; [|auto]. simpl.
  apply Z.eqb_eq in E.
  assert (Hnone : filter (fun d => story_id d =? s) t = []).
  { destruct (filter _ t) as [|b l] eqn:F; [reflexivity|].
    assert (Hb : In b (filter (fun d => story_id d =? s) t))
      by (rewrite F; now left).
    apply filter_In in Hb. destruct Hb as [Hb Hs]. apply Z.eqb_eq in Hs.
    exfalso. apply Hnot. rewrite E, <- Hs. now apply in_map. }
  rewrite Hnone. simpl. lia.
Qed.

Lemma deliveries_of_In d t :
  unique_story t -> In d t -> deliveries_of (story_id d) t = 1%nat.
Proof.
  intros Hu Hin. assert (Hle := deliveries_of_le_1 (story_id d) t Hu).
  unfold deliveries_of in *.
  assert (Hf : In d (filter (fun x => story_id x =? story_id d) t))
    by (apply filter_In; split; [assumption|apply Z.eqb_refl]).
  destruct (filter _ t); [destruct Hf|simpl in *; lia].
Qed.

Lemma insert_delivery_duplicate fk d d0 t :
  In d0 t -> story_id d = story_id d0 -> insert_delivery fk d t = None.
Proof.
  intros Hin Hs. unfold insert_delivery.
  assert (E : existsb (Z.eqb (story_id d)) (map story_id t) = true)
    by (apply existsb_eqb_In; rewrite Hs; now apply in_map).
  rewrite E. simpl. now rewrite andb_false_r.
Qed.

Lemma insert_delivery_Some fk d t t' :
  insert_delivery fk d t = Some t' ->
  t' = t ++ [d] /\ ~ In (id d) (map id t) /\
  ~ In (story_id d) (map story_id t).
Proof.
  unfold insert_delivery.
  destruct (existsb (Z.eqb (id d)) (map id t)) eqn:E1;
    [rewrite andb_false_r; discriminate|].
  destruct (existsb (Z.eqb (story_id d)) (map story_id t)) eqn:E2;
    [rewrite andb_false_r; discriminate|].
  destruct (row_ok fk d); simpl; [|discriminate].
  intros H; inversion H; subst. repeat split.
  - intros Hin. apply existsb_eqb_In in Hin. congruence.
  - intros Hin. apply existsb_eqb_In in Hin. congruence.
Qed.

Lemma NoDup_snoc (l : list Z) (k : Z) : NoDup l -> ~ In k l -> NoDup (l ++ [k]).
Proof.
  intros Hnd Hk. apply NoDup_app; [assumption|repeat constructor; auto|].
  intros a Ha [<-|[]]. contradiction.
Qed.

Lemma exec_statement_unique fk st t :
  unique_story t -> unique_story (exec_statement fk st t).
Proof.
  intros Hu. destruct st as [d|now p f|p]; simpl.
  - destruct (insert_delivery fk d t) as [t'|] eqn:E; simpl; [|assumption].
    apply insert_delivery_Some in E. destruct E as (-> & _ & Hs).
    unfold unique_story. rewrite map_app. simpl. now apply NoDup_snoc.
  - unfold update_deliveries.
    destruct (table_ok fk _) eqn:E; simpl; [|assumption].
    now apply table_ok_unique in E.
  - unfold delete_deliveries, delete_where. now apply filter_keeps_distinct.
Qed.

Lemma run_statements_unique fk sts :
  forall t, unique_story t -> unique_story (run_statements fk sts t).
Proof.
  induction sts as [|st sts IH]; simpl; intros t Hu; [assumption|].
  apply IH. now apply exec_statement_unique.
Qed.

(** *** Facts about the migration *)

Lemma by_story_total a b :
  by_story_then_created a b = true \/ by_story_then_created b a = true.
Proof.
  unfold by_story_then_created.
  rewrite !orb_true_iff, !andb_true_iff, !Z.ltb_lt, !Z.eqb_eq, !Z.leb_le. lia.
Qed.

Lemma by_story_trans a b c :
  by_story_then_created a b = true -> by_story_then_created b c = true ->
  by_story_then_created a c = true.
Proof.
  unfold by_story_then_created.
  rewrite !orb_true_iff, !andb_true_iff, !Z.ltb_lt, !Z.eqb_eq, !Z.leb_le. lia.
Qed.

Lemma by_story_le a b :
  by_story_then_created a b = true ->
  story_id a <= story_id b /\
  (story_id a = story_id b -> created_at a <= created_at b).
Proof.
  unfold by_story_then_created.
  rewrite !orb_true_iff, !andb_true_iff, !Z.ltb_lt, !Z.eqb_eq, !Z.leb_le. lia.
Qed.

Definition ordered : table -> Prop := sorted_by by_story_then_created.

Lemma ordered_inv d l :
  ordered (d :: l) ->
  ordered l /\
  forall x, In x l ->
    story_id d <= story_id x /\
    (story_id d = story_id x -> created_at d <= created_at x).
Proof.
  intros H. apply StronglySorted_inv in H. destruct H as [Hs Hall].
  split; [exact Hs|]. rewrite Forall_forall in Hall.
  intros x Hx. now apply by_story_le, Hall.
Qed.

Lemma distinct_on_In prev l x :
  In x (distinct_on_story_id prev l) -> In x l.
Proof.
  revert prev; induction l as [|d l IH]; simpl; intros prev H; [assumption|].
  destruct prev as [s|]; [destruct (story_id d =? s)|]; simpl in H;
    intuition eauto.
Qed.

(** After a row of story [s], only rows of later stories are kept. *)
Lemma distinct_on_above l : forall s,
  ordered l -> (forall x, In x l -> s <= story_id x) ->
  forall k, In k (distinct_on_story_id (Some s) l) -> s < story_id k.
Proof.
  induction l as [|d l IH]; simpl; intros s Hord Hge k Hk; [destruct Hk|].
  apply ordered_inv in Hord. destruct Hord as [Hord Hd].
  assert (Hrest : forall k, In k (distinct_on_story_id (Some (story_id d)) l)
                            -> story_id d < story_id k).
  { apply IH; [assumption|]. intros x Hx. now apply Hd. }
  assert (Hsd := Hge d (or_introl eq_refl)).
  destruct (story_id d =? s) eqn:E.
  - apply Z.eqb_eq in E. rewrite <- E. auto.
  - apply Z.eqb_neq in E. destruct Hk as [<-|Hk]; [lia|].
    apply Hrest in Hk. lia.
Qed.

Lemma distinct_on_NoDup l : forall prev,
  ordered l -> NoDup (map story_id (distinct_on_story_id prev l)).
Proof.
  induction l as [|d l IH]; simpl; intros prev Hord; [constructor|].
  assert (Hd := ordered_inv d l Hord). destruct Hd as [Hord' Hd].
  assert (Hcons : NoDup (map story_id
            (d :: distinct_on_story_id (Some (story_id d)) l))).
  { simpl. constructor; [|auto]. intros Hin. apply in_map_iff in Hin.
    destruct Hin as (k & Hk & Hin).
    apply (distinct_on_above l (story_id d)) in Hin; [lia|assumption|].
    intros x Hx. now apply Hd. }
  destruct prev as [s|]; [destruct (story_id d =? s)|]; auto.
Qed.

(** Every row has a kept row of its story that was created no later. *)
Lemma distinct_on_covers l : forall prev d,
  ordered l -> In d l -> prev <> Some (story_id d) ->
  exists k, In k (distinct_on_story_id prev l) /\
    story_id k = story_id d /\ created_at k <= created_at d.
Proof.
  induction l as [|a l IH]; simpl; intros prev d Hord Hin Hprev;
    [destruct Hin|].
  assert (Ha := ordered_inv a l Hord). destruct Ha as [Hord' Ha].
  assert (Hkept : story_id a = story_id d ->
            In a (match prev with
                  | Some s =>
                      if story_id a =? s
                      then distinct_on_story_id (Some (story_id a)) l
                      else a :: distinct_on_story_id (Some (story_id a)) l
                  | None => a :: distinct_on_story_id (Some (story_id a)) l
                  end)).
  { intros E. destruct prev as [s|]; [|now left].
    destruct (story_id a =? s) eqn:F; [|now left].
    apply Z.eqb_eq in F. exfalso. apply Hprev. congruence. }
  destruct Hin as [<-|Hin].
  - exists a. split; [now apply Hkept|]. split; [reflexivity|lia].
  - destruct (Z.eq_dec (story_id a) (story_id d)) as [E|E].
    + exists a. split; [now apply Hkept|]. split; [assumption|].
      now apply Ha.
    + destruct (IH (Some (story_id a)) d Hord' Hin) as (k & Hk & Hs & Hc);
        [congruence|].
      exists k. split; [|auto].
      destruct prev as [s|]; [destruct (story_id a =? s)|]; simpl; auto.
Qed.

Lemma ordered_order_by t : ordered (order_by by_story_then_created t).
Proof. apply order_by_sorted; [apply by_story_total|apply by_story_trans]. Qed.

(** With a primary key, the rows the [DELETE] leaves are the rows the
    subquery names. *)
Lemma delete_duplicates_In t d :
  pk_unique t ->
  In d (delete_duplicates t) <->
  In d (distinct_on_story_id None (order_by by_story_then_created t)).
Proof.
  intros Hpk. unfold delete_duplicates, delete_where, first_created.
  rewrite filter_In, negb_involutive, existsb_eqb_In, in_map_iff.
  assert (Hsub : forall k,
            In k (distinct_on_story_id None (order_by by_story_then_created t))
            -> In k t).
  { intros k Hk. apply distinct_on_In in Hk.
    apply (order_by_In by_story_then_created). exact Hk. }
  split.
  - intros [Hin (k & Hid & Hk)].
    assert (k = d) by (apply (id_injective t); auto). now subst.
  - intros Hd. split; [auto|]. exists d. auto.
Qed.

Lemma delete_duplicates_unique t :
  pk_unique t -> unique_story (delete_duplicates t).
Proof.
  intros Hpk. unfold unique_story.
  assert (Hd := distinct_on_NoDup _ None (ordered_order_by t)).
  apply NoDup_map_on.
  - intros a b Ha Hb Hs.
    apply (delete_duplicates_In t a Hpk) in Ha.
    apply (delete_duplicates_In t b Hpk) in Hb.
    eapply story_injective; eauto.
  - unfold delete_duplicates, delete_where. apply NoDup_filter.
    eapply NoDup_map_inv. exact Hpk.
Qed.

(** *** Examples *)

(** A row as [INSERT INTO scheduled_deliveries (id, story_id, user_id,
    user_email, deliver_at, timezone)] leaves it at time [now]. *)
Definition fresh_delivery (i story user : uuid) (email : text)
    (at_ : timestamptz) (tz : text) (now : timestamptz) : delivery :=
  {| id := i;
     story_id := story;
     user_id := user;
     user_email := email;
     deliver_at := at_;
     timezone := tz;
     status := "pending";
     sent_at := None;
     resend_email_id := None;
     error_message := None;
     retry_count := 0;
     created_at := now;
     updated_at := now |}.

Definition refs : foreign := mk_foreign [7; 8] [40].

Definition dlv_late : delivery :=
  fresh_delivery 1 7 40 "a@example.com" 1000 "UTC" 300.
Definition dlv_first : delivery :=
  fresh_delivery 2 7 40 "a@example.com" 900 "UTC" 200.
Definition dlv_other : delivery :=
  fresh_delivery 3 8 40 "a@example.com" 950 "UTC" 250.

Example delete_duplicates_example :
  delete_duplicates [dlv_late; dlv_first; dlv_other] = [dlv_first; dlv_other].
Proof. reflexivity. Qed.

Example replayed_insert_refused :
  run_statements refs [Insert dlv_first; Insert dlv_late] [] = [dlv_first].
Proof. reflexivity. Qed.

(** *** Uniqueness of the delivery of a story *)

(** C3. Under [unique_story_delivery], whatever statements the store is
    sent, a story has at most one delivery row; an [INSERT] for a story
    that already has a row is refused and leaves the table as it was. *)
Theorem one_delivery_per_story fk sts t s d d0 :
  unique_story t ->
  (deliveries_of s (run_statements fk sts t) <= 1)%nat /\
  (In d0 (run_statements fk sts t) -> story_id d = story_id d0 ->
   exec_statement fk (Insert d) (run_statements fk sts t) =
   run_statements fk sts t).
Proof.
  intros Hu. split.
  - apply deliveries_of_le_1. now apply run_statements_unique.
  - intros Hin Hs. simpl.
    now rewrite (insert_delivery_duplicate fk d d0 _ Hin Hs).
Qed.

Lemma one_delivery_per_story_witness :
  (deliveries_of 7%Z
     (run_statements refs [Insert dlv_first; Insert dlv_late] []) <= 1)%nat /\
  exec_statement refs (Insert dlv_late)
    (run_statements refs [Insert dlv_first; Insert dlv_late] []) =
  run_statements refs [Insert dlv_first; Insert dlv_late] [].
Proof.
  destruct (one_delivery_per_story refs [Insert dlv_first; Insert dlv_late] []
              7 dlv_late dlv_first) as [Hle Hins].
  - constructor.
  - split; [exact Hle|]. apply Hins; [simpl; now left|reflexivity].
Defined.

(** C10. On a table with several rows for a story, the migration goes
    through; the rows it leaves are rows of the table, unchanged; every
    story that had a row keeps exactly one, and that row was created no
    later than any row of the story. *)
Theorem fix_duplicate_deliveries_keeps_first t :
  pk_unique t ->
  fix_duplicate_deliveries t = Some (delete_duplicates t) /\
  (forall k, In k (delete_duplicates t) -> In k t) /\
  forall d, In d t ->
    deliveries_of (story_id d) (delete_duplicates t) = 1%nat /\
    exists k, In k (delete_duplicates t) /\ story_id k = story_id d /\
      created_at k <= created_at d.
Proof.
  intros Hpk. assert (Hu := delete_duplicates_unique t Hpk).
  split; [|split].
  - unfold fix_duplicate_deliveries, add_unique_story_delivery.
    now rewrite (NoDup_distinct _ Hu).
  - intros k Hk. unfold delete_duplicates, delete_where in Hk.
    apply filter_In in Hk. tauto.
  - intros d Hd.
    assert (Hd' : In d (order_by by_story_then_created t))
      by now apply (order_by_In by_story_then_created).
    destruct (distinct_on_covers _ None d (ordered_order_by t) Hd')
      as (k & Hk & Hs & Hc); [discriminate|].
    apply (delete_duplicates_In t k Hpk) in Hk.
    split; [|eauto]. rewrite <- Hs. now apply deliveries_of_In.
Qed.

Lemma fix_duplicate_deliveries_keeps_first_witness :
  fix_duplicate_deliveries [dlv_late; dlv_first; dlv_other] =
    Some (delete_duplicates [dlv_late; dlv_first; dlv_other]) /\
  deliveries_of (story_id dlv_late)
    (delete_duplicates [dlv_late; dlv_first; dlv_other]) = 1%nat /\
  exists k, In k (delete_duplicates [dlv_late; dlv_first; dlv_other]) /\
    story_id k = story_id dlv_late /\ created_at k <= created_at dlv_late.
Proof.
  destruct (fix_duplicate_deliveries_keeps_first
              [dlv_late; dlv_first; dlv_other]) as (Hmig & _ & Hrow).
  - unfold pk_unique. simpl. repeat constructor; simpl; intuition lia.
  - split; [exact Hmig|]. apply Hrow. simpl. now left.
Defined.

End ScheduledDeliveries.

(** ** The delivery scheduler, the delivery worker and the reaper

    The code that claims and sends deliveries lives in the Python backend
    ([backend.queue.run_delivery]); no claim function for
    [scheduled_deliveries] is among the migrations.  What that code does
    to a row is taken from the specification and run against the table,
    its constraints and its trigger as defined above. *)

Module DeliveryWorker.
Import Sql ScheduledDeliveries.

(** The retry limit of the "same bounded-retry policy" as for jobs. *)
Definition max_retries : Z := 3.

(** A row with its result columns rewritten. *)
Definition with_result (st : text) (sent : option timestamptz)
    (receipt : option text) (err : option text) (rc : Z)
    (d : delivery) : delivery :=
  {| id := id d;
     story_id := story_id d;
     user_id := user_id d;
     user_email := user_email d;
     deliver_at := deliver_at d;
     timezone := timezone d;
     status := st;
     sent_at := sent;
     resend_email_id := receipt;
     error_message := err;
     retry_count := rc;
     created_at := created_at d;
     updated_at := updated_at d |}.

(** Modelled from the spec: the selection of ClaimDueDelivery, which is part
    of the Python backend. "Selecting rows where status=Pending and
    deliverAt <= now." *)
Definition due (now : timestamptz) (d : delivery) : bool :=
  (status d =? "pending")%string && (deliver_at d <=? now).

(** Modelled from the spec: the transition of ClaimDueDelivery, which is
    part of the Python backend: the row goes to Sending. The table has no
    column for the claimant; the trigger stamps [updated_at]. *)
Definition sending_set (now : timestamptz) (d : delivery) : delivery :=
  update_updated_at_column now
    (with_result "sending" (sent_at d) (resend_email_id d) (error_message d)
       (retry_count d) d).

(** The claimed row is handed back whole. *)
Definition returning (d : delivery) : delivery := d.

(** Modelled from the spec: ClaimDueDelivery(workerID, now), which is part
    of the Python backend, "equivalent" to [claim_pending_job]: the oldest
    due row goes to Sending and is returned, or nothing is returned. *)
Definition claim_due_delivery (worker_id : text) (now : timestamptz)
    (t : table) : table * option delivery :=
  match option_map id (limit1 (order_by (asc created_at) (filter (due now) t)))
  with
  | None => (t, None)
  | Some k =>
      let hit := fun d => id d =? k in
      let t' := update_where hit (sending_set now) t in
      (t', hd_error (map returning (filter hit t')))
  end.

(** [WHERE id = i AND status = 'sending']: the delivery a worker holds. *)
Definition sending (i : uuid) (d : delivery) : bool :=
  (id d =? i) && (status d =? "sending")%string.

(** Modelled from the spec: the send succeeded (Python backend). "On success
    set Sent, sentAt=now, providerReceiptID=<result>." *)
Definition sent_set (now : timestamptz) (receipt : text)
    (d : delivery) : delivery :=
  with_result "sent" (Some now) (Some receipt) (error_message d)
    (retry_count d) d.

(** Modelled from the spec: the send failed with a retryable error (Python
    backend); the bounded-retry policy of the jobs applies. *)
Definition retry_set (err : text) (d : delivery) : delivery :=
  let n := retry_count d + 1 in
  if n <? max_retries
  then with_result "pending" (sent_at d) (resend_email_id d)
         (error_message d) n d
  else with_result "failed" (sent_at d) (resend_email_id d) (Some err) n d.

(** Modelled from the spec: the send failed with a fatal error (Python
    backend). *)
Definition fatal_set (err : text) (d : delivery) : delivery :=
  with_result "failed" (sent_at d) (resend_email_id d) (Some err)
    (retry_count d) d.

(** Modelled from the spec: the reaper's selection (Python backend), a row
    in Sending whose claim is older than the timeout; the time of the claim
    is the [updated_at] the trigger wrote. *)
Definition stale (now : timestamptz) (timeout : Z) (d : delivery) : bool :=
  (status d =? "sending")%string && (updated_at d <? now - timeout).

Inductive event :=
| Create (i story user : uuid) (email : text) (at_ : timestamptz)
    (tz : text) (now : timestamptz)
| ClaimDue (worker_id : text) (now : timestamptz)
| Sent (i : uuid) (now : timestamptz) (receipt : text)
| SendFailed (i : uuid) (now : timestamptz) (err : text)
| SendFatal (i : uuid) (now : timestamptz) (err : text)
| Reap (now : timestamptz) (timeout : Z) (err : text).

(** Modelled from the spec: the events of the delivery lifecycle, issued by
    the Python backend, each as one statement against the store. *)
Definition exec (fk : foreign) (e : event) (t : table) : table :=
  match e with
  | Create i story user email at_ tz now =>
      or_unchanged t
        (insert_delivery fk (fresh_delivery i story user email at_ tz now) t)
  | ClaimDue w now => fst (claim_due_delivery w now t)
  | Sent i now receipt =>
      or_unchanged t
        (update_deliveries fk now (sending i) (sent_set now receipt) t)
  | SendFailed i now err =>
      or_unchanged t (update_deliveries fk now (sending i) (retry_set err) t)
  | SendFatal i now err =>
      or_unchanged t (update_deliveries fk now (sending i) (fatal_set err) t)
  | Reap now timeout err =>
      or_unchanged t
        (update_deliveries fk now (stale now timeout) (retry_set err) t)
  end.

Fixpoint run_events (fk : foreign) (es : list event) (t : table) : table :=
  match es with
  | [] => t
  | e :: es' => run_events fk es' (exec fk e t)
  end.

(** *** Concurrent callers of ClaimDueDelivery *)

Definition caller := (text * timestamptz)%type.

Definition want (c : caller) : delivery -> bool := due (snd c).
Definition set_claimed (c : caller) : delivery -> delivery :=
  sending_set (snd c).
Definition taken (d : delivery) : bool := negb (status d =? "pending")%string.

Definition db := @SkipLocked.db delivery caller delivery.

Definition start (t : table) (callers : list caller) : db :=
  SkipLocked.start t callers.

Definition run (sched : list (nat * SkipLocked.action)) (s : db) : option db :=
  SkipLocked.run id created_at want set_claimed returning sched s.

Definition received (s : db) (i : nat) (o : delivery) : Prop :=
  SkipLocked.received s i o.

(** What identifies a delivery and when it is due. *)
Definition core (d : delivery) : uuid * uuid * timestamptz :=
  (id d, story_id d, deliver_at d).

(** *** Facts *)

Lemma claim_due_delivery_is_claim w now t :
  claim_due_delivery w now t =
  SkipLocked.claim id created_at want set_claimed returning (w, now) t.
Proof. reflexivity. Qed.

Lemma sending_keeps_id c d : id (set_claimed c d) = id d.
Proof. reflexivity. Qed.

Lemma sending_is_taken c d : taken (set_claimed c d) = true.
Proof. reflexivity. Qed.

Lemma due_not_taken c d : want c d = true -> taken d = false.
Proof.
  unfold want, due, taken. intros H.
  apply andb_true_iff in H. destruct H as [H _]. now rewrite H.
Qed.

Lemma due_spec now d :
  due now d = true <-> status d = "pending" /\ deliver_at d <= now.
Proof.
  unfold due. now rewrite andb_true_iff, String.eqb_eq, Z.leb_le.
Qed.

Lemma update_where_core p f (t : table) :
  (forall d, core (f d) = core d) ->
  map core (update_where p f t) = map core t.
Proof.
  intros Hf. unfold update_where. rewrite map_map. apply map_ext.
  intros d. destruct (p d); auto.
Qed.

Lemma retry_set_core err d : core (retry_set err d) = core d.
Proof. unfold retry_set. now destruct (_ <? _). Qed.

Lemma map_id_core (t : table) :
  map id t = map (fun c => fst (fst c)) (map core t).
Proof. rewrite map_map. reflexivity. Qed.

Lemma map_story_core (t : table) :
  map story_id t = map (fun c => snd (fst c)) (map core t).
Proof. rewrite map_map. reflexivity. Qed.

(** An event rewrites rows without touching what identifies them and
    when they are due, or appends one row with a new [id] for a story that
    had none. *)
Lemma exec_core fk e t :
  map core (exec fk e t) = map core t \/
  exists d, exec fk e t = t ++ [d] /\
    ~ In (id d) (map id t) /\ ~ In (story_id d) (map story_id t).
Proof.
  assert (Hupd : forall now p f,
            (forall d, core (f d) = core d) ->
            map core (or_unchanged t (update_deliveries fk now p f t)) =
            map core t).
  { intros now p f Hf. unfold update_deliveries.
    destruct (table_ok fk _); simpl; [|reflexivity].
    apply update_where_core. intros d. now rewrite <- (Hf d). }
  destruct e; simpl.
  - destruct (insert_delivery fk _ t) as [t'|] eqn:E; simpl; [|now left].
    apply insert_delivery_Some in E. right. eexists. exact E.
  - left. unfold claim_due_delivery.
    destruct (option_map id _); [|reflexivity]. simpl.
    now apply update_where_core.
  - left. now apply Hupd.
  - left. apply Hupd. apply retry_set_core.
  - left. now apply Hupd.
  - left. apply Hupd. apply retry_set_core.
Qed.

Lemma exec_unique fk e t :
  pk_unique t /\ unique_story t ->
  pk_unique (exec fk e t) /\ unique_story (exec fk e t).
Proof.
  unfold pk_unique, unique_story. intros [Hpk Hu].
  destruct (exec_core fk e t) as [E|(d & -> & Hi & Hs)].
  - now rewrite map_id_core, map_story_core, E, <- map_id_core,
      <- map_story_core.
  - rewrite !map_app. simpl. split; now apply NoDup_snoc.
Qed.

Lemma run_events_unique fk es : forall t,
  pk_unique t /\ unique_story t ->
  pk_unique (run_events fk es t) /\ unique_story (run_events fk es t).
Proof.
  induction es as [|e es IH]; simpl; intros t H; [assumption|].
  apply IH. now apply exec_unique.
Qed.

Lemma run_events_core fk es : forall t,
  exists l, map core (run_events fk es t) = map core t ++ l.
Proof.
  induction es as [|e es IH]; simpl; intros t.
  - exists []. now rewrite app_nil_r.
  - destruct (IH (exec fk e t)) as [l Hl]. rewrite Hl.
    destruct (exec_core fk e t) as [E|(d & -> & _)].
    + rewrite E. eauto.
    + rewrite map_app, <- app_assoc. eauto.
Qed.

(** *** Examples *)

Definition dlv_a : delivery :=
  fresh_delivery 1 7 40 "a@example.com" 1000 "UTC" 300.
Definition dlv_b : delivery :=
  fresh_delivery 2 8 40 "a@example.com" 900 "UTC" 400.
Definition dlv_future : delivery :=
  fresh_delivery 3 9 40 "a@example.com" 5000 "UTC" 100.

Example claim_due_example :
  claim_due_delivery "w1" 1200 [dlv_future; dlv_b; dlv_a] =
  ([dlv_future; dlv_b; sending_set 1200 dlv_a], Some (sending_set 1200 dlv_a)).
Proof. reflexivity. Qed.

Definition lifecycle : list event :=
  [Create 1 7 40 "a@example.com" 1000 "UTC" 300;
   Create 5 7 40 "a@example.com" 2000 "UTC" 310;
   ClaimDue "w1" 1200; SendFailed 1 1210 "timeout";
   ClaimDue "w2" 1300; Sent 1 1310 "re_123"].

Example lifecycle_result :
  map core (run_events refs lifecycle []) = [(1, 7, 1000)] /\
  map status (run_events refs lifecycle []) = ["sent"].
Proof. split; reflexivity. Qed.

(** *** The claim of a due delivery *)

(** C8. ClaimDueDelivery on the delivery table: when a row is pending
    with [deliver_at <= now], one such row goes to Sending, in place, and
    is returned; when there is none, nothing is returned and the table is
    as it was; and under every interleaving of concurrent callers two
    callers that each received a row received different rows. *)
Theorem claim_due_delivery_exclusive w now t callers sched s i j o o' :
  pk_unique t ->
  ((exists d, In d t /\ status d = "pending" /\ deliver_at d <= now) ->
   exists d l1 l2,
     t = l1 ++ d :: l2 /\
     status d = "pending" /\ deliver_at d <= now /\
     claim_due_delivery w now t =
       (l1 ++ sending_set now d :: l2, Some (sending_set now d)) /\
     status (sending_set now d) = "sending" /\
     id (sending_set now d) = id d) /\
  ((forall d, In d t -> ~ (status d = "pending" /\ deliver_at d <= now)) ->
   claim_due_delivery w now t = (t, None)) /\
  (run sched (start t callers) = Some s ->
   i <> j -> received s i o -> received s j o' -> id o <> id o').
Proof.
  intros Hpk.
  assert (Hcases := SkipLocked.claim_cases id created_at want set_claimed
                      returning sending_keeps_id (w, now) t Hpk).
  rewrite <- claim_due_delivery_is_claim in Hcases.
  unfold want in Hcases. simpl in Hcases.
  split; [|split].
  - intros (d0 & Hin0 & Hdue0). apply due_spec in Hdue0.
    destruct Hcases as [[Hnone _]|(d & l1 & l2 & Ht & Hw & _ & Hc)].
    + rewrite (Hnone d0 Hin0) in Hdue0. discriminate.
    + exists d, l1, l2. apply due_spec in Hw. destruct Hw as [Hp Hle].
      repeat split; auto.
  - intros Hnone.
    destruct Hcases as [[_ Hc]|(d & l1 & l2 & Ht & Hw & _ & _)];
      [exact Hc|].
    apply due_spec in Hw. exfalso. apply (Hnone d); [|exact Hw].
    subst t. apply in_or_app. right. now left.
  - intros Hrun.
    exact (SkipLocked.no_double_claim id created_at want set_claimed
             returning id taken sending_keeps_id sending_is_taken
             due_not_taken (fun d => eq_refl) t callers sched s i j o o'
             Hpk Hrun).
Qed.

Definition interleaved : list (nat * SkipLocked.action) :=
  [(0%nat, SkipLocked.Begin); (1%nat, SkipLocked.Begin);
   (0%nat, SkipLocked.Scan); (1%nat, SkipLocked.Scan);
   (1%nat, SkipLocked.Scan); (1%nat, SkipLocked.Commit);
   (0%nat, SkipLocked.Commit)].

Definition after_interleaved : db :=
  match run interleaved (start [dlv_a; dlv_b] [("w1", 1200); ("w2", 1201)])
  with
  | Some s => s
  | None => start [] []
  end.

Lemma claim_due_delivery_exclusive_witness :
  (exists d l1 l2,
     [dlv_a; dlv_b] = l1 ++ d :: l2 /\
     status d = "pending" /\ deliver_at d <= 1200 /\
     claim_due_delivery "w1" 1200 [dlv_a; dlv_b] =
       (l1 ++ sending_set 1200 d :: l2, Some (sending_set 1200 d)) /\
     status (sending_set 1200 d) = "sending" /\
     id (sending_set 1200 d) = id d) /\
  id (sending_set 1200 dlv_a) <> id (sending_set 1201 dlv_b).
Proof.
  destruct (claim_due_delivery_exclusive "w1" 1200 [dlv_a; dlv_b]
              [("w1", 1200); ("w2", 1201)] interleaved after_interleaved
              0%nat 1%nat (sending_set 1200 dlv_a) (sending_set 1201 dlv_b))
    as (Hsome & _ & Hconc).
  - unfold pk_unique. simpl. repeat constructor; simpl; intuition lia.
  - split.
    + apply Hsome. exists dlv_a. split; [simpl; auto|].
      split; [reflexivity|]. change (1000 <= 1200). lia.
    + apply Hconc.
      * reflexivity.
      * lia.
      * eexists. split; reflexivity.
      * eexists. split; reflexivity.
Defined.

(** *** [deliver_at] *)

(** C9. Through creation, claim, send, retry and reaper recovery, a
    delivery row stays in the table with the [deliver_at] it was created
    with, and no row of the same story carries another [deliver_at]: a
    second creation for the story adds nothing. *)
Theorem deliver_at_written_once fk es t d :
  pk_unique t -> unique_story t -> In d t ->
  (exists d', In d' (run_events fk es t) /\ id d' = id d) /\
  (forall d', In d' (run_events fk es t) ->
     id d' = id d \/ story_id d' = story_id d ->
     deliver_at d' = deliver_at d).
Proof.
  intros Hpk Hu Hin.
  destruct (run_events_unique fk es t (conj Hpk Hu)) as [Hpk' Hu'].
  destruct (run_events_core fk es t) as [l Hl].
  assert (Hc : In (core d) (map core (run_events fk es t))).
  { rewrite Hl. apply in_or_app. left. now apply in_map. }
  apply in_map_iff in Hc. destruct Hc as (d1 & Hcore & Hd1).
  unfold core in Hcore. inversion Hcore as [[Hid Hs Hat]].
  split; [eauto|].
  intros d' Hd' [E|E].
  - assert (d' = d1) by (eapply id_injective; eauto; congruence).
    now subst d'.
  - assert (d' = d1) by (eapply story_injective; eauto; congruence).
    now subst d'.
Qed.

Lemma deliver_at_written_once_witness :
  (exists d', In d' (run_events refs (tl lifecycle) [dlv_a]) /\
              id d' = id dlv_a) /\
  (forall d', In d' (run_events refs (tl lifecycle) [dlv_a]) ->
     id d' = id dlv_a \/ story_id d' = story_id dlv_a ->
     deliver_at d' = deliver_at dlv_a).
Proof.
  apply (deliver_at_written_once refs (tl lifecycle) [dlv_a] dlv_a).
  - unfold pk_unique. simpl. repeat constructor; simpl; intuition.
  - unfold unique_story. simpl. repeat constructor; simpl; intuition.
  - simpl. now left.
Defined.

End DeliveryWorker.

(** ** More about [claim_pending_job] and the job table *)

Module ClaimQueue.
Import Sql StoryJobs.

(** The jobs a call can take. *)
Definition waiting (t : table) : list story_job := filter eligible t.

Lemma row_ok_claim_set fk w now sj :
  row_ok fk sj = true -> row_ok fk (claim_set w now sj) = true.
Proof.
  unfold row_ok, status_check, progress_check. simpl.
  rewrite !andb_true_iff. tauto.
Qed.

Lemma update_where_col {B : Type} (col : story_job -> B) p f (t : table) :
  (forall sj, col (f sj) = col sj) ->
  map col (update_where p f t) = map col t.
Proof.
  intros Hf. unfold update_where. rewrite map_map. apply map_ext.
  intros sj. destruct (p sj); auto.
Qed.

Lemma NoDup_middle (l1 l2 : table) sj m :
  NoDup (map id (l1 ++ sj :: l2)) -> In m (l1 ++ l2) -> id m <> id sj.
Proof.
  intros Hnd Hm. rewrite map_app in Hnd. simpl in Hnd.
  apply NoDup_remove_2 in Hnd. intros E. apply Hnd.
  rewrite <- map_app, <- E. now apply in_map.
Qed.

Lemma filter_middle (l1 l2 : table) sj :
  filter eligible (l1 ++ sj :: l2) =
  filter eligible l1 ++ (if eligible sj then [sj] else []) ++ filter eligible l2.
Proof.
  rewrite filter_app. simpl. now destruct (eligible sj).
Qed.

Lemma start_unlocked t callers k :
  SkipLocked.row_locked (start t callers) k = false.
Proof.
  unfold SkipLocked.row_locked, start, SkipLocked.start. simpl.
  induction callers as [|c callers IH]; simpl; auto.
Qed.

(** X1. Two calls in a row that both return a job return different jobs,
    and the second was created no earlier than the first: the queue is
    served oldest first. *)
Theorem successive_claims_fifo w1 now1 w2 now2 t o1 o2 :
  pk_unique t ->
  snd (claim_pending_job w1 now1 t) = Some o1 ->
  snd (claim_pending_job w2 now2 (fst (claim_pending_job w1 now1 t))) = Some o2 ->
  cj_id o1 <> cj_id o2 /\ cj_created_at o1 <= cj_created_at o2.
Proof.
  intros Hpk H1 H2.
  destruct (claim_pending_job_cases w1 now1 t Hpk)
    as [[_ Hc]|(sj & l1 & l2 & Ht & Hel & Hmin & Hc)];
    rewrite Hc in H1, H2; simpl in H1, H2; [discriminate|].
  inversion H1; subst o1. clear H1.
  assert (Hpk' : pk_unique (l1 ++ claim_set w1 now1 sj :: l2)).
  { unfold pk_unique in *. subst t. rewrite map_app in *. exact Hpk. }
  destruct (claim_pending_job_cases w2 now2 _ Hpk')
    as [[_ Hc2]|(m & k1 & k2 & Ht2 & Hel2 & _ & Hc2)];
    rewrite Hc2 in H2; simpl in H2; [discriminate|].
  inversion H2; subst o2. clear H2. simpl.
  assert (Hm : In m (l1 ++ l2)).
  { assert (Hin : In m (l1 ++ claim_set w1 now1 sj :: l2))
      by (rewrite Ht2; apply in_or_app; right; now left).
    apply in_app_or in Hin. apply in_or_app.
    destruct Hin as [Hin|[<-|Hin]]; auto. discriminate. }
  subst t. split.
  - intros E. eapply NoDup_middle; eauto.
  - apply Hmin; [|assumption].
    apply in_app_or in Hm. apply in_or_app. simpl. tauto.
Qed.

Lemma successive_claims_fifo_witness :
  cj_id (returning job_a) <> cj_id (returning job_b) /\
  cj_created_at (returning job_a) <= cj_created_at (returning job_b).
Proof.
  apply (successive_claims_fifo (Some "w1") 500 (Some "w2") 501 [job_b; job_a]).
  - unfold pk_unique. simpl. repeat constructor; simpl; intuition lia.
  - reflexivity.
  - reflexivity.
Defined.

(** X2. A call takes exactly one job out of the jobs that can be taken,
    or none when there is none: the number of waiting jobs goes down by
    one, and never below zero. *)
Theorem claim_takes_one w now t :
  pk_unique t ->
  List.length (waiting (fst (claim_pending_job w now t))) =
  Nat.pred (List.length (waiting t)).
Proof.
  intros Hpk. unfold waiting.
  destruct (claim_pending_job_cases w now t Hpk)
    as [[Hnone ->]|(sj & l1 & l2 & Ht & Hel & _ & ->)]; simpl.
  - assert (E : filter eligible t = []).
    { destruct (filter eligible t) as [|a l] eqn:F; [reflexivity|].
      assert (Ha : In a (filter eligible t)) by (rewrite F; now left).
      apply filter_In in Ha. destruct Ha as [Ha Hel].
      rewrite (Hnone a Ha) in Hel. discriminate. }
    now rewrite E.
  - subst t. rewrite !filter_middle, Hel. simpl.
    rewrite !length_app. simpl. lia.
Qed.

Lemma claim_takes_one_witness :
  List.length (waiting (fst (claim_pending_job (Some "w1") 500 [job_b; job_a]))) =
  Nat.pred (List.length (waiting [job_b; job_a])).
Proof.
  apply (claim_takes_one (Some "w1") 500 [job_b; job_a]).
  unfold pk_unique. simpl. repeat constructor; simpl; intuition lia.
Defined.

(** X3. The [UPDATE] of [claim_pending_job] cannot trip a constraint of
    [story_jobs]: on a table that satisfies its checks, keys and foreign
    keys, the table after the call satisfies them too, with the same rows
    in the same places as far as [id] and [job_id] go. *)
Theorem claim_keeps_constraints fk w now t :
  table_ok fk t = true ->
  table_ok fk (fst (claim_pending_job w now t)) = true /\
  map id (fst (claim_pending_job w now t)) = map id t /\
  map job_id (fst (claim_pending_job w now t)) = map job_id t.
Proof.
  intros Hok.
  assert (Hids := claim_pending_job_ids w now t).
  assert (Hjobs : map job_id (fst (claim_pending_job w now t)) = map job_id t).
  { unfold claim_pending_job. destruct (candidate t); [|reflexivity].
    simpl. now apply update_where_col. }
  split; [|now split].
  unfold table_ok in *. rewrite Hids, Hjobs.
  rewrite !andb_true_iff in *. destruct Hok as [[Hrows H1] H2].
  repeat split; auto.
  unfold claim_pending_job. destruct (candidate t); [|exact Hrows]. simpl.
  rewrite forallb_forall in *. intros x Hx.
  apply update_where_inv in Hx. destruct Hx as (sj & Hin & ->).
  destruct (id sj =? u); [apply row_ok_claim_set|]; auto.
Qed.

Lemma claim_keeps_constraints_witness :
  table_ok (mk_foreign [] [] []) (fst (claim_pending_job (Some "w1") 500 [job_b; job_a]))
    = true /\
  map id (fst (claim_pending_job (Some "w1") 500 [job_b; job_a])) =
    map id [job_b; job_a] /\
  map job_id (fst (claim_pending_job (Some "w1") 500 [job_b; job_a])) =
    map job_id [job_b; job_a].
Proof.
  apply (claim_keeps_constraints (mk_foreign [] [] []) (Some "w1") 500 [job_b; job_a]).
  reflexivity.
Defined.

(** X4. Under every interleaving of concurrent callers, the job a caller
    received was pending with [retry_count < 3] in the table the callers
    started from, the returned columns are those of that row, and the
    table holds the row as that caller wrote it: running, with that
    caller's [worker_id] in [claimed_by] and its [NOW()] in [claimed_at]
    and [started_at]. *)
Theorem received_job_names_receiver t callers sched s i o :
  pk_unique t ->
  run sched (start t callers) = Some s ->
  received s i o ->
  exists w now sj,
    nth_error callers i = Some (w, now) /\
    In sj t /\ status sj = "pending" /\ retry_count sj < 3 /\
    o = returning sj /\
    lookup id (cj_id o) (SkipLocked.rows s) = Some (claim_set w now sj).
Proof.
  intros Hpk Hrun Hrec.
  destruct (SkipLocked.received_is_own id created_at want set_claimed
              returning cj_id taken key_set_claimed taken_set_claimed
              want_not_taken id_returning t callers sched s i o Hpk Hrun
              Hrec)
    as ([w now] & sj & Hc & Hin & Hw & Ho & Hlk).
  apply eligible_spec in Hw. destruct Hw as [Hp Hlt].
  exists w, now, sj. subst o. repeat split; auto.
Qed.

Lemma received_job_names_receiver_witness :
  exists w now sj,
    nth_error [(Some "w1", 500); (Some "w2", 501)] 1 = Some (w, now) /\
    In sj [job_a; job_b] /\ status sj = "pending" /\ retry_count sj < 3 /\
    returning job_b = returning sj /\
    lookup id (cj_id (returning job_b)) (SkipLocked.rows after_interleaved) =
      Some (claim_set w now sj).
Proof.
  apply (received_job_names_receiver [job_a; job_b]
           [(Some "w1", 500); (Some "w2", 501)] interleaved after_interleaved 1%nat
           (returning job_b)).
  - unfold pk_unique. simpl. repeat constructor; simpl; intuition lia.
  - reflexivity.
  - eexists. split; reflexivity.
Defined.

(** X5. When no transaction aborts, a caller comes back empty-handed only
    if every job that can be taken is at that moment locked by another
    caller: for each pending job with [retry_count < 3] in the table there
    is a transaction that holds its lock. *)
Theorem empty_result_means_none_free t callers sched s i sj :
  pk_unique t ->
  Forall (fun m => snd m <> SkipLocked.Abort) sched ->
  run sched (start t callers) = Some s ->
  SkipLocked.phase_at (SkipLocked.txns s) i (SkipLocked.Returned None) ->
  In sj (SkipLocked.rows s) -> status sj = "pending" -> retry_count sj < 3 ->
  exists j, SkipLocked.phase_at (SkipLocked.txns s) j
              (SkipLocked.Locked (id sj)).
Proof.
  intros Hpk Hna Hrun (x & Hx & Hst) Hin Hp Hlt.
  apply SkipLocked.row_locked_spec.
  eapply (SkipLocked.empty_handed_only_if_held id created_at want
            set_claimed returning cj_id taken key_set_claimed
            taken_set_claimed want_not_taken id_returning
            t callers sched s i x sj); eauto.
  apply eligible_spec. auto.
Qed.

Definition blocked : list (nat * SkipLocked.action) :=
  [(0%nat, SkipLocked.Begin); (1%nat, SkipLocked.Begin);
   (1%nat, SkipLocked.Scan); (0%nat, SkipLocked.Scan);
   (0%nat, SkipLocked.Scan)].

Definition after_blocked : db :=
  match run blocked (start [job_a] [(Some "w1", 500); (Some "w2", 501)]) with
  | Some s => s
  | None => start [] []
  end.

Lemma empty_result_means_none_free_witness :
  exists j, SkipLocked.phase_at (SkipLocked.txns after_blocked) j
              (SkipLocked.Locked (id job_a)).
Proof.
  apply (empty_result_means_none_free [job_a] [(Some "w1", 500); (Some "w2", 501)]
           blocked after_blocked 0%nat job_a).
  - unfold pk_unique. simpl. repeat constructor; simpl; intuition.
  - unfold blocked. repeat constructor; simpl; discriminate.
  - reflexivity.
  - eexists. split; reflexivity.
  - simpl. now left.
  - reflexivity.
  - change (0 < 3). lia.
Defined.

(** X9. When no transaction aborts and every call has returned, a caller
    that got the empty set leaves no pending job with [retry_count < 3] in
    the table: no job is passed over by everyone. *)
Theorem all_returned_none_left t callers sched s i sj :
  pk_unique t ->
  Forall (fun m => snd m <> SkipLocked.Abort) sched ->
  run sched (start t callers) = Some s ->
  (forall j y, nth_error (SkipLocked.txns s) j = Some y ->
     exists out, SkipLocked.stage y = SkipLocked.Returned out) ->
  SkipLocked.phase_at (SkipLocked.txns s) i (SkipLocked.Returned None) ->
  In sj (SkipLocked.rows s) ->
  ~ (status sj = "pending" /\ retry_count sj < 3).
Proof.
  intros Hpk Hna Hrun Hall (x & Hx & Hst) Hin [Hp Hlt].
  assert (Hl : SkipLocked.row_locked s (id sj) = true).
  { eapply (SkipLocked.empty_handed_only_if_held id created_at want
              set_claimed returning cj_id taken key_set_claimed
              taken_set_claimed want_not_taken id_returning
              t callers sched s i x sj); eauto.
    apply eligible_spec. auto. }
  apply SkipLocked.row_locked_spec in Hl.
  destruct Hl as (j & y & Hy & Hyst).
  destruct (Hall j y Hy) as [out Hout]. congruence.
Qed.

Definition one_job_two_callers : list (nat * SkipLocked.action) :=
  [(0%nat, SkipLocked.Begin); (1%nat, SkipLocked.Begin);
   (1%nat, SkipLocked.Scan); (0%nat, SkipLocked.Scan);
   (0%nat, SkipLocked.Scan); (1%nat, SkipLocked.Commit)].

Definition after_one_job : db :=
  match run one_job_two_callers (start [job_a] [(Some "w1", 500); (Some "w2", 501)])
  with
  | Some s => s
  | None => start [] []
  end.

Lemma all_returned_none_left_witness :
  ~ (status (claim_set (Some "w2") 501 job_a) = "pending" /\
     retry_count (claim_set (Some "w2") 501 job_a) < 3).
Proof.
  apply (all_returned_none_left [job_a] [(Some "w1", 500); (Some "w2", 501)]
           one_job_two_callers after_one_job 0%nat
           (claim_set (Some "w2") 501 job_a)).
  - unfold pk_unique. simpl. repeat constructor; simpl; intuition.
  - unfold one_job_two_callers. repeat constructor; simpl; discriminate.
  - reflexivity.
  - intros [|[|j]] y Hy; simpl in Hy; inversion Hy; subst; simpl; eauto.
    destruct j; discriminate.
  - eexists. split; reflexivity.
  - simpl. now left.
Defined.

(** X6. A caller whose transaction runs from start to end while no other
    transaction holds a lock gets what [claim_pending_job] run alone
    gives, and leaves the table that it leaves. *)
Theorem lone_caller_runs_claim_pending_job t callers i w now :
  pk_unique t ->
  nth_error callers i = Some (w, now) ->
  exists sched s,
    Forall (fun m => fst m = i) sched /\
    run sched (start t callers) = Some s /\
    SkipLocked.rows s = fst (claim_pending_job w now t) /\
    SkipLocked.phase_at (SkipLocked.txns s) i
      (SkipLocked.Returned (snd (claim_pending_job w now t))).
Proof.
  intros Hpk Hc.
  assert (Hx : nth_error (SkipLocked.txns (start t callers)) i =
               Some (SkipLocked.mk_txn (res := claimed_job) (w, now)
                       SkipLocked.Idle)).
  { unfold start, SkipLocked.start. cbn [SkipLocked.txns].
    exact (map_nth_error _ _ _ Hc). }
  destruct (SkipLocked.serial_is_claim id created_at want set_claimed
              returning (start t callers) i _ Hpk Hx eq_refl
              (start_unlocked t callers))
    as (sched & s & H1 & H2 & H3 & H4).
  exists sched, s. repeat split; auto.
Qed.

Lemma lone_caller_runs_claim_pending_job_witness :
  exists sched s,
    Forall (fun m => fst m = 1%nat) sched /\
    run sched (start [job_b; job_a] [(Some "w1", 500); (Some "w2", 501)]) = Some s /\
    SkipLocked.rows s = fst (claim_pending_job (Some "w2") 501 [job_b; job_a]) /\
    SkipLocked.phase_at (SkipLocked.txns s) 1
      (SkipLocked.Returned (snd (claim_pending_job (Some "w2") 501 [job_b; job_a]))).
Proof.
  apply (lone_caller_runs_claim_pending_job [job_b; job_a]
           [(Some "w1", 500); (Some "w2", 501)] 1%nat (Some "w2") 501).
  - unfold pk_unique. simpl. repeat constructor; simpl; intuition lia.
  - reflexivity.
Defined.

Lemma distinct_snoc_Z (l : list Z) (k : Z) :
  distinct Z.eqb l = true ->
  distinct Z.eqb (l ++ [k]) = negb (existsb (Z.eqb k) l).
Proof.
  induction l as [|a l IH]; simpl; intros H; [reflexivity|].
  apply andb_true_iff in H. destruct H as [Ha Hl].
  rewrite existsb_app, IH by assumption. simpl.
  apply negb_true_iff in Ha. rewrite Ha, orb_false_r. simpl.
  rewrite (Z.eqb_sym a k). destruct (k =? a); reflexivity.
Qed.

Lemma distinct_snoc_string (l : list string) (k : string) :
  distinct String.eqb l = true ->
  distinct String.eqb (l ++ [k]) = negb (existsb (String.eqb k) l).
Proof.
  induction l as [|a l IH]; simpl; intros H; [reflexivity|].
  apply andb_true_iff in H. destruct H as [Ha Hl].
  rewrite existsb_app, IH by assumption. simpl.
  apply negb_true_iff in Ha. rewrite Ha, orb_false_r. simpl.
  rewrite (String.eqb_sym a k). destruct (String.eqb k a); reflexivity.
Qed.

(** X7. On a table that satisfies its constraints, the [INSERT] of a new
    job (all other columns at their defaults) is accepted exactly when
    neither its [id] nor its [job_id] is in the table; accepted, it adds
    the job at the end, pending, with [retry_count] 0 and no claimant. *)
Theorem insert_fresh_job_accepted fk i name bible email now t :
  table_ok fk t = true ->
  insert_job fk (fresh_job i name bible email now) t =
  if negb (existsb (Z.eqb i) (map id t))
     && negb (existsb (String.eqb name) (map job_id t))
  then Some (t ++ [fresh_job i name bible email now])
  else None.
Proof.
  intros Hok. unfold insert_job, table_ok in *.
  rewrite !andb_true_iff in Hok. destruct Hok as [[Hrows Hid] Hjob].
  rewrite forallb_app, Hrows, !map_app. simpl.
  rewrite distinct_snoc_Z, distinct_snoc_string by assumption.
  destruct (negb (existsb (Z.eqb i) (map id t))),
    (negb (existsb (String.eqb name) (map job_id t))); reflexivity.
Qed.

Lemma insert_fresh_job_accepted_witness :
  insert_job (mk_foreign [] [] [])
    (fresh_job 2 "job-b" "{}" "b@example.com" 200) [job_a] =
  if negb (existsb (Z.eqb 2) (map id [job_a]))
     && negb (existsb (String.eqb "job-b") (map job_id [job_a]))
  then Some ([job_a] ++ [fresh_job 2 "job-b" "{}" "b@example.com" 200])
  else None.
Proof.
  apply (insert_fresh_job_accepted (mk_foreign [] [] []) 2 "job-b" "{}"
           "b@example.com" 200 [job_a]).
  reflexivity.
Defined.

(** X8. Enqueue, then claim: when no job is waiting, a job whose [INSERT]
    was accepted is the job the next call returns, whoever calls and
    whenever. *)
Theorem enqueued_job_is_claimed_next fk i name bible email at_ w now t t' :
  (forall sj, In sj t -> eligible sj = false) ->
  insert_job fk (fresh_job i name bible email at_) t = Some t' ->
  claim_pending_job w now t' =
  (t ++ [claim_set w now (fresh_job i name bible email at_)],
   Some (returning (fresh_job i name bible email at_))).
Proof.
  intros Hnone Hins. unfold insert_job in Hins.
  destruct (table_ok fk _) eqn:Hok; inversion Hins; subst t'. clear Hins.
  apply table_ok_pk in Hok.
  destruct (claim_pending_job_cases w now _ Hok)
    as [[Hno _]|(sj & l1 & l2 & Ht & Hel & _ & ->)].
  - assert (Hf : eligible (fresh_job i name bible email at_) = false)
      by (apply Hno, in_or_app; right; now left).
    discriminate.
  - assert (Hsj : In sj (t ++ [fresh_job i name bible email at_]))
      by (rewrite Ht; apply in_or_app; right; now left).
    apply in_app_or in Hsj. destruct Hsj as [Hsj|[<-|[]]].
    + rewrite (Hnone sj Hsj) in Hel. discriminate.
    + assert (Hl2 : l2 = []).
      { destruct l2 as [|b l2r]; [reflexivity|]. exfalso.
        destruct (@exists_last _ (b :: l2r)) as (l' & a & E); [discriminate|].
        rewrite E in Ht.
        replace (l1 ++ fresh_job i name bible email at_ :: l' ++ [a])
          with ((l1 ++ fresh_job i name bible email at_ :: l') ++ [a]) in Ht
          by (rewrite <- app_assoc; reflexivity).
        apply app_inj_tail in Ht. destruct Ht as [Ht _].
        unfold pk_unique in Hok. rewrite map_app in Hok. simpl in Hok.
        apply NoDup_remove_2 in Hok. apply Hok. rewrite app_nil_r.
        change (In (id (fresh_job i name bible email at_)) (map id t)).
        apply in_map. rewrite Ht. apply in_or_app. right. now left. }
      subst l2. apply app_inj_tail in Ht. destruct Ht as [-> _].
      reflexivity.
Qed.

Lemma enqueued_job_is_claimed_next_witness :
  claim_pending_job (Some "w1") 900
    ([job_done] ++ [fresh_job 2 "job-b" "{}" "b@example.com" 200]) =
  ([job_done] ++ [claim_set (Some "w1") 900
                    (fresh_job 2 "job-b" "{}" "b@example.com" 200)],
   Some (returning (fresh_job 2 "job-b" "{}" "b@example.com" 200))).
Proof.
  apply (enqueued_job_is_claimed_next (mk_foreign [] [] []) 2 "job-b" "{}"
           "b@example.com" 200 (Some "w1") 900 [job_done]).
  - intros sj [<-|[]]. reflexivity.
  - reflexivity.
Defined.

End ClaimQueue.

(** ** More about [scheduled_deliveries]: the store and the migration *)

Module DeliveryStore.
Import Sql ScheduledDeliveries.

Lemma filter_all {A : Type} (p : A -> bool) (l : list A) :
  (forall x, In x l -> p x = true) -> filter p l = l.
Proof.
  induction l as [|a l IH]; simpl; intros H; [reflexivity|].
  rewrite (H a (or_introl eq_refl)). f_equal. apply IH. auto.
Qed.

Lemma find_snoc {A : Type} (p : A -> bool) (l : list A) (d : A) :
  find p (l ++ [d]) =
  match find p l with
  | Some x => Some x
  | None => if p d then Some d else None
  end.
Proof.
  induction l as [|a l IH]; simpl; [reflexivity|].
  destruct (p a); auto.
Qed.

Lemma find_absent (col : delivery -> Z) (k : Z) (t : table) :
  ~ In k (map col t) -> find (fun d => col d =? k) t = None.
Proof.
  intros H. destruct (find _ t) as [d|] eqn:E; [|reflexivity].
  apply find_some in E. destruct E as [Hin Hk]. apply Z.eqb_eq in Hk.
  exfalso. apply H. rewrite <- Hk. now apply in_map.
Qed.

(** X10. On a table in which no two rows share a story the [DELETE] of
    the migration removes nothing. *)
Theorem delete_duplicates_keeps_unique_table t :
  unique_story t -> delete_duplicates t = t.
Proof.
  intros Hu. unfold delete_duplicates, delete_where. apply filter_all.
  intros d Hd. rewrite negb_involutive. apply existsb_eqb_In.
  unfold first_created. apply in_map.
  assert (Hd' : In d (order_by by_story_then_created t))
    by now apply (order_by_In by_story_then_created).
  destruct (distinct_on_covers _ None d (ordered_order_by t) Hd')
    as (k & Hk & Hs & _); [discriminate|].
  assert (Hkt : In k t).
  { apply (order_by_In by_story_then_created). eapply distinct_on_In; eauto. }
  assert (k = d) by (eapply story_injective; eauto). now subst.
Qed.

Lemma delete_duplicates_keeps_unique_table_witness :
  delete_duplicates [dlv_first; dlv_other] = [dlv_first; dlv_other].
Proof.
  apply (delete_duplicates_keeps_unique_table [dlv_first; dlv_other]).
  unfold unique_story. simpl. repeat constructor; simpl; intuition lia.
Defined.

(** The table together with what the catalog says of it: whether a
    constraint named [unique_story_delivery] is declared. *)
Record relation := mk_relation {
  constrained : bool;
  rows : table
}.

Inductive ddl_error :=
| duplicate_table    (* 42P07: relation already exists *)
| duplicate_key.     (* 23505: could not create unique index *)

(** [ALTER TABLE ... ADD CONSTRAINT unique_story_delivery UNIQUE
    (story_id)] has no [IF NOT EXISTS]: when the name is taken the
    statement raises before any row is looked at; otherwise the index is
    built, which fails when two rows share a [story_id]. *)
Definition alter_table_add_constraint (r : relation)
    : ddl_error + relation :=
  if constrained r then inl duplicate_table
  else
    match add_unique_story_delivery (rows r) with
    | Some t => inr {| constrained := true; rows := t |}
    | None => inl duplicate_key
    end.

(** The migration file against a database: the [DELETE], then the [ALTER
    TABLE].  ([CREATE INDEX IF NOT EXISTS], its last statement, neither
    fails nor touches a row.) *)
Definition run_migration (r : relation) : ddl_error + relation :=
  alter_table_add_constraint
    {| constrained := constrained r; rows := delete_duplicates (rows r) |}.

Lemma delete_duplicates_fixed t :
  pk_unique t -> delete_duplicates (delete_duplicates t) = delete_duplicates t.
Proof.
  intros Hpk. assert (Hu := delete_duplicates_unique t Hpk).
  set (t' := delete_duplicates t) in *.
  unfold delete_duplicates at 1, delete_where. apply filter_all.
  intros d Hd. rewrite negb_involutive. apply existsb_eqb_In.
  unfold first_created. apply in_map.
  assert (Hd' : In d (order_by by_story_then_created t'))
    by now apply (order_by_In by_story_then_created).
  destruct (distinct_on_covers _ None d (ordered_order_by t') Hd')
    as (k & Hk & Hs & _); [discriminate|].
  assert (Hkt : In k t').
  { apply (order_by_In by_story_then_created). eapply distinct_on_In; eauto. }
  assert (k = d) by (eapply story_injective; eauto). now subst.
Qed.

(** X11. The migration can be applied once.  Its [DELETE] is idempotent:
    run a second time it removes nothing.  On a table that does not carry
    the constraint the migration goes through and leaves the rows the
    [DELETE] leaves, with the constraint declared; run again on that
    result it does not go through: the [ALTER TABLE] raises, the name
    being taken. *)
Theorem delete_duplicates_idempotent t :
  pk_unique t ->
  delete_duplicates (delete_duplicates t) = delete_duplicates t /\
  run_migration {| constrained := false; rows := t |} =
    inr {| constrained := true; rows := delete_duplicates t |} /\
  run_migration {| constrained := true; rows := delete_duplicates t |} =
    inl duplicate_table.
Proof.
  intros Hpk. assert (Hu := delete_duplicates_unique t Hpk).
  split; [now apply delete_duplicates_fixed|]. split; [|reflexivity].
  unfold run_migration, alter_table_add_constraint, add_unique_story_delivery.
  simpl. now rewrite (NoDup_distinct _ Hu).
Qed.

Lemma delete_duplicates_idempotent_witness :
  delete_duplicates (delete_duplicates [dlv_late; dlv_first; dlv_other]) =
    delete_duplicates [dlv_late; dlv_first; dlv_other] /\
  run_migration
    {| constrained := false; rows := [dlv_late; dlv_first; dlv_other] |} =
    inr {| constrained := true;
           rows := delete_duplicates [dlv_late; dlv_first; dlv_other] |} /\
  run_migration
    {| constrained := true;
       rows := delete_duplicates [dlv_late; dlv_first; dlv_other] |} =
    inl duplicate_table.
Proof.
  apply (delete_duplicates_idempotent [dlv_late; dlv_first; dlv_other]).
  unfold pk_unique. simpl. repeat constructor; simpl; intuition lia.
Defined.

(** X12. An accepted [INSERT] can be read back: the new row is the row
    found by its [story_id] and by its [id], and what the table held under
    any other [story_id] is found as before. *)
Theorem insert_delivery_then_lookup fk d t t' k :
  insert_delivery fk d t = Some t' ->
  lookup story_id (story_id d) t' = Some d /\
  lookup id (id d) t' = Some d /\
  (k <> story_id d -> lookup story_id k t' = lookup story_id k t).
Proof.
  intros H. apply insert_delivery_Some in H.
  destruct H as (-> & Hid & Hs). unfold lookup. rewrite !find_snoc.
  rewrite (find_absent story_id _ t Hs), (find_absent id _ t Hid).
  rewrite !Z.eqb_refl. repeat split.
  intros Hk. destruct (find _ t); [reflexivity|].
  destruct (story_id d =? k) eqn:E; [|reflexivity].
  apply Z.eqb_eq in E. congruence.
Qed.

Lemma insert_delivery_then_lookup_witness :
  lookup story_id (story_id dlv_other) ([dlv_first] ++ [dlv_other]) =
    Some dlv_other /\
  lookup id (id dlv_other) ([dlv_first] ++ [dlv_other]) = Some dlv_other /\
  (7 <> story_id dlv_other ->
   lookup story_id 7 ([dlv_first] ++ [dlv_other]) =
   lookup story_id 7 [dlv_first]).
Proof.
  apply (insert_delivery_then_lookup refs dlv_other [dlv_first]
           ([dlv_first] ++ [dlv_other]) 7).
  reflexivity.
Defined.

(** X13. An accepted [UPDATE] keeps the number of rows; a row of the
    result is either a row the WHERE clause did not select, untouched, or
    carries the time of the statement in [updated_at], whatever the SET
    clause wrote there; and the result has no two rows with the same [id]
    or the same [story_id]. *)
Theorem update_deliveries_stamps fk now p f t t' :
  update_deliveries fk now p f t = Some t' ->
  List.length t' = List.length t /\
  (forall d', In d' t' ->
     (In d' t /\ p d' = false) \/ updated_at d' = now) /\
  pk_unique t' /\ unique_story t'.
Proof.
  unfold update_deliveries.
  destruct (table_ok fk _) eqn:Hok; [|discriminate].
  intros H; inversion H; subst t'. clear H.
  split; [apply length_map|]. split; [|now apply table_ok_unique in Hok].
  intros d' Hd'. apply update_where_inv in Hd'.
  destruct Hd' as (d & Hd & ->). destruct (p d) eqn:E.
  - now right.
  - left. split; assumption.
Qed.

Definition backdate (d : delivery) : delivery :=
  mk_delivery (id d) (story_id d) (user_id d) (user_email d) (deliver_at d)
    (timezone d) "sending" (sent_at d) (resend_email_id d) (error_message d)
    (retry_count d) (created_at d) 0.

Lemma update_deliveries_stamps_witness :
  List.length [dlv_first; update_updated_at_column 777 (backdate dlv_other)] =
    List.length [dlv_first; dlv_other] /\
  (forall d', In d' [dlv_first;
                     update_updated_at_column 777 (backdate dlv_other)] ->
     (In d' [dlv_first; dlv_other] /\ (id d' =? 3) = false) \/
     updated_at d' = 777) /\
  pk_unique [dlv_first; update_updated_at_column 777 (backdate dlv_other)] /\
  unique_story [dlv_first; update_updated_at_column 777 (backdate dlv_other)].
Proof.
  apply (update_deliveries_stamps refs 777 (fun d => id d =? 3) backdate
           [dlv_first; dlv_other]).
  reflexivity.
Defined.

End DeliveryStore.

(** ** The schema audit script: what is pending, what failed *)

Module SchemaAudit.
Import Sql.

Section Newest.
Context {row : Type}.
Variable col : row -> Z.
Variable keep : row -> bool.
Variable n : nat.

(** The comparison of [ORDER BY col DESC]. *)
Definition desc (a b : row) : bool := col b <=? col a.

(** [SELECT ... WHERE keep ORDER BY col DESC LIMIT n], before the
    projection. *)
Definition newest (t : list row) : list row :=
  firstn n (order_by desc (filter keep t)).

Lemma desc_total a b : desc a b = true \/ desc b a = true.
Proof. unfold desc. rewrite !Z.leb_le. lia. Qed.

Lemma desc_trans a b c :
  desc a b = true -> desc b c = true -> desc a c = true.
Proof. unfold desc. rewrite !Z.leb_le. lia. Qed.

Lemma sorted_app_inv (leb : row -> row -> bool) (l1 l2 : list row) :
  sorted_by leb (l1 ++ l2) ->
  sorted_by leb l1 /\
  forall a b, In a l1 -> In b l2 -> leb a b = true.
Proof.
  unfold sorted_by. induction l1 as [|x l1 IH]; simpl; intros H.
  - split; [constructor|]. intros a b [].
  - apply StronglySorted_inv in H. destruct H as [Hs Hall].
    destruct (IH Hs) as [H1 H2]. rewrite Forall_forall in Hall.
    split.
    + constructor; [assumption|]. apply Forall_forall.
      intros y Hy. apply Hall, in_or_app. now left.
    + intros a b [<-|Ha] Hb; [|auto]. apply Hall, in_or_app. now right.
Qed.

Lemma newest_facts (t : list row) :
  (List.length (newest t) <= n)%nat /\
  (forall r, In r (newest t) -> In r t /\ keep r = true) /\
  sorted_by desc (newest t) /\
  (forall r, In r t -> keep r = true ->
     In r (newest t) \/ forall a, In a (newest t) -> col r <= col a) /\
  ((List.length (filter keep t) <= n)%nat ->
   forall r, In r t -> keep r = true -> In r (newest t)).
Proof.
  unfold newest. set (l := order_by desc (filter keep t)).
  assert (Hsplit : firstn n l ++ skipn n l = l) by apply firstn_skipn.
  assert (Hsorted : sorted_by desc (firstn n l ++ skipn n l)).
  { rewrite Hsplit. apply order_by_sorted; [apply desc_total|].
    apply desc_trans. }
  destruct (sorted_app_inv desc _ _ Hsorted) as [Hfirst Hcross].
  assert (Hmem : forall r, In r l <-> In r t /\ keep r = true).
  { intros r. unfold l. rewrite (order_by_In desc). apply filter_In. }
  split; [apply firstn_le_length|]. split; [|split; [exact Hfirst|split]].
  - intros r Hr. apply Hmem. rewrite <- Hsplit. apply in_or_app. now left.
  - intros r Hr Hk. assert (Hl : In r l) by (apply Hmem; auto).
    rewrite <- Hsplit in Hl. apply in_app_or in Hl.
    destruct Hl as [Hl|Hl]; [now left|right].
    intros a Ha. specialize (Hcross a r Ha Hl). unfold desc in Hcross.
    now apply Z.leb_le.
  - intros Hlen r Hr Hk. assert (Hl : In r l) by (apply Hmem; auto).
    rewrite firstn_all2; [assumption|].
    unfold l. rewrite <- (Permutation_length (order_by_perm desc _)).
    exact Hlen.
Qed.

End Newest.

(** *** Pending story jobs *)

(** [WHERE status IN ('pending', 'running')]. *)
Definition active (sj : StoryJobs.story_job) : bool :=
  existsb (String.eqb (StoryJobs.status sj)) ["pending"; "running"].

(** [SELECT job_id, user_email, status, created_at, current_step]. *)
Record job_line := mk_job_line {
  jl_job_id : text;
  jl_user_email : text;
  jl_status : text;
  jl_created_at : timestamptz;
  jl_current_step : option text
}.

Definition job_line_of (sj : StoryJobs.story_job) : job_line :=
  {| jl_job_id := StoryJobs.job_id sj;
     jl_user_email := StoryJobs.user_email sj;
     jl_status := StoryJobs.status sj;
     jl_created_at := StoryJobs.created_at sj;
     jl_current_step := StoryJobs.current_step sj |}.

(** [SELECT job_id, user_email, status, created_at, current_step
    FROM public.story_jobs WHERE status IN ('pending', 'running')
    ORDER BY created_at DESC LIMIT 10]. *)
Definition pending_story_jobs (t : StoryJobs.table) : list job_line :=
  map job_line_of (newest StoryJobs.created_at active 10 t).

(** *** Pending deliveries *)

(** [WHERE status = 'pending']. *)
Definition unsent (d : ScheduledDeliveries.delivery) : bool :=
  (ScheduledDeliveries.status d =? "pending")%string.

(** [SELECT id, user_email, status, deliver_at, story_id]. *)
Record delivery_line := mk_delivery_line {
  dl_id : uuid;
  dl_user_email : text;
  dl_status : text;
  dl_deliver_at : timestamptz;
  dl_story_id : uuid
}.

Definition delivery_line_of (d : ScheduledDeliveries.delivery)
    : delivery_line :=
  {| dl_id := ScheduledDeliveries.id d;
     dl_user_email := ScheduledDeliveries.user_email d;
     dl_status := ScheduledDeliveries.status d;
     dl_deliver_at := ScheduledDeliveries.deliver_at d;
     dl_story_id := ScheduledDeliveries.story_id d |}.

(** [SELECT id, user_email, status, deliver_at, story_id
    FROM public.scheduled_deliveries WHERE status = 'pending'
    ORDER BY deliver_at DESC LIMIT 10]. *)
Definition pending_deliveries (t : ScheduledDeliveries.table)
    : list delivery_line :=
  map delivery_line_of (newest ScheduledDeliveries.deliver_at unsent 10 t).

Lemma active_spec sj :
  active sj = true <->
  StoryJobs.status sj = "pending" \/ StoryJobs.status sj = "running".
Proof.
  unfold active. simpl. rewrite !orb_true_iff, !String.eqb_eq.
  intuition discriminate.
Qed.

(** X14. The audit's listing of pending story jobs shows at most ten
    jobs, each pending or running, newest first; a pending or running job
    that is left out was created no later than every job shown; and when
    at most ten jobs are pending or running, all of them are shown. *)
Theorem pending_story_jobs_newest_ten t :
  (List.length (pending_story_jobs t) <= 10)%nat /\
  (forall l, In l (pending_story_jobs t) ->
     jl_status l = "pending" \/ jl_status l = "running") /\
  StronglySorted (fun a b => jl_created_at b <= jl_created_at a)
    (pending_story_jobs t) /\
  (forall sj, In sj t ->
     StoryJobs.status sj = "pending" \/ StoryJobs.status sj = "running" ->
     In (job_line_of sj) (pending_story_jobs t) \/
     forall l, In l (pending_story_jobs t) ->
       StoryJobs.created_at sj <= jl_created_at l) /\
  ((List.length (filter active t) <= 10)%nat ->
   forall sj, In sj t ->
     StoryJobs.status sj = "pending" \/ StoryJobs.status sj = "running" ->
     In (job_line_of sj) (pending_story_jobs t)).
Proof.
  destruct (newest_facts StoryJobs.created_at active 10 t)
    as (Hlen & Hin & Hsorted & Hrest & Hall).
  unfold pending_story_jobs. split; [now rewrite length_map|].
  split; [|split; [|split]].
  - intros l Hl. apply in_map_iff in Hl. destruct Hl as (sj & <- & Hsj).
    apply active_spec. now apply Hin.
  - revert Hsorted. unfold sorted_by.
    generalize (newest StoryJobs.created_at active 10 t).
    induction 1 as [|a l Hs IH Ha]; simpl; constructor; auto.
    rewrite Forall_forall in *. intros x Hx. apply in_map_iff in Hx.
    destruct Hx as (b & <- & Hb). specialize (Ha b Hb).
    unfold desc in Ha. now apply Z.leb_le.
  - intros sj Hsj Hst. apply active_spec in Hst.
    destruct (Hrest sj Hsj Hst) as [H|H]; [left; now apply in_map|right].
    intros l Hl. apply in_map_iff in Hl. destruct Hl as (a & <- & Ha).
    now apply H.
  - intros Hfew sj Hsj Hst. apply in_map, Hall; auto.
    now apply active_spec.
Qed.

(** X15. The audit's listing of pending deliveries shows at most ten
    deliveries, all pending, latest [deliver_at] first; a pending delivery
    that is left out is due no later than every delivery shown, so with
    more than ten pending the ones longest overdue are the ones left out;
    with at most ten pending, all are shown. *)
Theorem pending_deliveries_latest_ten t :
  (List.length (pending_deliveries t) <= 10)%nat /\
  (forall l, In l (pending_deliveries t) -> dl_status l = "pending") /\
  StronglySorted (fun a b => dl_deliver_at b <= dl_deliver_at a)
    (pending_deliveries t) /\
  (forall d, In d t -> ScheduledDeliveries.status d = "pending" ->
     In (delivery_line_of d) (pending_deliveries t) \/
     forall l, In l (pending_deliveries t) ->
       ScheduledDeliveries.deliver_at d <= dl_deliver_at l) /\
  ((List.length (filter unsent t) <= 10)%nat ->
   forall d, In d t -> ScheduledDeliveries.status d = "pending" ->
     In (delivery_line_of d) (pending_deliveries t)).
Proof.
  destruct (newest_facts ScheduledDeliveries.deliver_at unsent 10 t)
    as (Hlen & Hin & Hsorted & Hrest & Hall).
  unfold pending_deliveries. split; [now rewrite length_map|].
  split; [|split; [|split]].
  - intros l Hl. apply in_map_iff in Hl. destruct Hl as (d & <- & Hd).
    apply String.eqb_eq. now apply Hin.
  - revert Hsorted. unfold sorted_by.
    generalize (newest ScheduledDeliveries.deliver_at unsent 10 t).
    induction 1 as [|a l Hs IH Ha]; simpl; constructor; auto.
    rewrite Forall_forall in *. intros x Hx. apply in_map_iff in Hx.
    destruct Hx as (b & <- & Hb). specialize (Ha b Hb).
    unfold desc in Ha. now apply Z.leb_le.
  - intros d Hd Hst. apply String.eqb_eq in Hst.
    destruct (Hrest d Hd Hst) as [H|H]; [left; now apply in_map|right].
    intros l Hl. apply in_map_iff in Hl. destruct Hl as (a & <- & Ha).
    now apply H.
  - intros Hfew d Hd Hst. apply in_map, Hall; auto.
    now apply String.eqb_eq.
Qed.

End SchemaAudit.

(** ** Credits: [public.users], [public.credit_transactions] and the
    functions that move credits *)

Module Credits.
Import Sql.

(** A [jsonb] value, as far as the column defaults need one. *)
Inductive json :=
| JString (s : string)
| JObject (fields : json_fields)
with json_fields :=
| JEnd
| JField (name : string) (value : json) (rest : json_fields).

(** A row of [users]: the columns of the initial schema, then those the
    iOS migration adds. *)
Record user := mk_user {
  id : uuid;
  email : text;
  credits : Z;
  credits_used_total : Z;
  subscription_status : text;
  subscription_tier : option text;
  stripe_customer_id : option text;
  stripe_subscription_id : option text;
  current_period_start : option timestamptz;
  current_period_end : option timestamptz;
  cancel_at_period_end : option bool;
  trial_credits_remaining : Z;
  trial_started_at : option timestamptz;
  story_bible : json;
  preferences : json;
  current_genre : option text;
  current_protagonist : option json;
  onboarding_completed : bool;
  onboarding_step : option text;
  created_at : timestamptz;
  updated_at : timestamptz;
  last_story_at : option timestamptz;
  last_login_at : option timestamptz;
  apple_user_id : option text;
  password_hash : option text;
  variation_tolerance : option text;
  xion_experiments : option text;
  fifi_enabled : option bool
}.

(** A row of [credit_transactions]. *)
Record credit_transaction := mk_transaction {
  tx_id : uuid;
  user_id : uuid;
  amount : Z;
  balance_after : Z;
  transaction_type : text;
  reference_id : option uuid;
  reference_type : option text;
  description : option text;
  metadata : option json;
  tx_created_at : timestamptz
}.

(** The two tables. *)
Record db := mk_db {
  users : list user;
  ledger : list credit_transaction
}.

(** The errors a statement can raise; a function that raises leaves the
    tables as they were before the call. *)
Inductive sql_error :=
| not_null_violation
| unique_violation
| check_violation
| numeric_value_out_of_range.

Inductive outcome (A : Type) :=
| Done (s : db) (r : A)
| Raised (e : sql_error).
Arguments Done {A} s r.
Arguments Raised {A} e.

(** [check (transaction_type in (...))]. *)
Definition transaction_type_check (ty : text) : bool :=
  existsb (String.eqb ty)
    ["trial_grant"; "subscription_refresh"; "credit_pack_purchase";
     "story_generation"; "retell_generation"; "hallucination_reward";
     "manual_adjustment"; "rollover"].

(** [INSERT INTO credit_transactions]: the checks, then the primary key. *)
Definition insert_transaction (tx : credit_transaction)
    (l : list credit_transaction) : sql_error + list credit_transaction :=
  if negb (int4 (amount tx) && int4 (balance_after tx))
  then inl numeric_value_out_of_range
  else if negb (transaction_type_check (transaction_type tx))
  then inl check_violation
  else if existsb (Z.eqb (tx_id tx)) (map tx_id l)
  then inl unique_violation
  else inr (l ++ [tx]).

(** A user row with its credit columns and [updated_at] rewritten. *)
Definition with_credits (c used : Z) (now : timestamptz) (u : user) : user :=
  {| id := id u;
     email := email u;
     credits := c;
     credits_used_total := used;
     subscription_status := subscription_status u;
     subscription_tier := subscription_tier u;
     stripe_customer_id := stripe_customer_id u;
     stripe_subscription_id := stripe_subscription_id u;
     current_period_start := current_period_start u;
     current_period_end := current_period_end u;
     cancel_at_period_end := cancel_at_period_end u;
     trial_credits_remaining := trial_credits_remaining u;
     trial_started_at := trial_started_at u;
     story_bible := story_bible u;
     preferences := preferences u;
     current_genre := current_genre u;
     current_protagonist := current_protagonist u;
     onboarding_completed := onboarding_completed u;
     onboarding_step := onboarding_step u;
     created_at := created_at u;
     updated_at := now;
     last_story_at := last_story_at u;
     last_login_at := last_login_at u;
     apple_user_id := apple_user_id u;
     password_hash := password_hash u;
     variation_tolerance := variation_tolerance u;
     xion_experiments := xion_experiments u;
     fifi_enabled := fifi_enabled u |}.

(** [public.deduct_credits(p_user_id, p_amount, p_transaction_type,
    p_reference_id, p_description)], called at time [now]; [new_id] is the
    [gen_random_uuid()] of the logged row.  When no user has the id,
    [v_current_credits] is NULL, the comparison is NULL and the [IF] is
    not taken, [v_new_balance] is NULL, the [UPDATE] finds no row, and the
    [INSERT] puts NULL into [balance_after].  The [VALUES] list is
    evaluated before the row is checked, so a [-p_amount] that is out of
    range raises first. *)
Definition deduct_credits (now : timestamptz) (new_id : uuid)
    (p_user_id : uuid) (p_amount : Z) (p_transaction_type : text)
    (p_reference_id : option uuid) (p_description : option text)
    (s : db) : outcome bool :=
  match option_map credits (lookup id p_user_id (users s)) with
  | None =>
      if negb (int4 (- p_amount)) then Raised numeric_value_out_of_range
      else Raised not_null_violation
  | Some v_current_credits =>
      if v_current_credits <? p_amount then Done s false
      else
        let v_new_balance := v_current_credits - p_amount in
        if negb (int4 v_new_balance) then Raised numeric_value_out_of_range
        else
          let hit := fun u => id u =? p_user_id in
          if existsb (fun u => hit u && negb (int4 (credits_used_total u + p_amount)))
               (users s)
          then Raised numeric_value_out_of_range
          else
            let users' :=
              update_where hit
                (fun u => with_credits v_new_balance
                            (credits_used_total u + p_amount) now u)
                (users s) in
            match insert_transaction
                    {| tx_id := new_id;
                       user_id := p_user_id;
                       amount := - p_amount;
                       balance_after := v_new_balance;
                       transaction_type := p_transaction_type;
                       reference_id := p_reference_id;
                       reference_type :=
                         if (p_transaction_type =? "story_generation")%string
                         then Some "story"
                         else if (p_transaction_type =? "retell_generation")%string
                         then Some "story"
                         else None;
                       description := p_description;
                       metadata := None;
                       tx_created_at := now |}
                    (ledger s)
            with
            | inl e => Raised e
            | inr ledger' => Done {| users := users'; ledger := ledger' |} true
            end
  end.

(** [public.add_credits(p_user_id, p_amount, p_transaction_type,
    p_reference_id, p_description, p_metadata)].  When no user has the
    id, the [UPDATE] returns no row, [v_new_balance] is NULL, and the
    [INSERT] puts NULL into [balance_after]. *)
Definition add_credits (now : timestamptz) (new_id : uuid)
    (p_user_id : uuid) (p_amount : Z) (p_transaction_type : text)
    (p_reference_id : option uuid) (p_description : option text)
    (p_metadata : option json) (s : db) : outcome Z :=
  let hit := fun u => id u =? p_user_id in
  if existsb (fun u => hit u && negb (int4 (credits u + p_amount))) (users s)
  then Raised numeric_value_out_of_range
  else
    let users' :=
      update_where hit
        (fun u => with_credits (credits u + p_amount) (credits_used_total u)
                    now u)
        (users s) in
    match option_map credits (lookup id p_user_id users') with
    | None => Raised not_null_violation
    | Some v_new_balance =>
        match insert_transaction
                {| tx_id := new_id;
                   user_id := p_user_id;
                   amount := p_amount;
                   balance_after := v_new_balance;
                   transaction_type := p_transaction_type;
                   reference_id := p_reference_id;
                   reference_type :=
                     if (p_transaction_type =? "credit_pack_purchase")%string
                     then Some "stripe_payment"
                     else if (p_transaction_type =? "subscription_refresh")%string
                     then Some "stripe_subscription"
                     else if (p_transaction_type =? "hallucination_reward")%string
                     then Some "hallucination"
                     else None;
                   description := p_description;
                   metadata := p_metadata;
                   tx_created_at := now |}
                (ledger s)
        with
        | inl e => Raised e
        | inr ledger' =>
            Done {| users := users'; ledger := ledger' |} v_new_balance
        end
    end.

(** The row [INSERT INTO public.users (id, email, credits,
    trial_credits_remaining) VALUES (new.id, new.email, 10, 10)] writes at
    time [now], every other column at its default. *)
Definition new_user (new_id : uuid) (new_email : text) (now : timestamptz)
    : user :=
  {| id := new_id;
     email := new_email;
     credits := 10;
     credits_used_total := 0;
     subscription_status := "trial";
     subscription_tier := None;
     stripe_customer_id := None;
     stripe_subscription_id := None;
     current_period_start := None;
     current_period_end := None;
     cancel_at_period_end := Some false;
     trial_credits_remaining := 10;
     trial_started_at := Some now;
     story_bible := JObject JEnd;
     preferences :=
       JObject (JField "story_length" (JString "medium")
               (JField "delivery_time" (JString "08:00")
               (JField "timezone" (JString "America/New_York") JEnd)));
     current_genre := None;
     current_protagonist := None;
     onboarding_completed := false;
     onboarding_step := Some "welcome";
     created_at := now;
     updated_at := now;
     last_story_at := None;
     last_login_at := None;
     apple_user_id := None;
     password_hash := None;
     variation_tolerance := Some "medium";
     xion_experiments := Some "occasional";
     fifi_enabled := Some true |}.

(** [public.handle_new_user()], the trigger that runs after a row
    [(new.id, new.email)] is inserted into [auth.users]; [auth.users.email]
    may be NULL.  [tx] is the [gen_random_uuid()] of the logged row. *)
Definition handle_new_user (now : timestamptz) (tx : uuid)
    (new_id : uuid) (new_email : option text) (s : db) : outcome unit :=
  match new_email with
  | None => Raised not_null_violation
  | Some e =>
      if existsb (Z.eqb new_id) (map id (users s))
         || existsb (String.eqb e) (map email (users s))
      then Raised unique_violation
      else
        match insert_transaction
                {| tx_id := tx;
                   user_id := new_id;
                   amount := 10;
                   balance_after := 10;
                   transaction_type := "trial_grant";
                   reference_id := None;
                   reference_type := None;
                   description :=
                     Some "Welcome to FixionMail! Here are your 10 free story credits.";
                   metadata := None;
                   tx_created_at := now |}
                (ledger s)
        with
        | inl err => Raised err
        | inr ledger' =>
            Done {| users := users s ++ [new_user new_id e now];
                    ledger := ledger' |} tt
        end
  end.

(** The calls that move credits, and a history of them; a call that
    raises is rolled back. *)
Inductive call :=
| Signup (now : timestamptz) (tx : uuid) (new_id : uuid)
    (new_email : option text)
| Deduct (now : timestamptz) (tx : uuid) (p_user_id : uuid) (p_amount : Z)
    (p_transaction_type : text) (p_reference_id : option uuid)
    (p_description : option text)
| Add (now : timestamptz) (tx : uuid) (p_user_id : uuid) (p_amount : Z)
    (p_transaction_type : text) (p_reference_id : option uuid)
    (p_description : option text) (p_metadata : option json).

Definition state_after {A : Type} (s : db) (o : outcome A) : db :=
  match o with
  | Done s' _ => s'
  | Raised _ => s
  end.

Definition exec (c : call) (s : db) : db :=
  match c with
  | Signup now tx i e => state_after s (handle_new_user now tx i e s)
  | Deduct now tx u a ty r d => state_after s (deduct_credits now tx u a ty r d s)
  | Add now tx u a ty r d m => state_after s (add_credits now tx u a ty r d m s)
  end.

Fixpoint run (cs : list call) (s : db) : db :=
  match cs with
  | [] => s
  | c :: cs' => run cs' (exec c s)
  end.

Fixpoint total (l : list Z) : Z :=
  match l with
  | [] => 0
  | a :: l' => a + total l'
  end.

(** The logged amounts of a user, and what the log says the balance was
    after the last of them. *)
Definition movements (uid : uuid) (l : list credit_transaction)
    : list credit_transaction :=
  filter (fun tx => user_id tx =? uid) l.

Definition logged_total (uid : uuid) (l : list credit_transaction) : Z :=
  total (map amount (movements uid l)).

Definition last_balance (uid : uuid) (l : list credit_transaction)
    : option Z :=
  option_map balance_after (hd_error (rev (movements uid l))).

(** Users have distinct ids, every logged row belongs to a user, and each
    user's credits are both the sum of the logged amounts and the balance
    the last logged row reports. *)
Record balanced (s : db) : Prop := {
  bal_pk : NoDup (map id (users s));
  bal_fk : forall tx, In tx (ledger s) -> In (user_id tx) (map id (users s));
  bal_sum : forall u, In u (users s) -> credits u = logged_total (id u) (ledger s);
  bal_last : forall u, In u (users s) ->
    last_balance (id u) (ledger s) = Some (credits u)
}.

(** *** Facts *)

Lemma insert_transaction_inr tx l l' :
  insert_transaction tx l = inr l' -> l' = l ++ [tx].
Proof.
  unfold insert_transaction.
  destruct (negb _); [discriminate|].
  destruct (negb _); [discriminate|].
  destruct (existsb _ _); [discriminate|]. now inversion 1.
Qed.

Lemma movements_snoc uid l tx :
  movements uid (l ++ [tx]) =
  movements uid l ++ (if user_id tx =? uid then [tx] else []).
Proof. unfold movements. rewrite filter_app. reflexivity. Qed.

Lemma total_app l1 l2 : total (l1 ++ l2) = total l1 + total l2.
Proof. induction l1 as [|a l1 IH]; simpl; [reflexivity|]. lia. Qed.

Lemma logged_total_snoc uid l tx :
  logged_total uid (l ++ [tx]) =
  logged_total uid l + (if user_id tx =? uid then amount tx else 0).
Proof.
  unfold logged_total. rewrite movements_snoc, map_app, total_app.
  destruct (user_id tx =? uid); simpl; lia.
Qed.

Lemma last_balance_snoc uid l tx :
  last_balance uid (l ++ [tx]) =
  if user_id tx =? uid then Some (balance_after tx) else last_balance uid l.
Proof.
  unfold last_balance. rewrite movements_snoc.
  destruct (user_id tx =? uid); [|now rewrite app_nil_r].
  rewrite rev_app_distr. reflexivity.
Qed.


Lemma user_row_injective (l : list user) a b :
  NoDup (map id l) -> In a l -> In b l -> id a = id b -> a = b.
Proof.
  intros Hnd Ha Hb E.
  assert (H1 := In_lookup id (id b) l a Hnd Ha E).
  assert (H2 := In_lookup id (id b) l b Hnd Hb eq_refl).
  congruence.
Qed.

(** One user's credits move by the amount of the row that is logged. *)
Lemma balanced_move s uid u0 f tx :
  balanced s ->
  lookup id uid (users s) = Some u0 ->
  (forall u, id (f u) = id u) ->
  credits (f u0) = credits u0 + amount tx ->
  balance_after tx = credits (f u0) ->
  user_id tx = uid ->
  balanced {| users := update_where (fun u => id u =? uid) f (users s);
              ledger := ledger s ++ [tx] |}.
Proof.
  intros [Hpk Hfk Hsum Hlast] Hlk Hf Hc Hb Hu.
  destruct (lookup_In id uid _ u0 Hlk) as [Hin0 Hid0].
  assert (Hids : map id (update_where (fun u => id u =? uid) f (users s)) =
                 map id (users s)) by (apply update_where_keys; auto).
  split; simpl.
  - now rewrite Hids.
  - rewrite Hids. intros tx' Hin. apply in_app_or in Hin.
    destruct Hin as [Hin|[<-|[]]]; [auto|].
    rewrite Hu, <- Hid0. now apply in_map.
  - intros u' Hu'. apply update_where_inv in Hu'.
    destruct Hu' as (u & Hin & ->). rewrite logged_total_snoc, Hu.
    destruct (id u =? uid) eqn:E.
    + apply Z.eqb_eq in E.
      assert (u = u0) by (eapply user_row_injective; eauto; congruence). subst u.
      rewrite Hf, Hid0, Z.eqb_refl, Hc, (Hsum u0 Hin0), Hid0. reflexivity.
    + rewrite Z.eqb_sym, E, (Hsum u Hin). lia.
  - intros u' Hu'. apply update_where_inv in Hu'.
    destruct Hu' as (u & Hin & ->). rewrite last_balance_snoc, Hu.
    destruct (id u =? uid) eqn:E.
    + apply Z.eqb_eq in E.
      assert (u = u0) by (eapply user_row_injective; eauto; congruence). subst u.
      rewrite Hf, Hid0, Z.eqb_refl, Hb. reflexivity.
    + rewrite Z.eqb_sym, E. auto.
Qed.

Lemma balanced_signup s u tx :
  balanced s ->
  ~ In (id u) (map id (users s)) ->
  user_id tx = id u -> amount tx = credits u -> balance_after tx = credits u ->
  balanced {| users := users s ++ [u]; ledger := ledger s ++ [tx] |}.
Proof.
  intros [Hpk Hfk Hsum Hlast] Hnew Hu Ha Hb.
  assert (Hnone : movements (id u) (ledger s) = []).
  { unfold movements. destruct (filter _ (ledger s)) as [|x l] eqn:F;
      [reflexivity|].
    assert (Hx : In x (filter (fun tx => user_id tx =? id u) (ledger s)))
      by (rewrite F; now left).
    apply filter_In in Hx. destruct Hx as [Hx E]. apply Z.eqb_eq in E.
    exfalso. apply Hnew. rewrite <- E. auto. }
  split; simpl.
  - rewrite map_app. simpl. apply NoDup_app; auto.
    + repeat constructor. auto.
    + intros a Ha' [<-|[]]. contradiction.
  - intros tx' Hin. rewrite map_app. apply in_or_app.
    apply in_app_or in Hin. destruct Hin as [Hin|[<-|[]]]; [left; auto|].
    right. rewrite Hu. now left.
  - intros u' Hu'. rewrite logged_total_snoc, Hu.
    apply in_app_or in Hu'. destruct Hu' as [Hu'|[<-|[]]].
    + assert (E : (id u =? id u') = false).
      { apply Z.eqb_neq. intros E. apply Hnew. rewrite E. now apply in_map. }
      rewrite E, (Hsum u' Hu'). lia.
    + rewrite Z.eqb_refl. unfold logged_total. rewrite Hnone. simpl. lia.
  - intros u' Hu'. rewrite last_balance_snoc, Hu.
    apply in_app_or in Hu'. destruct Hu' as [Hu'|[<-|[]]].
    + assert (E : (id u =? id u') = false).
      { apply Z.eqb_neq. intros E. apply Hnew. rewrite E. now apply in_map. }
      rewrite E. auto.
    + rewrite Z.eqb_refl. now rewrite Hb.
Qed.

Lemma exec_balanced c s : balanced s -> balanced (exec c s).
Proof.
  intros Hb. destruct c; simpl.
  - unfold handle_new_user. destruct new_email as [e|]; [|exact Hb].
    destruct (existsb (Z.eqb new_id) (map id (users s))) eqn:E1;
      [exact Hb|]. simpl.
    destruct (existsb (String.eqb e) (map email (users s))); [exact Hb|].
    destruct (insert_transaction _ _) as [err|l'] eqn:Hi; [exact Hb|].
    apply insert_transaction_inr in Hi. subst l'. simpl.
    apply balanced_signup; auto. simpl.
    intros Hin. apply existsb_eqb_In in Hin. congruence.
  - unfold deduct_credits.
    destruct (lookup id p_user_id (users s)) as [u0|] eqn:Hlk;
      [|simpl; destruct (negb (int4 (- p_amount))); exact Hb].
    simpl. destruct (credits u0 <? p_amount); [exact Hb|].
    destruct (negb (int4 _)); [exact Hb|].
    destruct (existsb _ (users s)); [exact Hb|].
    destruct (insert_transaction _ _) as [err|l'] eqn:Hi; [exact Hb|].
    apply insert_transaction_inr in Hi. subst l'. simpl.
    eapply balanced_move; eauto; simpl; lia.
  - unfold add_credits.
    destruct (existsb _ (users s)); [exact Hb|].
    rewrite lookup_update_same by reflexivity.
    destruct (lookup id p_user_id (users s)) as [u0|] eqn:Hlk; [|exact Hb].
    simpl. destruct (insert_transaction _ _) as [err|l'] eqn:Hi; [exact Hb|].
    apply insert_transaction_inr in Hi. subst l'. simpl.
    eapply balanced_move; eauto; simpl; lia.
Qed.

Lemma run_balanced cs : forall s, balanced s -> balanced (run cs s).
Proof.
  induction cs as [|c cs IH]; simpl; intros s Hb; [assumption|].
  apply IH. now apply exec_balanced.
Qed.

Definition empty : db := {| users := []; ledger := [] |}.

Lemma balanced_empty : balanced empty.
Proof. split; simpl; try constructor; intros ? []. Qed.

(** What a call of [deduct_credits] that returns has done. *)
Lemma deduct_credits_inv now tx uid a ty r d s s' ok :
  deduct_credits now tx uid a ty r d s = Done s' ok ->
  exists u, lookup id uid (users s) = Some u /\
    ((ok = false /\ s' = s /\ credits u < a) \/
     (ok = true /\ a <= credits u /\
      users s' = update_where (fun x => id x =? uid)
                   (fun x => with_credits (credits u - a)
                               (credits_used_total x + a) now x) (users s) /\
      exists row, ledger s' = ledger s ++ [row] /\
        user_id row = uid /\ amount row = - a /\
        balance_after row = credits u - a /\ transaction_type row = ty)).
Proof.
  unfold deduct_credits.
  destruct (lookup id uid (users s)) as [u|] eqn:Hlk;
    [|simpl; destruct (negb (int4 (- a))); discriminate].
  simpl. intros H. exists u. split; [reflexivity|].
  destruct (credits u <? a) eqn:E.
  - inversion H; subst. left. apply Z.ltb_lt in E. auto.
  - apply Z.ltb_ge in E. destruct (negb (int4 _)); [discriminate|].
    destruct (existsb _ (users s)); [discriminate|].
    destruct (insert_transaction _ _) as [err|l'] eqn:Hi; [discriminate|].
    apply insert_transaction_inr in Hi. subst l'.
    inversion H; subst. right. repeat split; auto.
    eexists. split; [reflexivity|]. simpl. auto.
Qed.

(** What a call of [add_credits] that returns has done. *)
Lemma add_credits_inv now tx uid a ty r d m s s' b :
  add_credits now tx uid a ty r d m s = Done s' b ->
  exists u, lookup id uid (users s) = Some u /\
    b = credits u + a /\
    users s' = update_where (fun x => id x =? uid)
                 (fun x => with_credits (credits x + a)
                             (credits_used_total x) now x) (users s) /\
    exists row, ledger s' = ledger s ++ [row] /\
      user_id row = uid /\ amount row = a /\ balance_after row = b /\
      transaction_type row = ty.
Proof.
  unfold add_credits.
  destruct (existsb _ (users s)); [discriminate|].
  rewrite lookup_update_same by reflexivity.
  destruct (lookup id uid (users s)) as [u|] eqn:Hlk; [|discriminate].
  simpl. destruct (insert_transaction _ _) as [err|l'] eqn:Hi; [discriminate|].
  apply insert_transaction_inr in Hi. subst l'.
  intros H; inversion H; subst. exists u. repeat split; auto.
  eexists. split; [reflexivity|]. simpl. auto.
Qed.

(** *** Examples *)

Definition history : list call :=
  [Signup 100 901 1 (Some "a@example.com");
   Signup 110 902 2 (Some "b@example.com");
   Deduct 120 903 1 1 "story_generation" (Some 77) None;
   Deduct 130 904 2 50 "story_generation" None None;
   Add 140 905 1 5 "credit_pack_purchase" None None None;
   Signup 150 906 1 (Some "c@example.com");
   Deduct 160 907 9 1 "story_generation" None None].

Example history_credits :
  map (fun u => (id u, credits u, credits_used_total u)) (users (run history empty))
    = [(1, 14, 1); (2, 10, 0)] /\
  map (fun tx => (user_id tx, amount tx, balance_after tx))
      (ledger (run history empty))
    = [(1, 10, 10); (2, 10, 10); (1, -1, 9); (1, 5, 14)].
Proof. split; reflexivity. Qed.

(** *** The credit functions *)

(** X16. Through every history of signups, deductions and additions, a
    user's credits are the sum of the amounts logged for the user, and are
    the balance that the user's last logged row reports. *)
Theorem credits_match_the_log cs u :
  In u (users (run cs empty)) ->
  credits u = logged_total (id u) (ledger (run cs empty)) /\
  last_balance (id u) (ledger (run cs empty)) = Some (credits u).
Proof.
  intros Hu. destruct (run_balanced cs empty balanced_empty) as [_ _ Hs Hl].
  split; auto.
Qed.

Definition user_one : user :=
  with_credits 14 1 140 (new_user 1 "a@example.com" 100).

Lemma credits_match_the_log_witness :
  credits user_one = logged_total (id user_one) (ledger (run history empty)) /\
  last_balance (id user_one) (ledger (run history empty)) =
    Some (credits user_one).
Proof.
  apply (credits_match_the_log history user_one).
  simpl. left. reflexivity.
Defined.

(** X17. A call of [deduct_credits] that returns has found the user.  It
    returns false exactly when the balance is short of the amount, and
    then the tables are as they were.  It returns true with the balance
    lowered by the amount and not below zero, the lifetime usage raised by
    the amount, and one row logged that carries the negated amount and the
    new balance. *)
Theorem deduct_credits_outcome now tx uid a ty r d s s' ok :
  deduct_credits now tx uid a ty r d s = Done s' ok ->
  exists u, lookup id uid (users s) = Some u /\
    (ok = false <-> credits u < a) /\
    (ok = false -> s' = s) /\
    (ok = true ->
     exists u' row,
       lookup id uid (users s') = Some u' /\
       credits u' = credits u - a /\ 0 <= credits u' /\
       credits_used_total u' = credits_used_total u + a /\
       ledger s' = ledger s ++ [row] /\
       user_id row = uid /\ amount row = - a /\
       balance_after row = credits u').
Proof.
  intros H. apply deduct_credits_inv in H.
  destruct H as (u & Hlk & [(-> & -> & Hlt)|(-> & Hle & Hus & row & Hl & H1 & H2 & H3 & _)]).
  - exists u. repeat split; auto; discriminate.
  - exists u. repeat split; auto; try discriminate; try lia.
    intros _. exists (with_credits (credits u - a) (credits_used_total u + a) now u), row.
    rewrite Hus, lookup_update_same by reflexivity. rewrite Hlk. simpl.
    repeat split; auto. lia.
Qed.

Lemma deduct_credits_outcome_witness :
  exists u, lookup id 1 (users (run (firstn 2 history) empty)) = Some u /\
    (true = false <-> credits u < 1) /\
    (true = false ->
     run (firstn 3 history) empty = run (firstn 2 history) empty) /\
    (true = true ->
     exists u' row,
       lookup id 1 (users (run (firstn 3 history) empty)) = Some u' /\
       credits u' = credits u - 1 /\ 0 <= credits u' /\
       credits_used_total u' = credits_used_total u + 1 /\
       ledger (run (firstn 3 history) empty) =
         ledger (run (firstn 2 history) empty) ++ [row] /\
       user_id row = 1 /\ amount row = - 1 /\
       balance_after row = credits u').
Proof.
  apply (deduct_credits_outcome 120 903 1 1 "story_generation" (Some 77) None
           (run (firstn 2 history) empty) (run (firstn 3 history) empty) true).
  reflexivity.
Defined.




(** X19. Credits added and then deducted in the same amount leave a user
    whose balance was not negative with the balance they had; the
    deduction answers true, and only the lifetime usage has grown. *)
Theorem add_then_deduct_restores now1 tx1 now2 tx2 uid a ty1 ty2 r1 r2 d1 d2 m
    s s1 s2 b ok u :
  lookup id uid (users s) = Some u ->
  0 <= credits u ->
  add_credits now1 tx1 uid a ty1 r1 d1 m s = Done s1 b ->
  deduct_credits now2 tx2 uid a ty2 r2 d2 s1 = Done s2 ok ->
  ok = true /\
  exists u2, lookup id uid (users s2) = Some u2 /\
    credits u2 = credits u /\
    credits_used_total u2 = credits_used_total u + a.
Proof.
  intros Hlk Hpos Hadd Hded.
  apply add_credits_inv in Hadd.
  destruct Hadd as (u' & Hlk' & -> & Hus1 & _).
  rewrite Hlk in Hlk'. inversion Hlk'; subst u'. clear Hlk'.
  assert (Hlk1 : lookup id uid (users s1) =
                 Some (with_credits (credits u + a) (credits_used_total u)
                         now1 u)).
  { rewrite Hus1, lookup_update_same by reflexivity. now rewrite Hlk. }
  apply deduct_credits_inv in Hded.
  destruct Hded as (u1 & Hlk1' & [(_ & _ & Hlt)|(-> & _ & Hus2 & _)]);
    rewrite Hlk1 in Hlk1'; inversion Hlk1'; subst u1; simpl in *.
  - lia.
  - split; [reflexivity|]. eexists. split.
    + rewrite Hus2, lookup_update_same by reflexivity. rewrite Hlk1.
      reflexivity.
    + simpl. split; lia.
Qed.

Lemma add_then_deduct_restores_witness :
  true = true /\
  exists u2,
    lookup id 1
      (users (run [Add 140 905 1 5 "credit_pack_purchase" None None None;
                   Deduct 150 906 1 5 "story_generation" None None]
                (run (firstn 1 history) empty))) = Some u2 /\
    credits u2 = credits (new_user 1 "a@example.com" 100) /\
    credits_used_total u2 =
      credits_used_total (new_user 1 "a@example.com" 100) + 5.
Proof.
  apply (add_then_deduct_restores 140 905 150 906 1 5 "credit_pack_purchase"
           "story_generation" None None None None None
           (run (firstn 1 history) empty)
           (run [Add 140 905 1 5 "credit_pack_purchase" None None None]
              (run (firstn 1 history) empty))
           (run [Add 140 905 1 5 "credit_pack_purchase" None None None;
                 Deduct 150 906 1 5 "story_generation" None None]
              (run (firstn 1 history) empty))
           15 true (new_user 1 "a@example.com" 100)).
  - reflexivity.
  - simpl. lia.
  - reflexivity.
  - reflexivity.
Defined.

End Credits.

(** ** [public.character_names] and the name functions *)

Module CharacterNames.
Import Sql.

(** SQL's three truth values: [None] is NULL (unknown). *)
Definition tri := option bool.

Definition and3 (a b : tri) : tri :=
  match a, b with
  | Some false, _ | _, Some false => Some false
  | Some true, Some true => Some true
  | _, _ => None
  end.

Definition or3 (a b : tri) : tri :=
  match a, b with
  | Some true, _ | _, Some true => Some true
  | Some false, Some false => Some false
  | _, _ => None
  end.

(** [a = b] on nullable text. *)
Definition eq3 (a b : option text) : tri :=
  match a, b with
  | Some x, Some y => Some (String.eqb x y)
  | _, _ => None
  end.

(** [a IN (v1, ..., vn)] for non-NULL values [vi]. *)
Definition in3 (a : option text) (vs : list text) : tri :=
  match a with
  | Some x => Some (existsb (String.eqb x) vs)
  | None => None
  end.

(** [x != ALL (arr)]: false as soon as one element equals [x], else NULL
    if an element is NULL, else true. *)
Fixpoint neq_all (x : text) (arr : list (option text)) : tri :=
  match arr with
  | [] => Some true
  | e :: arr' => and3 (option_map negb (eq3 (Some x) e)) (neq_all x arr')
  end.

(** A WHERE clause keeps a row when the condition is true. *)
Definition holds (c : tri) : bool :=
  match c with
  | Some true => true
  | _ => false
  end.

(** A CHECK constraint rejects a row when the condition is false. *)
Definition passes (c : tri) : bool :=
  match c with
  | Some false => false
  | _ => true
  end.

(** A row of [character_names]. *)
Record character_name := mk_name {
  id : uuid;
  name : text;
  name_type : text;
  gender : option text;
  cultural_origin : option text;
  usage_count : Z;
  last_used_at : option timestamptz;
  created_at : timestamptz
}.

Definition table := list character_name.

(** [check (name_type in ('first', 'last'))]. *)
Definition name_type_check (cn : character_name) : bool :=
  passes (in3 (Some (name_type cn)) ["first"; "last"]).

(** [check ((name_type = 'first' and gender in ('male', 'female',
    'neutral')) or (name_type = 'last' and gender is null))]. *)
Definition gender_check (cn : character_name) : bool :=
  passes
    (or3 (and3 (eq3 (Some (name_type cn)) (Some "first"))
               (in3 (gender cn) ["male"; "female"; "neutral"]))
         (and3 (eq3 (Some (name_type cn)) (Some "last"))
               (Some (match gender cn with None => true | Some _ => false end)))).

(** The row of [RETURNS TABLE (id, name, cultural_origin)]. *)
Record name_line := mk_name_line {
  nl_id : uuid;
  nl_name : text;
  nl_cultural_origin : option text
}.

Definition name_line_of (cn : character_name) : name_line :=
  {| nl_id := id cn; nl_name := name cn;
     nl_cultural_origin := cultural_origin cn |}.

(** The WHERE clause of [get_random_names]. *)
Definition qualifies (p_name_type : text) (p_gender : option text)
    (p_exclude_names : list (option text)) (cn : character_name) : bool :=
  holds
    (and3 (and3 (eq3 (Some (name_type cn)) (Some p_name_type))
                (or3 (or3 (Some (match p_gender with
                                 | None => true
                                 | Some _ => false
                                 end))
                          (eq3 (gender cn) p_gender))
                     (eq3 (gender cn) (Some "neutral"))))
          (neq_all (name cn) p_exclude_names)).

(** [asc nulls first] on a nullable timestamp. *)
Definition nulls_first_lt (a b : option timestamptz) : bool :=
  match a, b with
  | None, Some _ => true
  | Some x, Some y => x <? y
  | _, _ => false
  end.

Definition same_time (a b : option timestamptz) : bool :=
  match a, b with
  | None, None => true
  | Some x, Some y => x =? y
  | _, _ => false
  end.

(** The comparison of [ORDER BY cn.usage_count asc, cn.last_used_at asc
    nulls first, random()]; [draw cn] stands for the value [random()]
    took for the row. *)
Definition less_used_first (draw : character_name -> Z)
    (a b : character_name) : bool :=
  (usage_count a <? usage_count b)
  || ((usage_count a =? usage_count b)
      && (nulls_first_lt (last_used_at a) (last_used_at b)
          || (same_time (last_used_at a) (last_used_at b)
              && (draw a <=? draw b)))).

(** [public.get_random_names(p_name_type, p_gender, p_count,
    p_exclude_names)]; a negative [LIMIT] is an error ([None]). *)
Definition get_random_names (draw : character_name -> Z)
    (p_name_type : text) (p_gender : option text) (p_count : Z)
    (p_exclude_names : list (option text)) (t : table)
    : option (list name_line) :=
  if p_count <? 0 then None
  else
    Some (map name_line_of
            (firstn (Z.to_nat p_count)
               (order_by (less_used_first draw)
                  (filter (qualifies p_name_type p_gender p_exclude_names) t)))).

(** [SET usage_count = usage_count + 1, last_used_at = now()]. *)
Definition used_once_more (now : timestamptz) (cn : character_name)
    : character_name :=
  {| id := id cn;
     name := name cn;
     name_type := name_type cn;
     gender := gender cn;
     cultural_origin := cultural_origin cn;
     usage_count := usage_count cn + 1;
     last_used_at := Some now;
     created_at := created_at cn |}.

(** [UPDATE character_names SET ... WHERE p]; an [integer] that
    overflows is an error ([None]). *)
Definition count_usage (now : timestamptz) (p : character_name -> bool)
    (t : table) : option table :=
  if existsb (fun cn => p cn && negb (int4 (usage_count cn + 1))) t
  then None
  else Some (update_where p (used_once_more now) t).

(** [public.increment_name_usage(p_name_id)]. *)
Definition increment_name_usage (now : timestamptz) (p_name_id : uuid)
    (t : table) : option table :=
  count_usage now (fun cn => id cn =? p_name_id) t.

(** [public.increment_name_usage_by_name(p_name, p_name_type,
    p_gender)]. *)
Definition increment_name_usage_by_name (now : timestamptz)
    (p_name p_name_type : text) (p_gender : option text) (t : table)
    : option table :=
  count_usage now
    (fun cn =>
       holds
         (and3 (and3 (eq3 (Some (name cn)) (Some p_name))
                     (eq3 (Some (name_type cn)) (Some p_name_type)))
               (or3 (eq3 (gender cn) p_gender)
                    (and3 (Some (match p_gender with
                                 | None => true
                                 | Some _ => false
                                 end))
                          (eq3 (Some (name_type cn)) (Some "last"))))))
    t.

(** *** Facts *)

Ltac bool_to_prop :=
  repeat (rewrite ?orb_true_iff, ?andb_true_iff, ?Z.ltb_lt, ?Z.eqb_eq,
            ?Z.leb_le in *).

Lemma less_used_total draw a b :
  less_used_first draw a b = true \/ less_used_first draw b a = true.
Proof.
  unfold less_used_first, nulls_first_lt, same_time.
  destruct (last_used_at a), (last_used_at b); bool_to_prop; lia.
Qed.

Lemma less_used_trans draw a b c :
  less_used_first draw a b = true -> less_used_first draw b c = true ->
  less_used_first draw a c = true.
Proof.
  unfold less_used_first, nulls_first_lt, same_time.
  destruct (last_used_at a), (last_used_at b), (last_used_at c);
    bool_to_prop; try lia; intuition (try lia; try discriminate).
Qed.

Lemma less_used_le draw a b :
  less_used_first draw a b = true -> usage_count a <= usage_count b.
Proof. unfold less_used_first. bool_to_prop. lia. Qed.

Lemma neq_all_true x arr :
  neq_all x arr = Some true <->
  forall e, In e arr -> exists y, e = Some y /\ y <> x.
Proof.
  induction arr as [|e arr IH]; simpl.
  - split; [intros _ e []|reflexivity].
  - split.
    + intros H. destruct e as [y|]; simpl in H.
      * destruct (String.eqb x y) eqn:E; simpl in H;
          [destruct (neq_all x arr) as [[|]|]; discriminate|].
        destruct (neq_all x arr) as [[|]|]; try discriminate.
        intros e' [<-|He'].
        -- exists y. split; [reflexivity|]. intros ->.
           rewrite String.eqb_refl in E. discriminate.
        -- apply IH; auto.
      * destruct (neq_all x arr) as [[|]|]; discriminate.
    + intros H. destruct (H e (or_introl eq_refl)) as (y & -> & Hy).
      simpl. assert (E : String.eqb x y = false)
        by (apply String.eqb_neq; congruence).
      rewrite E. simpl.
      assert (Hrest : neq_all x arr = Some true) by (apply IH; auto).
      now rewrite Hrest.
Qed.

Lemma holds_and3 a b : holds (and3 a b) = holds a && holds b.
Proof. destruct a as [[|]|], b as [[|]|]; reflexivity. Qed.

Lemma holds_or3 a b : holds (or3 a b) = holds a || holds b.
Proof. destruct a as [[|]|], b as [[|]|]; reflexivity. Qed.

Lemma holds_eq3 a b :
  holds (eq3 a b) = true <-> exists x, a = Some x /\ b = Some x.
Proof.
  destruct a as [x|], b as [y|]; simpl; split; try discriminate;
    try (intros (z & H1 & H2); discriminate).
  - destruct (String.eqb x y) eqn:E; [|discriminate].
    apply String.eqb_eq in E. subst. eauto.
  - intros (z & H1 & H2). inversion H1; inversion H2; subst.
    now rewrite String.eqb_refl.
Qed.

Lemma holds_true c : holds c = true <-> c = Some true.
Proof. destruct c as [[|]|]; simpl; split; congruence. Qed.

(** The WHERE clause in plain terms: the type is the one asked for; no
    gender was asked for, or the row has a gender and it is the one asked
    for or neutral; and every element of the exclusion list is a name
    other than the row's. *)
Lemma qualifies_spec ty g ex cn :
  qualifies ty g ex cn = true <->
  name_type cn = ty /\
  (g = None \/
   exists x, gender cn = Some x /\ (g = Some x \/ x = "neutral")) /\
  (forall e, In e ex -> exists y, e = Some y /\ y <> name cn).
Proof.
  unfold qualifies. rewrite !holds_and3, !holds_or3.
  rewrite !andb_true_iff, !orb_true_iff, !holds_eq3.
  rewrite (holds_true (neq_all _ _)), neq_all_true.
  split.
  - intros [[(x & H1 & H2) Hg] Hex]. inversion H1; inversion H2; subst.
    split; [reflexivity|]. split; [|exact Hex].
    destruct Hg as [[Hg|(x & Hx & Hgx)]|(x & Hx & Hn)].
    + destruct g; [simpl in Hg; discriminate|now left].
    + right. exists x. auto.
    + right. exists x. inversion Hn. subst x. split; [assumption|now right].
  - intros (Ht & Hg & Hex). split; [split|exact Hex].
    + exists ty. now rewrite Ht.
    + destruct Hg as [Hg|(x & Hx & [Hg|Hg])]; subst.
      * left. now left.
      * left. right. eauto.
      * right. eauto.
Qed.

Lemma get_random_names_rows draw ty g n ex t ls :
  get_random_names draw ty g n ex t = Some ls ->
  0 <= n /\
  ls = map name_line_of
         (firstn (Z.to_nat n)
            (order_by (less_used_first draw) (filter (qualifies ty g ex) t))).
Proof.
  unfold get_random_names. destruct (n <? 0) eqn:E; [discriminate|].
  apply Z.ltb_ge in E. intros H; inversion H. auto.
Qed.

Lemma sorted_head_least (leb : character_name -> character_name -> bool)
    (a : character_name) (l : list character_name) :
  sorted_by leb (a :: l) -> forall b, In b l -> leb a b = true.
Proof.
  intros H b Hb. apply StronglySorted_inv in H. destruct H as [_ H].
  rewrite Forall_forall in H. auto.
Qed.

Lemma count_usage_none now p t :
  (forall cn, In cn t -> p cn = false) -> count_usage now p t = Some t.
Proof.
  intros Hp. unfold count_usage.
  assert (E : existsb (fun cn => p cn && negb (int4 (usage_count cn + 1))) t
              = false).
  { destruct (existsb _ t) eqn:E; [|reflexivity].
    apply existsb_exists in E. destruct E as (cn & Hcn & E).
    rewrite (Hp cn Hcn) in E. discriminate. }
  rewrite E. f_equal. now apply update_where_none.
Qed.

Lemma ranked_sorted draw l :
  sorted_by (less_used_first draw) (order_by (less_used_first draw) l).
Proof.
  apply order_by_sorted; [apply less_used_total|apply less_used_trans].
Qed.

(** *** Examples *)

Definition ada : character_name :=
  mk_name 1 "Ada" "first" (Some "female") (Some "english") 2 (Some 50) 10.
Definition bo : character_name :=
  mk_name 2 "Bo" "first" (Some "neutral") None 0 None 10.
Definition cy : character_name :=
  mk_name 3 "Cy" "first" (Some "male") (Some "irish") 0 None 10.
Definition diaz : character_name :=
  mk_name 4 "Diaz" "last" None (Some "spanish") 0 None 10.
Definition names : table := [ada; bo; cy; diaz].

Example least_used_female :
  get_random_names id "first" (Some "female") 2 [Some "Zed"] names =
  Some [name_line_of bo; name_line_of ada].
Proof. reflexivity. Qed.

(** *** The name functions *)

(** X20. A call of [get_random_names] that returns gives at most
    [p_count] names; each comes from a row of the asked type, of the asked
    gender or neutral when a gender is asked, whose name is not in the
    exclusion list; and a row that qualifies but is left out has been used
    at least as often as every row that is returned. *)
Theorem get_random_names_least_used draw ty g n ex t ls :
  get_random_names draw ty g n ex t = Some ls ->
  exists rows,
    ls = map name_line_of rows /\
    (List.length rows <= Z.to_nat n)%nat /\
    (forall r, In r rows ->
       In r t /\ name_type r = ty /\
       (g = None \/ gender r = g \/ gender r = Some "neutral") /\
       ~ In (Some (name r)) ex) /\
    (forall cn, In cn t -> qualifies ty g ex cn = true ->
       In cn rows \/ forall r, In r rows -> usage_count r <= usage_count cn).
Proof.
  intros H. apply get_random_names_rows in H. destruct H as [Hn ->].
  set (l := order_by (less_used_first draw) (filter (qualifies ty g ex) t)).
  exists (firstn (Z.to_nat n) l).
  assert (Hsplit : firstn (Z.to_nat n) l ++ skipn (Z.to_nat n) l = l)
    by apply firstn_skipn.
  assert (Hs : sorted_by (less_used_first draw)
                 (firstn (Z.to_nat n) l ++ skipn (Z.to_nat n) l))
    by (rewrite Hsplit; apply ranked_sorted).
  apply SchemaAudit.sorted_app_inv in Hs. destruct Hs as [_ Hcross].
  assert (Hmem : forall r, In r l <-> In r t /\ qualifies ty g ex r = true).
  { intros r. unfold l. rewrite (order_by_In (less_used_first draw)).
    apply filter_In. }
  split; [reflexivity|]. split; [apply firstn_le_length|]. split.
  - intros r Hr.
    assert (Hl : In r l) by (rewrite <- Hsplit; apply in_or_app; now left).
    apply Hmem in Hl. destruct Hl as [Hin Hq].
    apply qualifies_spec in Hq. destruct Hq as (Ht & Hg & Hex).
    repeat split; auto.
    + destruct Hg as [Hg|(x & Hx & [Hg|Hg])]; subst; auto.
    + intros Hin'. destruct (Hex _ Hin') as (y & Hy & Hne).
      inversion Hy. congruence.
  - intros cn Hcn Hq. assert (Hl : In cn l) by (apply Hmem; auto).
    rewrite <- Hsplit in Hl. apply in_app_or in Hl.
    destruct Hl as [Hl|Hl]; [now left|right].
    intros r Hr. eapply less_used_le. eauto.
Qed.

Lemma get_random_names_least_used_witness :
  exists rows,
    [name_line_of bo; name_line_of ada] = map name_line_of rows /\
    (List.length rows <= Z.to_nat 2)%nat /\
    (forall r, In r rows ->
       In r names /\ name_type r = "first" /\
       (Some "female" = None \/ gender r = Some "female" \/
        gender r = Some "neutral") /\
       ~ In (Some (name r)) [Some "Zed"]) /\
    (forall cn, In cn names ->
       qualifies "first" (Some "female") [Some "Zed"] cn = true ->
       In cn rows \/ forall r, In r rows -> usage_count r <= usage_count cn).
Proof.
  apply (get_random_names_least_used id "first" (Some "female") 2
           [Some "Zed"] names).
  reflexivity.
Defined.

(** X21. On a table that satisfies the gender check (a last name has no
    gender), asking for last names of a given gender returns no name:
    the comparison of a NULL gender is unknown and the row is dropped. *)
Theorem last_names_of_a_gender_is_empty draw gv n ex t :
  (forall cn, In cn t -> gender_check cn = true) ->
  0 <= n ->
  get_random_names draw "last" (Some gv) n ex t = Some [].
Proof.
  intros Hck Hn. unfold get_random_names.
  assert (E : (n <? 0) = false) by now apply Z.ltb_ge.
  rewrite E.
  assert (Hnone : filter (qualifies "last" (Some gv) ex) t = []).
  { destruct (filter _ t) as [|cn l] eqn:F; [reflexivity|].
    assert (Hcn : In cn (filter (qualifies "last" (Some gv) ex) t))
      by (rewrite F; now left).
    apply filter_In in Hcn. destruct Hcn as [Hin Hq].
    apply qualifies_spec in Hq.
    destruct Hq as (Ht & [Hg|(x & Hx & _)] & _); [discriminate|].
    specialize (Hck cn Hin). unfold gender_check in Hck.
    rewrite Ht, Hx in Hck. discriminate. }
  rewrite Hnone. simpl. now rewrite firstn_nil.
Qed.

Lemma last_names_of_a_gender_is_empty_witness :
  get_random_names id "last" (Some "male") 3 [] names = Some [].
Proof.
  apply (last_names_of_a_gender_is_empty id "male" 3 [] names).
  - intros cn [<-|[<-|[<-|[<-|[]]]]]; reflexivity.
  - lia.
Defined.

(** X22. A NULL among the excluded names excludes every name: the call
    returns no name, whatever the table holds. *)
Theorem null_in_exclusions_is_empty draw ty g n ex t :
  In None ex -> 0 <= n ->
  get_random_names draw ty g n ex t = Some [].
Proof.
  intros Hnull Hn. unfold get_random_names.
  assert (E : (n <? 0) = false) by now apply Z.ltb_ge.
  rewrite E.
  assert (Hnone : filter (qualifies ty g ex) t = []).
  { destruct (filter _ t) as [|cn l] eqn:F; [reflexivity|].
    assert (Hcn : In cn (filter (qualifies ty g ex) t))
      by (rewrite F; now left).
    apply filter_In in Hcn. destruct Hcn as [_ Hq].
    apply qualifies_spec in Hq. destruct Hq as (_ & _ & Hex).
    destruct (Hex None Hnull) as (y & Hy & _). discriminate. }
  rewrite Hnone. simpl. now rewrite firstn_nil.
Qed.

Lemma null_in_exclusions_is_empty_witness :
  get_random_names id "first" None 3 [Some "Zed"; None] names = Some [].
Proof.
  apply (null_in_exclusions_is_empty id "first" None 3 [Some "Zed"; None]
           names).
  - simpl. auto.
  - lia.
Defined.

(** X23. [increment_name_usage_by_name] counts nothing when a first name
    is passed without its gender, and, on a table that satisfies the
    gender check, nothing when a last name is passed with a gender: the
    table is left as it was and no error is raised. *)
Theorem usage_by_name_not_counted now p_name ty g t :
  (g = None /\ ty <> "last") \/
  (g <> None /\ ty = "last" /\ forall cn, In cn t -> gender_check cn = true) ->
  increment_name_usage_by_name now p_name ty g t = Some t.
Proof.
  intros Hcase. unfold increment_name_usage_by_name.
  apply count_usage_none. intros cn Hcn.
  match goal with |- ?c = false => destruct c eqn:E end;
    [exfalso|reflexivity].
  rewrite !holds_and3, holds_or3, holds_and3 in E.
  rewrite !andb_true_iff, orb_true_iff, andb_true_iff, !holds_eq3 in E.
  destruct E as [[_ (y & H3 & H4)] Hg].
  inversion H3; inversion H4; subst.
  destruct Hcase as [[-> Hty]|(Hg' & Hty & Hck)].
  - destruct Hg as [(z & _ & H6)|[_ (w & H8 & H9)]]; [discriminate|].
    inversion H8; inversion H9; subst. congruence.
  - specialize (Hck cn Hcn). unfold gender_check in Hck.
    rewrite Hty in Hck.
    destruct Hg as [(z & H5 & H6)|[H7 _]].
    + rewrite H5 in Hck. discriminate.
    + destruct g; [discriminate|congruence].
Qed.

Lemma usage_by_name_not_counted_witness :
  increment_name_usage_by_name 900 "Ada" "first" None names = Some names.
Proof.
  apply (usage_by_name_not_counted 900 "Ada" "first" None names).
  left. split; [reflexivity|discriminate].
Defined.

(** X24. Names rotate: when a name has been served (a call for one name)
    and its usage counted with [increment_name_usage], a second call for
    one name serves the same row again only if every other row that
    qualifies has been used more often than that row had been. *)
Theorem served_again_only_if_least_used draw draw' now ty g ex t t' l l' r cn :
  NoDup (map id t) ->
  get_random_names draw ty g 1 ex t = Some [l] ->
  increment_name_usage now (nl_id l) t = Some t' ->
  get_random_names draw' ty g 1 ex t' = Some [l'] ->
  nl_id l' = nl_id l ->
  In r t -> id r = nl_id l ->
  In cn t -> qualifies ty g ex cn = true -> id cn <> id r ->
  usage_count r < usage_count cn.
Proof.
  intros Hpk _ Hinc H2 Hsame Hr Hid Hcn Hq Hne.
  unfold increment_name_usage, count_usage in Hinc.
  destruct (existsb _ t); [discriminate|]. inversion Hinc; subst t'.
  clear Hinc.
  destruct (update_where_split id (used_once_more now) (nl_id l) t r Hpk Hr Hid)
    as (l1 & l2 & Ht & Hup).
  rewrite Hup in H2.
  apply get_random_names_rows in H2. destruct H2 as [_ H2].
  set (t' := l1 ++ used_once_more now r :: l2) in *.
  assert (Hs := ranked_sorted draw' (filter (qualifies ty g ex) t')).
  destruct (order_by (less_used_first draw') (filter (qualifies ty g ex) t'))
    as [|r2 rest] eqn:E; [discriminate|].
  change (Z.to_nat 1) with 1%nat in H2. simpl in H2.
  inversion H2 as [Hl']. clear H2.
  assert (Hmem : forall x, In x (r2 :: rest) <->
                           In x t' /\ qualifies ty g ex x = true).
  { intros x. rewrite <- E, (order_by_In (less_used_first draw')).
    apply filter_In. }
  (* the row served again is the row whose usage was counted *)
  assert (Hr2 : r2 = used_once_more now r).
  { assert (Hin2 : In r2 t') by (apply Hmem; now left).
    assert (Hid2 : id r2 = id r)
      by (rewrite Hid, <- Hsame, Hl'; reflexivity).
    unfold t' in Hin2. apply in_app_or in Hin2.
    destruct Hin2 as [Hin2|[Hin2|Hin2]]; [|now symmetry|]; exfalso;
      rewrite Ht, map_app in Hpk; simpl in Hpk;
      apply NoDup_remove_2 in Hpk; apply Hpk; rewrite <- Hid2;
      apply in_or_app; [left|right]; now apply in_map. }
  (* the other row is untouched and still qualifies *)
  assert (Hcn' : In cn (r2 :: rest)).
  { apply Hmem. split; [|assumption]. unfold t'.
    rewrite Ht in Hcn. apply in_app_or in Hcn. apply in_or_app.
    destruct Hcn as [Hcn|[Hcn|Hcn]]; [now left|congruence|right; now right]. }
  destruct Hcn' as [Hcn'|Hcn'].
  - exfalso. apply Hne. rewrite <- Hcn', Hr2. reflexivity.
  - assert (Hle := sorted_head_least _ r2 rest Hs cn Hcn').
    apply less_used_le in Hle. rewrite Hr2 in Hle. simpl in Hle. lia.
Qed.

Definition eve : character_name :=
  mk_name 5 "Eve" "first" (Some "female") None 4 None 10.

Lemma served_again_only_if_least_used_witness :
  usage_count ada < usage_count eve.
Proof.
  apply (served_again_only_if_least_used id id 900 "first" (Some "female")
           [] [ada; eve] [used_once_more 900 ada; eve]
           (name_line_of ada) (name_line_of ada) ada eve).
  - simpl. repeat constructor; simpl; intuition lia.
  - reflexivity.
  - reflexivity.
  - reflexivity.
  - reflexivity.
  - simpl. now left.
  - reflexivity.
  - simpl. auto.
  - reflexivity.
  - simpl. lia.
Defined.

End CharacterNames.

(** ** The writing room: who writes a story *)

From Stdlib Require Import QArith.
Local Open Scope Z_scope.

Module WritingRoom.
Import Sql Credits.

(** [check (xion_experiments in ('never', 'rare', 'occasional',
    'frequent'))]; a NULL passes. *)
Definition xion_experiments_check (u : user) : bool :=
  match xion_experiments u with
  | None => true
  | Some x => existsb (String.eqb x) ["never"; "rare"; "occasional"; "frequent"]
  end.

(** [check (writer in ('maurice', 'fifi', 'xion', 'joan') or writer is
    null)], the constraint on [stories.writer]. *)
Definition writer_check (w : option text) : bool :=
  match w with
  | None => true
  | Some x => existsb (String.eqb x) ["maurice"; "fifi"; "xion"; "joan"]
  end.

(** The settings the function reads, after [COALESCE]. *)
Record settings := mk_settings {
  tolerance : text;
  experiments : text;
  fifi : bool
}.

Definition settings_of (u : user) : settings :=
  {| tolerance := match variation_tolerance u with Some x => x | None => "medium" end;
     experiments := match xion_experiments u with Some x => x | None => "occasional" end;
     fifi := match fifi_enabled u with Some b => b | None => true end |}.

(** The first [CASE]: [below c] is the truth of [v_random < c] for the
    value [random()] took.  When no user has the id, [v_user] is NULL
    throughout and the [ELSE] branch is taken. *)
Definition first_pick (below : Q -> bool) (v_user : option settings) : text :=
  match v_user with
  | None => "maurice"
  | Some v =>
      if (tolerance v =? "low")%string then
        if below 0.6%Q then "maurice"
        else if below 0.9%Q then "joan"
        else if fifi v && below 0.95%Q then "fifi"
        else "maurice"
      else if (tolerance v =? "medium")%string then
        if below 0.4%Q then "maurice"
        else if below 0.65%Q then "joan"
        else if fifi v && below 0.85%Q then "fifi"
        else if negb (experiments v =? "never")%string && below 0.95%Q then "xion"
        else "maurice"
      else if (tolerance v =? "high")%string then
        if below 0.25%Q then "maurice"
        else if below 0.45%Q then "joan"
        else if fifi v && below 0.70%Q then "fifi"
        else if negb (experiments v =? "never")%string && below 0.95%Q then "xion"
        else "joan"
      else "maurice"
  end.

(** [public.select_story_writer(p_user_id)]; [again_above c] is the truth
    of [random() > c] for the second draw.  The second [CASE] has no
    [ELSE]: a value it does not list raises CASE_NOT_FOUND ([None]). *)
Definition select_story_writer (below again_above : Q -> bool)
    (p_user_id : uuid) (us : list user) : option text :=
  let v_user := option_map settings_of (lookup id p_user_id us) in
  let v_writer := first_pick below v_user in
  if (v_writer =? "xion")%string then
    match v_user with
    | None => None
    | Some v =>
        if (experiments v =? "never")%string then Some "maurice"
        else if (experiments v =? "rare")%string then
          Some (if again_above 0.3%Q then "joan" else v_writer)
        else if (experiments v =? "occasional")%string then Some v_writer
        else if (experiments v =? "frequent")%string then Some v_writer
        else None
    end
  else Some v_writer.

Ltac split_ifs :=
  repeat match goal with
         | |- context [if ?c then _ else _] => destruct c eqn:?
         end.

Lemma first_pick_values below v :
  In (first_pick below v) ["maurice"; "joan"; "fifi"; "xion"].
Proof.
  unfold first_pick. destruct v as [v|]; [|simpl; auto].
  split_ifs; simpl; auto.
Qed.

Lemma first_pick_xion below v :
  first_pick below v = "xion" ->
  exists s, v = Some s /\ (experiments s =? "never")%string = false /\
    (tolerance s =? "low")%string = false.
Proof.
  unfold first_pick. destruct v as [s|]; [|discriminate].
  intros H. exists s. split; [reflexivity|]. revert H.
  split_ifs; try discriminate; intros _;
    match goal with
    | H : negb _ && _ = true |- _ =>
        apply andb_true_iff in H; destruct H as [H _];
        apply negb_true_iff in H
    end; auto.
Qed.

(** X25. On users that satisfy the check on [xion_experiments], the
    function never raises and always answers one of the four writers that
    [stories.writer] accepts; for an id that no user has it answers
    maurice. *)
Theorem select_story_writer_valid below again_above uid us :
  (forall u, In u us -> xion_experiments_check u = true) ->
  (exists w, select_story_writer below again_above uid us = Some w /\
             writer_check (Some w) = true) /\
  (lookup id uid us = None ->
   select_story_writer below again_above uid us = Some "maurice").
Proof.
  intros Hck. split.
  - unfold select_story_writer.
    destruct (first_pick below _ =? "xion")%string eqn:Ex.
    + apply String.eqb_eq in Ex.
      destruct (first_pick_xion _ _ Ex) as (s & Hs & Hnever & _).
      rewrite Hs, Hnever.
      destruct (lookup id uid us) as [u|] eqn:Hlk; [|discriminate].
      simpl in Hs. inversion Hs; subst s.
      destruct (lookup_In id uid us u Hlk) as [Hin _].
      specialize (Hck u Hin). unfold xion_experiments_check in Hck.
      unfold settings_of in *. simpl in *.
      destruct (xion_experiments u) as [x|]; simpl in *.
      * rewrite Hnever in Hck. rewrite Ex.
        destruct (x =? "rare")%string;
          [destruct (again_above 0.3%Q); eexists; split; reflexivity|].
        destruct (x =? "occasional")%string; [eexists; split; reflexivity|].
        destruct (x =? "frequent")%string; [eexists; split; reflexivity|].
        discriminate.
      * rewrite Ex. eexists. split; reflexivity.
    + eexists. split; [reflexivity|].
      destruct (first_pick_values below
                  (option_map settings_of (lookup id uid us)))
        as [<-|[<-|[<-|[<-|[]]]]]; reflexivity.
  - intros Hlk. unfold select_story_writer. rewrite Hlk. reflexivity.
Qed.

Definition careful_reader : user :=
  mk_user 1 "a@example.com" 10 0 "trial" None None None None None
    (Some false) 10 (Some 100) (JObject JEnd) (JObject JEnd) None None false
    (Some "welcome") 100 100 None None None None (Some "high")
    (Some "never") (Some false).

Lemma select_story_writer_valid_witness :
  (exists w,
     select_story_writer (fun _ => false) (fun _ => true) 1 [careful_reader]
       = Some w /\ writer_check (Some w) = true) /\
  (lookup id 1 [careful_reader] = None ->
   select_story_writer (fun _ => false) (fun _ => true) 1 [careful_reader]
     = Some "maurice").
Proof.
  apply (select_story_writer_valid (fun _ => false) (fun _ => true) 1
           [careful_reader]).
  intros u [<-|[]]. reflexivity.
Defined.

(** X26. The settings are honoured whatever the draws: a user with
    [fifi_enabled] false never gets fifi, a user whose [xion_experiments]
    is 'never' never gets xion, and a user whose [variation_tolerance] is
    'low' never gets xion. *)
Theorem select_story_writer_honours_settings below again_above uid us u :
  lookup id uid us = Some u ->
  (fifi_enabled u = Some false ->
   select_story_writer below again_above uid us <> Some "fifi") /\
  (xion_experiments u = Some "never" ->
   select_story_writer below again_above uid us <> Some "xion") /\
  (variation_tolerance u = Some "low" ->
   select_story_writer below again_above uid us <> Some "xion").
Proof.
  intros Hlk. unfold select_story_writer. rewrite Hlk. simpl.
  repeat split.
  - intros Hf. unfold first_pick, settings_of. simpl. rewrite Hf. simpl.
    split_ifs; discriminate.
  - intros Hx. unfold first_pick, settings_of. simpl. rewrite Hx. simpl.
    split_ifs; discriminate.
  - intros Ht. unfold first_pick, settings_of. simpl. rewrite Ht. simpl.
    split_ifs; discriminate.
Qed.

Lemma select_story_writer_honours_settings_witness :
  (fifi_enabled careful_reader = Some false ->
   select_story_writer (fun _ => false) (fun _ => true) 1 [careful_reader]
     <> Some "fifi") /\
  (xion_experiments careful_reader = Some "never" ->
   select_story_writer (fun _ => false) (fun _ => true) 1 [careful_reader]
     <> Some "xion") /\
  (variation_tolerance careful_reader = Some "low" ->
   select_story_writer (fun _ => false) (fun _ => true) 1 [careful_reader]
     <> Some "xion").
Proof.
  apply (select_story_writer_honours_settings (fun _ => false)
           (fun _ => true) 1 [careful_reader] careful_reader).
  reflexivity.
Defined.

End WritingRoom.
